(** * simple-jwt-refresh: the token codec ([utils]) and the token manager
      ([JWTManager]) as a shallow embedding, with the properties of the
      specification stated over it.

    Conventions of the embedding.
    - JavaScript values that the code treats as [any] (the decoded payload,
      the body of a response, the argument of [isValidJWTFormat]) are the
      inductive [value].
    - A JavaScript number is a [number]: an integer or [NaN].  Epoch
      timestamps are integers; arithmetic on them is exact.
    - A thrown value is an [error]; a function that can throw returns
      [error + A], with [inl] for the throw.
    - [atob], [JSON.parse], [JSON.stringify] and the numeric coercion of a
      non-number are built-ins of the host: they are the fields of the class
      [JSRuntime]. *)

From stdpp Require Import base strings gmap list pretty.
From Stdlib Require Import ZArith Lia Ascii.

Local Open Scope Z_scope.

(** ** JavaScript data *)

Inductive error :=
| Error (message : string)
| TokenRefreshError (message : string) (originalError : error)
| NoValidTokenError (message : string).

Definition message (e : error) : string :=
  match e with
  | Error m | TokenRefreshError m _ | NoValidTokenError m => m
  end.

Definition name (e : error) : string :=
  match e with
  | Error _ => "Error"
  | TokenRefreshError _ _ => "TokenRefreshError"
  | NoValidTokenError _ => "NoValidTokenError"
  end.

(** [`${error}`]: [Error.prototype.toString]. *)
Definition error_to_string (e : error) : string :=
  if String.eqb (message e) "" then name e else name e +:+ ": " +:+ message e.

Inductive number :=
| Num (z : Z)
| NaN.

Definition nmul (a b : number) : number :=
  match a, b with Num x, Num y => Num (x * y) | _, _ => NaN end.

Definition nsub (a b : number) : number :=
  match a, b with Num x, Num y => Num (x - y) | _, _ => NaN end.

(** [a >= b] and [a > b]; a comparison with [NaN] is false. *)
Definition nge (a b : number) : bool :=
  match a, b with Num x, Num y => x >=? y | _, _ => false end.

Definition ngt (a b : number) : bool :=
  match a, b with Num x, Num y => x >? y | _, _ => false end.

#[warnings="-register-all"]
Inductive value :=
| VUndefined
| VNull
| VBool (b : bool)
| VNum (n : number)
| VStr (s : string)
| VArr (items : list value)
| VObj (props : list (string * value)).

(** Truthiness, as [!v] and [v ? _ : _] test it. *)
Definition truthy (v : value) : bool :=
  match v with
  | VUndefined | VNull => false
  | VBool b => b
  | VNum (Num z) => negb (z =? 0)
  | VNum NaN => false
  | VStr s => negb (String.eqb s "")
  | VArr _ | VObj _ => true
  end.

(** [obj[k]] on the own properties of an object literal. *)
Fixpoint property (k : string) (props : list (string * value)) : value :=
  match props with
  | [] => VUndefined
  | (k', v) :: rest => if String.eqb k' k then v else property k rest
  end.

Class JSRuntime := {
  atob : string -> error + string;
  JSON_parse : string -> error + value;
  JSON_stringify : value -> string;
  (** the numeric coercion of a value that is not a number *)
  ToNumber : value -> number
}.

Definition to_number `{JSRuntime} (v : value) : number :=
  match v with VNum n => n | _ => ToNumber v end.

(** ** Strings *)

(** [s.split(sep)] for a one-character separator. *)
Fixpoint split (sep : ascii) (s : string) : list string :=
  match s with
  | EmptyString => [EmptyString]
  | String c rest =>
      if Ascii.eqb c sep then EmptyString :: split sep rest
      else match split sep rest with
           | seg :: segs => String c seg :: segs
           | [] => [String c EmptyString]
           end
  end.

(** [s.replace(/a/g, b)] for single characters. *)
Fixpoint replace_all (a b : ascii) (s : string) : string :=
  match s with
  | EmptyString => EmptyString
  | String c rest =>
      String (if Ascii.eqb c a then b else c) (replace_all a b rest)
  end.

(** [s.includes(sub)]. *)
Fixpoint includes (sub s : string) : bool :=
  String.prefix sub s ||
  match s with
  | EmptyString => false
  | String _ rest => includes sub rest
  end.

(** A string without the separator, and the segments joined again. *)
Fixpoint free_of (sep : ascii) (s : string) : Prop :=
  match s with
  | EmptyString => True
  | String c rest => c <> sep /\ free_of sep rest
  end.

Fixpoint join (sep : ascii) (segs : list string) : string :=
  match segs with
  | [] => EmptyString
  | [seg] => seg
  | seg :: rest => seg +:+ String sep (join sep rest)
  end.

(** ** The token codec ([utils]) *)

Record JWTToken := {
  token : string;
  expiresAt : number
}.

Section Codec.
Context `{JSRuntime}.

Definition invalid_format : string := "Invalid JWT token format".

Definition decodeJWT (token : string) : error + value :=
  let attempt : error + value :=
    let parts := split "." token in
    if negb (length parts =? 3)%nat then inl (Error invalid_format)
    else
      let payload := nth 1 parts EmptyString in
      match atob (replace_all "_" "/" (replace_all "-" "+" payload)) with
      | inl e => inl e
      | inr decoded => JSON_parse decoded
      end in
  match attempt with
  | inr v => inr v
  | inl e =>
      if String.eqb (message e) invalid_format then inl e
      else inl (Error "Failed to decode JWT token")
  end.

(** [payload.exp]: reading a property of [null] or [undefined] throws a
    [TypeError]; a primitive or an array has no [exp]. *)
Definition get_exp (payload : value) : error + value :=
  match payload with
  | VUndefined | VNull =>
      inl (Error "Cannot read properties of null or undefined (reading 'exp')")
  | VObj props => inr (property "exp" props)
  | _ => inr VUndefined
  end.

Definition getTokenExpiration (token : string) : error + number :=
  match decodeJWT token with
  | inl e => inl e
  | inr payload =>
      match get_exp payload with
      | inl e => inl e
      | inr exp =>
          if negb (truthy exp)
          then inl (Error "Token does not contain expiration time")
          else inr (nmul (to_number exp) (Num 1000))
      end
  end.

Definition createJWTToken (tok : string) : error + JWTToken :=
  match getTokenExpiration tok with
  | inl e => inl e
  | inr exp => inr {| token := tok; expiresAt := exp |}
  end.

(** [now] is the value of [Date.now()] at the call. *)
Definition isTokenExpired (now : Z) (tok : JWTToken) (bufferMs : Z) : bool :=
  nge (Num now) (nsub (expiresAt tok) (Num bufferMs)).

Definition isValidJWTFormat (tok : value) : bool :=
  match tok with
  | VStr s =>
      if negb (truthy tok) then false
      else
        let parts := split "." s in
        (length parts =? 3)%nat && forallb (fun part => (0 <? String.length part)%nat) parts
  | _ => false
  end.

End Codec.

(** ** Requests, responses and configuration ([types]) *)

Inductive RefreshMethod := POST | PUT | PATCH.

Definition method_name (m : RefreshMethod) : string :=
  match m with POST => "POST" | PUT => "PUT" | PATCH => "PATCH" end.

Record RefreshConfig := {
  refresh_url : string;
  refresh_method : option RefreshMethod;
  refresh_headers : option (gmap string string);
  (** [inl e]: the function throws [e]; [inr None]: it returns a null-like
      value; [inr (Some t)]: it returns the token object [t]. *)
  extractAccessToken : value -> error + option JWTToken
}.

Record JWTManagerConfig := {
  refreshConfig : RefreshConfig;
  refreshBuffer : Z
}.

(** The second argument of [fetch]. *)
Record RequestInit := {
  init_method : string;
  init_headers : gmap string string;
  init_body : option string;
  init_credentials : string;
  init_extra : gmap string string
}.

(** [RequestConfig.options]: a partial [RequestInit]; a field that is
    [Some] is a key present in the object. *)
Record Options := {
  opt_method : option string;
  opt_headers : option (gmap string string);
  opt_body : option (option string);
  opt_credentials : option string;
  opt_extra : gmap string string
}.

Definition no_options : Options :=
  {| opt_method := None; opt_headers := None; opt_body := None;
     opt_credentials := None; opt_extra := ∅ |}.

(** [{ ...init, ...options }]: the keys of [options] win. *)
Definition spread_options (init : RequestInit) (o : Options) : RequestInit :=
  {| init_method := default (init_method init) (opt_method o);
     init_headers := default (init_headers init) (opt_headers o);
     init_body := default (init_body init) (opt_body o);
     init_credentials := default (init_credentials init) (opt_credentials o);
     init_extra := opt_extra o ∪ init_extra init |}.

Record RequestConfig := {
  url : string;
  method : option string;
  headers : option (gmap string string);
  body : value;
  options : Options
}.

Record Response := {
  ok : bool;
  status : Z;
  statusText : string;
  (** [response.headers], by header name in lower case *)
  response_headers : gmap string string;
  (** what [response.json()] and [response.text()] settle with *)
  json : error + value;
  text : error + string
}.

Record AuthenticatedResponse := {
  data : value;
  auth_status : Z;
  auth_headers : gmap string string;
  auth_ok : bool
}.

(** ** The event loop

    The host runs one piece of code at a time.  What happens to a manager is
    a sequence of events: a call of a public method, the promise of a call
    of [fetch] settling, the body of a response having been read, a timer
    firing, time passing.

    An asynchronous method runs until its first [await] on the network and
    is then a suspended [Task], which holds what its continuation needs.
    When an event wakes a task, the task runs to its next [await] on the
    network or to its end; the tasks that await a promise which settles on
    the way run in the same event, in the order in which they were
    suspended.  So the awaits on the network ([fetch], [response.json()],
    [response.text()]) are the points where events interleave, and an
    [await] of one method of the manager by another is part of the event
    that settles it.

    A promise, a timer and a call of [fetch] are each named by an [Id]; a
    timer handle is always truthy.  The three callbacks of the configuration
    and [console.warn] are observers: an invocation is recorded, returns
    normally and does not call the manager. *)

Definition Id := positive.
Bind Scope positive_scope with Id.

Inductive Task :=
(** [performTokenRefresh] at [await this.config.fetch(...)], inside the
    refresh whose promise is [p] *)
| AwaitRefreshFetch (p f : Id)
(** [performTokenRefresh] at [await response.json()] *)
| AwaitRefreshJson (p f : Id) (response : Response)
(** [getAccessToken] at [await this.refreshAccessToken()] *)
| AwaitGetToken (g p : Id) (failure : string)
(** [request] at [await this.getAccessToken()], which awaits refresh [p] *)
| AwaitRequestToken (q p : Id) (failure : string) (config : RequestConfig)
(** [request] at the first [await this.config.fetch(...)] *)
| AwaitRequestFetch (q f : Id) (config : RequestConfig) (hdrs : gmap string string)
(** [request] at [await response.json()] or [await response.text()] *)
| AwaitRequestBody (q f : Id) (response : Response)
(** [request] at [await this.refreshAccessToken()] after a 401 *)
| AwaitRequestRefresh (q p : Id) (config : RequestConfig) (hdrs : gmap string string)
(** [request] at the second [await this.config.fetch(...)] *)
| AwaitRetryFetch (q f : Id)
(** [request] at [await retryResponse.json()] or [.text()] *)
| AwaitRetryBody (q f : Id) (retryResponse : Response)
(** the [.catch] of the timer callback; [c] is the promise it returns *)
| AwaitScheduled (c p : Id).

Inductive Result :=
| RToken (t : JWTToken)
| RString (s : string)
| RResponse (r : AuthenticatedResponse)
| RUndefined.

Inductive Outcome :=
| Resolved (r : Result)
| Rejected (e : error).

(** What the manager tells its observers: the three callbacks of the
    configuration and [console.warn]. *)
Inductive Notice :=
| onTokenRefresh (t : JWTToken)
| onTokenRefreshError (e : error)
| onAuthFailure
| console_warn (e : error).

Record FetchCall := {
  call_id : Id;
  call_url : string;
  call_init : RequestInit
}.

Record World := {
  (** the private fields of [JWTManager] *)
  accessToken : option JWTToken;
  refreshPromise : option Id;
  refreshTimeoutId : option Id;
  (** the host: what [Date.now()] returns, *)
  clock : Z;
  (** the timers armed, each with its delay, *)
  timers : list (Id * Z);
  (** the calls of [config.fetch] so far, oldest first, *)
  fetched : list FetchCall;
  (** the suspended tasks, oldest first, *)
  tasks : list Task;
  (** the promises settled, latest first, *)
  settled : list (Id * Outcome);
  (** the invocations of the observers, oldest first, *)
  notices : list Notice;
  (** and the next identifier to hand out *)
  next_id : Id
}.

Definition set_accessToken (v : option JWTToken) (w : World) : World :=
  {| accessToken := v; refreshPromise := refreshPromise w;
     refreshTimeoutId := refreshTimeoutId w; clock := clock w;
     timers := timers w; fetched := fetched w; tasks := tasks w;
     settled := settled w; notices := notices w; next_id := next_id w |}.

Definition set_refreshPromise (v : option Id) (w : World) : World :=
  {| accessToken := accessToken w; refreshPromise := v;
     refreshTimeoutId := refreshTimeoutId w; clock := clock w;
     timers := timers w; fetched := fetched w; tasks := tasks w;
     settled := settled w; notices := notices w; next_id := next_id w |}.

Definition set_refreshTimeoutId (v : option Id) (w : World) : World :=
  {| accessToken := accessToken w; refreshPromise := refreshPromise w;
     refreshTimeoutId := v; clock := clock w;
     timers := timers w; fetched := fetched w; tasks := tasks w;
     settled := settled w; notices := notices w; next_id := next_id w |}.

Definition set_clock (v : Z) (w : World) : World :=
  {| accessToken := accessToken w; refreshPromise := refreshPromise w;
     refreshTimeoutId := refreshTimeoutId w; clock := v;
     timers := timers w; fetched := fetched w; tasks := tasks w;
     settled := settled w; notices := notices w; next_id := next_id w |}.

Definition set_timers (v : list (Id * Z)) (w : World) : World :=
  {| accessToken := accessToken w; refreshPromise := refreshPromise w;
     refreshTimeoutId := refreshTimeoutId w; clock := clock w;
     timers := v; fetched := fetched w; tasks := tasks w;
     settled := settled w; notices := notices w; next_id := next_id w |}.

Definition set_fetched (v : list FetchCall) (w : World) : World :=
  {| accessToken := accessToken w; refreshPromise := refreshPromise w;
     refreshTimeoutId := refreshTimeoutId w; clock := clock w;
     timers := timers w; fetched := v; tasks := tasks w;
     settled := settled w; notices := notices w; next_id := next_id w |}.

Definition set_tasks (v : list Task) (w : World) : World :=
  {| accessToken := accessToken w; refreshPromise := refreshPromise w;
     refreshTimeoutId := refreshTimeoutId w; clock := clock w;
     timers := timers w; fetched := fetched w; tasks := v;
     settled := settled w; notices := notices w; next_id := next_id w |}.

Definition set_settled (v : list (Id * Outcome)) (w : World) : World :=
  {| accessToken := accessToken w; refreshPromise := refreshPromise w;
     refreshTimeoutId := refreshTimeoutId w; clock := clock w;
     timers := timers w; fetched := fetched w; tasks := tasks w;
     settled := v; notices := notices w; next_id := next_id w |}.

Definition set_notices (v : list Notice) (w : World) : World :=
  {| accessToken := accessToken w; refreshPromise := refreshPromise w;
     refreshTimeoutId := refreshTimeoutId w; clock := clock w;
     timers := timers w; fetched := fetched w; tasks := tasks w;
     settled := settled w; notices := v; next_id := next_id w |}.

Definition set_next_id (v : Id) (w : World) : World :=
  {| accessToken := accessToken w; refreshPromise := refreshPromise w;
     refreshTimeoutId := refreshTimeoutId w; clock := clock w;
     timers := timers w; fetched := fetched w; tasks := tasks w;
     settled := settled w; notices := notices w; next_id := v |}.

(** A manager just constructed, at time [now]. *)
Definition initial (now : Z) : World :=
  {| accessToken := None; refreshPromise := None; refreshTimeoutId := None;
     clock := now; timers := []; fetched := []; tasks := []; settled := [];
     notices := []; next_id := 1%positive |}.

(** *** The state monad of the methods *)

Definition M (A : Type) : Type := World -> A * World.

Definition ret {A} (a : A) : M A := fun w => (a, w).

Definition bind {A B} (m : M A) (k : A -> M B) : M B :=
  fun w => let (a, w') := m w in k a w'.

Definition gets {A} (f : World -> A) : M A := fun w => (f w, w).

Definition modify (f : World -> World) : M unit := fun w => (tt, f w).

Definition exec {A} (m : M A) (w : World) : World := snd (m w).

Notation "'let*' x := m 'in' k" := (bind m (fun x => k))
  (at level 10, x name, m at level 100, k at level 200, only parsing).
Notation "m >> k" := (bind m (fun _ => k))
  (at level 100, k at level 200, right associativity, only parsing).

Fixpoint for_each {A} (f : A -> M unit) (l : list A) : M unit :=
  match l with
  | [] => ret tt
  | a :: rest => f a >> for_each f rest
  end.

(** *** The host's primitives *)

Definition fresh : M Id :=
  fun w => (next_id w, set_next_id (Pos.succ (next_id w)) w).

Definition Date_now : M Z := gets clock.

(** [setTimeout(callback, delay)]: the callback is always the scheduled
    refresh, so an armed timer is its handle and the delay it was armed
    with.  When it fires is the host's business. *)
Definition setTimeout (delay : number) : M Id :=
  let* t := fresh in
  let ms := match delay with Num d => d | NaN => 0 end in
  modify (fun w => set_timers (timers w ++ [(t, ms)]) w) >>
  ret t.

Definition clearTimeout (t : Id) : M unit :=
  modify (fun w =>
    set_timers (List.filter (fun x => negb (Pos.eqb x.1 t)) (timers w)) w).

(** The host takes a one-shot timer that fires off its list. *)
Definition expire (t : Id) : M unit :=
  modify (fun w =>
    set_timers (List.filter (fun x => negb (Pos.eqb x.1 t)) (timers w)) w).

Definition fetch (url : string) (init : RequestInit) : M Id :=
  let* f := fresh in
  modify (fun w => set_fetched (fetched w ++
    [{| call_id := f; call_url := url; call_init := init |}]) w) >>
  ret f.

Definition notify (n : Notice) : M unit :=
  modify (fun w => set_notices (notices w ++ [n]) w).

Definition suspend (t : Task) : M unit :=
  modify (fun w => set_tasks (tasks w ++ [t]) w).

Definition settle (p : Id) (o : Outcome) : M unit :=
  modify (fun w => set_settled ((p, o) :: settled w) w).

(** The outcome of promise [p], if it has settled. *)
Definition outcome (p : Id) (w : World) : option Outcome :=
  snd <$> List.find (fun x => Pos.eqb x.1 p) (settled w).

(** Take the suspended tasks that [sel] selects out of the task list. *)
Definition take (sel : Task -> bool) : M (list Task) :=
  fun w => (List.filter sel (tasks w),
            set_tasks (List.filter (fun t => negb (sel t)) (tasks w)) w).

(** ** The token manager ([JWTManager]) *)

Section Manager.
Context `{JSRuntime} (config : JWTManagerConfig).

Definition clearRefreshTimeout : M unit :=
  let* id := gets refreshTimeoutId in
  match id with
  | Some t => clearTimeout t >> modify (set_refreshTimeoutId None)
  | None => ret tt
  end.

Definition clearAccessToken : M unit :=
  clearRefreshTimeout >>
  modify (set_accessToken None).

Definition destroy : M unit :=
  clearRefreshTimeout >>
  modify (set_accessToken None) >>
  modify (set_refreshPromise None).

Definition getCurrentAccessToken : M (option JWTToken) := gets accessToken.

Definition hasValidAccessToken : M bool :=
  let* tok := gets accessToken in
  match tok with
  | None => ret false
  | Some t => let* now := Date_now in ret (negb (isTokenExpired now t 0))
  end.

(** The refresh call of [performTokenRefresh]. *)
Definition refresh_init : RequestInit :=
  let rc := refreshConfig config in
  {| init_method := method_name (default POST (refresh_method rc));
     init_headers := default ∅ (refresh_headers rc)
                     ∪ {[ "Content-Type" := "application/json" ]};
     init_body := None;
     init_credentials := "include";
     init_extra := ∅ |}.

(** [refreshAccessToken] up to the first [await]: either the pending
    promise, or a new promise whose task has called [fetch]. *)
Definition refreshAccessToken : M Id :=
  let* pending := gets refreshPromise in
  match pending with
  | Some p => ret p
  | None =>
      let* p := fresh in
      let* f := fetch (refresh_url (refreshConfig config)) refresh_init in
      suspend (AwaitRefreshFetch p f) >>
      modify (set_refreshPromise (Some p)) >>
      ret p
  end.

(** The callback handed to [setTimeout]:
    [this.refreshAccessToken().catch(error => console.warn(..., error))]. *)
Definition timer_callback : M unit :=
  let* p := refreshAccessToken in
  let* c := fresh in
  suspend (AwaitScheduled c p).

Definition scheduleTokenRefresh : M unit :=
  clearRefreshTimeout >>
  let* tok := gets accessToken in
  match tok with
  | None => ret tt
  | Some t =>
      let* now := Date_now in
      let timeUntilRefresh :=
        nsub (nsub (expiresAt t) (Num now)) (Num (refreshBuffer config)) in
      if ngt timeUntilRefresh (Num 0) then
        let* id := setTimeout timeUntilRefresh in
        modify (set_refreshTimeoutId (Some id))
      else ret tt
  end.

(** [inl e]: the call throws [e]. *)
Definition setAccessToken (tok : string + JWTToken) : M (error + unit) :=
  match tok with
  | inl s =>
      if negb (isValidJWTFormat (VStr s))
      then ret (inl (Error "Invalid JWT token format"))
      else match createJWTToken s with
           | inl e => ret (inl e)
           | inr t =>
               modify (set_accessToken (Some t)) >>
               scheduleTokenRefresh >>
               ret (inr tt)
           end
  | inr t =>
      modify (set_accessToken (Some t)) >>
      scheduleTokenRefresh >>
      ret (inr tt)
  end.

(** [getAccessToken] up to its [await]: the token string at once, or the
    refresh promise it awaits with the message of its failure. *)
Definition getAccessToken_begin : M (string + Id * string) :=
  let* tok := gets accessToken in
  match tok with
  | None =>
      let* p := refreshAccessToken in
      ret (inr (p, "No access token available and refresh failed"))
  | Some t =>
      let* now := Date_now in
      if isTokenExpired now t (refreshBuffer config) then
        let* p := refreshAccessToken in
        ret (inr (p, "Access token expired and refresh failed"))
      else ret (inl (token t))
  end.

Definition getAccessToken : M Id :=
  let* g := fresh in
  let* r := getAccessToken_begin in
  match r with
  | inl s => settle g (Resolved (RString s))
  | inr (p, failure) => suspend (AwaitGetToken g p failure)
  end >>
  ret g.

(** *** [request] *)

Definition bearer (accessToken : string) : string := "Bearer " +:+ accessToken.

(** [{ 'Authorization': `Bearer ${accessToken}`, ...config.headers }] *)
Definition request_headers (rq : RequestConfig) (accessToken : string)
  : gmap string string :=
  default ∅ (headers rq) ∪ {[ "Authorization" := bearer accessToken ]}.

(** [{ ...headers, 'Authorization': `Bearer ${newAccessToken.token}` }] *)
Definition retry_headers (hdrs : gmap string string) (newAccessToken : JWTToken)
  : gmap string string :=
  <[ "Authorization" := bearer (token newAccessToken) ]> hdrs.

Definition request_init (rq : RequestConfig) (hdrs : gmap string string)
  : RequestInit :=
  spread_options
    {| init_method := match method rq with
                      | Some m => if String.eqb m "" then "GET" else m
                      | None => "GET"
                      end;
       init_headers := hdrs;
       init_body := if truthy (body rq) then Some (JSON_stringify (body rq))
                    else None;
       init_credentials := "include";
       init_extra := ∅ |}
    (options rq).

(** [request] from the end of [await this.getAccessToken()] to the first
    [await this.config.fetch(...)]. *)
Definition request_send (q : Id) (rq : RequestConfig) (accessToken : string)
  : M unit :=
  let hdrs := request_headers rq accessToken in
  let* f := fetch (url rq) (request_init rq hdrs) in
  suspend (AwaitRequestFetch q f rq hdrs).

Definition request (rq : RequestConfig) : M Id :=
  let* q := fresh in
  let* r := getAccessToken_begin in
  match r with
  | inl accessToken => request_send q rq accessToken
  | inr (p, failure) => suspend (AwaitRequestToken q p failure rq)
  end >>
  ret q.

(** The inner [catch (refreshError)] of [request]. *)
Definition authentication_required (q : Id) : M unit :=
  clearAccessToken >>
  notify onAuthFailure >>
  settle q (Rejected (NoValidTokenError "Authentication required")).

(** The outer [catch (error)] of [request]. *)
Definition request_failed (q : Id) (e : error) : M unit :=
  settle q (Rejected
    match e with
    | NoValidTokenError _ => e
    | _ => Error ("Request failed: " +:+ error_to_string e)
    end).

(** [response.headers.get('content-type')?.includes('application/json')
      ? await response.json() : await response.text()] *)
Definition read_body (r : Response) : error + value :=
  if match response_headers r !! "content-type" with
     | Some ct => includes "application/json" ct
     | None => false
     end
  then json r
  else match text r with inl e => inl e | inr s => inr (VStr s) end.

Definition authenticated (r : Response) (d : value) : AuthenticatedResponse :=
  {| data := d; auth_status := status r;
     auth_headers := response_headers r; auth_ok := ok r |}.

(** *** Resuming the tasks that await a refresh *)

Definition awaits_promise (p : Id) (t : Task) : bool :=
  match t with
  | AwaitGetToken _ p' _ | AwaitRequestToken _ p' _ _
  | AwaitRequestRefresh _ p' _ _ | AwaitScheduled _ p' => Pos.eqb p' p
  | _ => false
  end.

Definition resume (o : error + JWTToken) (t : Task) : M unit :=
  match t with
  | AwaitGetToken g _ failure =>
      match o with
      | inr newToken => settle g (Resolved (RString (token newToken)))
      | inl _ => settle g (Rejected (NoValidTokenError failure))
      end
  | AwaitRequestToken q _ failure rq =>
      match o with
      | inr newToken => request_send q rq (token newToken)
      | inl _ => settle q (Rejected (NoValidTokenError failure))
      end
  | AwaitRequestRefresh q _ rq hdrs =>
      match o with
      | inr newAccessToken =>
          let* f := fetch (url rq)
                      (request_init rq (retry_headers hdrs newAccessToken)) in
          suspend (AwaitRetryFetch q f)
      | inl _ => authentication_required q
      end
  | AwaitScheduled c _ =>
      match o with
      | inr newToken => settle c (Resolved (RToken newToken))
      | inl e => notify (console_warn e) >> settle c (Resolved RUndefined)
      end
  | _ => ret tt
  end.

(** The asynchronous function of [refreshAccessToken] after
    [await this.performTokenRefresh()]: [try], [catch] and [finally],
    then the promise [p] settles and the tasks that await it run. *)
Definition refreshAccessToken_resume (p : Id) (performed : error + JWTToken)
  : M unit :=
  let on_error (e : error) : M (error + JWTToken) :=
    let refreshError :=
      match e with
      | TokenRefreshError _ _ => e
      | _ => TokenRefreshError "Token refresh failed" e
      end in
    notify (onTokenRefreshError refreshError) >>
    ret (inl refreshError) in
  let* o :=
    match performed with
    | inr newToken =>
        let* r := setAccessToken (inr newToken) in
        match r with
        | inl e => on_error e
        | inr _ => notify (onTokenRefresh newToken) >> ret (inr newToken)
        end
    | inl e => on_error e
    end in
  modify (set_refreshPromise None) >>
  settle p match o with
           | inr t => Resolved (RToken t)
           | inl e => Rejected e
           end >>
  let* waiters := take (awaits_promise p) in
  for_each (resume o) waiters.

Definition refresh_failed (p : Id) (cause : error) : M unit :=
  refreshAccessToken_resume p
    (inl (TokenRefreshError "Failed to refresh access token" cause)).

(** [performTokenRefresh] from the end of [await this.config.fetch(...)]. *)
Definition performTokenRefresh_fetched (p f : Id) (o : error + Response)
  : M unit :=
  match o with
  | inl e => refresh_failed p e
  | inr response =>
      if negb (ok response) then
        (if (status response =? 401) || (status response =? 403) then
           clearAccessToken >> notify onAuthFailure
         else ret tt) >>
        refresh_failed p
          (Error ("HTTP " +:+ pretty (status response) +:+ ": "
                  +:+ statusText response))
      else suspend (AwaitRefreshJson p f response)
  end.

(** [performTokenRefresh] from the end of [await response.json()]. *)
Definition performTokenRefresh_parsed (p : Id) (response : Response) : M unit :=
  match json response with
  | inl e => refresh_failed p e
  | inr d =>
      match extractAccessToken (refreshConfig config) d with
      | inl e => refresh_failed p e
      | inr newAccessToken =>
          match newAccessToken with
          | Some t =>
              if negb (isValidJWTFormat (VStr (token t))) then
                refresh_failed p
                  (Error "Invalid access token received from refresh endpoint")
              else refreshAccessToken_resume p (inr t)
          | None =>
              refresh_failed p
                (Error "Invalid access token received from refresh endpoint")
          end
      end
  end.

(** *** The network answers *)

Definition awaits_fetch (f : Id) (t : Task) : bool :=
  match t with
  | AwaitRefreshFetch _ f' | AwaitRequestFetch _ f' _ _
  | AwaitRetryFetch _ f' => Pos.eqb f' f
  | _ => false
  end.

Definition awaits_body (f : Id) (t : Task) : bool :=
  match t with
  | AwaitRefreshJson _ f' _ | AwaitRequestBody _ f' _
  | AwaitRetryBody _ f' _ => Pos.eqb f' f
  | _ => false
  end.

Definition fetched_resume (o : error + Response) (t : Task) : M unit :=
  match t with
  | AwaitRefreshFetch p f => performTokenRefresh_fetched p f o
  | AwaitRequestFetch q f rq hdrs =>
      match o with
      | inl e => request_failed q e
      | inr response =>
          if status response =? 401 then
            let* p := refreshAccessToken in
            suspend (AwaitRequestRefresh q p rq hdrs)
          else suspend (AwaitRequestBody q f response)
      end
  | AwaitRetryFetch q f =>
      match o with
      | inl _ => authentication_required q
      | inr retryResponse => suspend (AwaitRetryBody q f retryResponse)
      end
  | _ => ret tt
  end.

Definition body_resume (t : Task) : M unit :=
  match t with
  | AwaitRefreshJson p _ response => performTokenRefresh_parsed p response
  | AwaitRequestBody q _ response =>
      match read_body response with
      | inl e => request_failed q e
      | inr d => settle q (Resolved (RResponse (authenticated response d)))
      end
  | AwaitRetryBody q _ retryResponse =>
      match read_body retryResponse with
      | inl _ => authentication_required q
      | inr retryData =>
          settle q (Resolved (RResponse (authenticated retryResponse retryData)))
      end
  | _ => ret tt
  end.

(** *** What can happen to a manager *)

Inductive Event :=
| CallSetAccessToken (tok : string + JWTToken)
| CallGetAccessToken
| CallRefreshAccessToken
| CallRequest (rq : RequestConfig)
| CallClearAccessToken
| CallDestroy
(** the promise of fetch call [f] settles *)
| FetchSettles (f : Id) (o : error + Response)
(** the body of the response to fetch call [f] has been read *)
| BodySettles (f : Id)
(** timer [t], which is armed, fires *)
| TimerFires (t : Id)
(** time passes *)
| Tick (ms : N).

Definition is_armed (t : Id) (x : Id * Z) : bool := Pos.eqb x.1 t.

Definition step (e : Event) : M unit :=
  match e with
  | CallSetAccessToken tok => setAccessToken tok >> ret tt
  | CallGetAccessToken => getAccessToken >> ret tt
  | CallRefreshAccessToken => refreshAccessToken >> ret tt
  | CallRequest rq => request rq >> ret tt
  | CallClearAccessToken => clearAccessToken
  | CallDestroy => destroy
  | FetchSettles f o =>
      let* ts := take (awaits_fetch f) in
      for_each (fetched_resume o) ts
  | BodySettles f =>
      let* ts := take (awaits_body f) in
      for_each body_resume ts
  | TimerFires t =>
      let* armed := gets timers in
      if existsb (is_armed t) armed then expire t >> timer_callback
      else ret tt
  | Tick ms => modify (fun w => set_clock (clock w + Z.of_N ms) w)
  end.

Fixpoint run (evs : list Event) (w : World) : World :=
  match evs with
  | [] => w
  | e :: rest => run rest (exec (step e) w)
  end.

End Manager.

(** *** The constructor

    The configuration as a caller hands it to the constructor; [None] is a
    key that is absent.  The type asks for [url] and [extractAccessToken],
    and [validateConfig] tests them all the same.  The callbacks are the
    observers of the event loop, and [fetch] is the host's. *)

Record RefreshConfigArg := {
  arg_url : option string;
  arg_method : option RefreshMethod;
  arg_headers : option (gmap string string);
  arg_extractAccessToken : option (value -> error + option JWTToken)
}.

Record JWTManagerConfigArg := {
  arg_refreshConfig : RefreshConfigArg;
  arg_refreshBuffer : option Z
}.

(** [inl e]: it throws [e]; [inr rc]: it returns, and [rc] is the refresh
    configuration with [url] and [extractAccessToken] known to be there. *)
Definition validateConfig (rc : RefreshConfigArg) : error + RefreshConfig :=
  match arg_url rc with
  | Some u =>
      if negb (truthy (VStr u)) then inl (Error "Refresh URL is required")
      else match arg_extractAccessToken rc with
           | Some extract =>
               inr {| refresh_url := u; refresh_method := arg_method rc;
                      refresh_headers := arg_headers rc;
                      extractAccessToken := extract |}
           | None => inl (Error "extractAccessToken function is required")
           end
  | None => inl (Error "Refresh URL is required")
  end.

(** [this.config = { refreshBuffer: 6000, ..., ...config }] and then
    [this.validateConfig()]. *)
Definition constructor (config : JWTManagerConfigArg)
  : error + JWTManagerConfig :=
  let buffer := default 6000 (arg_refreshBuffer config) in
  match validateConfig (arg_refreshConfig config) with
  | inl e => inl e
  | inr rc => inr {| refreshConfig := rc; refreshBuffer := buffer |}
  end.

(** ** Vocabulary of the properties *)

(** A non-empty piece of text without a period. *)
Definition segment (s : string) : Prop := s <> "" /\ free_of "." s.

Definition task_ids (t : Task) : list Id :=
  match t with
  | AwaitRefreshFetch p f | AwaitRefreshJson p f _ | AwaitGetToken p f _
  | AwaitRequestToken p f _ _ | AwaitRequestFetch p f _ _
  | AwaitRequestBody p f _ | AwaitRequestRefresh p f _ _
  | AwaitRetryFetch p f | AwaitRetryBody p f _ | AwaitScheduled p f => [p; f]
  end.

Definition ids_below (n : Id) (t : Task) : bool :=
  forallb (fun i => Pos.ltb i n) (task_ids t).

(** Every identifier in use was handed out by [fresh]. *)
Definition well_formed (w : World) : bool :=
  forallb (ids_below (next_id w)) (tasks w)
  && forallb (fun x => Pos.ltb x.1 (next_id w)) (settled w)
  && match refreshPromise w with
     | Some p => Pos.ltb p (next_id w)
     | None => true
     end.

(** [well_formed], with a lower bound on the next identifier. *)
Definition well_formed_from (n : Id) (w : World) : Prop :=
  well_formed w = true /\ (n <= next_id w)%positive.

(** At most one timer is armed, and it is the one the manager holds. *)
Definition timers_ok (w : World) : Prop :=
  timers w = [] \/
  exists t delay, timers w = [(t, delay)] /\ refreshTimeoutId w = Some t.

(** The current token is absent or passes [isValidJWTFormat]. *)
Definition token_ok (w : World) : Prop :=
  match accessToken w with
  | Some t => isValidJWTFormat (VStr (token t)) = true
  | None => True
  end.

Definition is_auth_failure (n : Notice) : bool :=
  match n with onAuthFailure => true | _ => false end.

(** How often [onAuthFailure] has been invoked. *)
Definition auth_failures (w : World) : nat :=
  length (List.filter is_auth_failure (notices w)).

(** The weakest precondition of a method, for symbolic execution. *)
Definition wp {A} (m : M A) (Q : A -> World -> Prop) (w : World) : Prop :=
  Q (m w).1 (m w).2.

(** A method keeps an invariant. *)
Definition preserves (I : World -> Prop) {A} (m : M A) : Prop :=
  forall w, I w -> I (m w).2.

Section Vocabulary.
Context `{JSRuntime} (config : JWTManagerConfig).

(** The call of [fetch] that [performTokenRefresh] makes. *)
Definition refresh_call (f : Id) : FetchCall :=
  {| call_id := f; call_url := refresh_url (refreshConfig config);
     call_init := refresh_init config |}.

(** What [performTokenRefresh] ends with, as a function of what the
    network answers: [inl] is the error it throws. *)
Definition refresh_answer (o : error + Response) : error + JWTToken :=
  let failed e := inl (TokenRefreshError "Failed to refresh access token" e) in
  let invalid := Error "Invalid access token received from refresh endpoint" in
  match o with
  | inl e => failed e
  | inr response =>
      if negb (ok response) then
        failed (Error ("HTTP " +:+ pretty (status response) +:+ ": "
                       +:+ statusText response))
      else
        match json response with
        | inl e => failed e
        | inr d =>
            match extractAccessToken (refreshConfig config) d with
            | inl e => failed e
            | inr None => failed invalid
            | inr (Some t) =>
                if negb (isValidJWTFormat (VStr (token t))) then failed invalid
                else inr t
            end
        end
  end.

(** The refresh endpoint answers 401 or 403. *)
Definition unauthorized (o : error + Response) : bool :=
  match o with
  | inl _ => false
  | inr response =>
      negb (ok response)
      && ((status response =? 401) || (status response =? 403))
  end.

Definition promise_outcome (r : error + JWTToken) : Outcome :=
  match r with
  | inr t => Resolved (RToken t)
  | inl e => Rejected e
  end.

(** The timer that [scheduleTokenRefresh] arms in world [w], if any. *)
Definition scheduled (w : World) : list (Id * Z) :=
  match accessToken w with
  | None => []
  | Some t =>
      match expiresAt t with
      | NaN => []
      | Num e =>
          if 0 <? e - clock w - refreshBuffer config
          then [(next_id w, e - clock w - refreshBuffer config)]
          else []
      end
  end.

(** An event that hands the manager a token object hands it one whose string
    passes [isValidJWTFormat]. *)
Definition event_ok (e : Event) : Prop :=
  match e with
  | CallSetAccessToken (inr t) => isValidJWTFormat (VStr (token t)) = true
  | _ => True
  end.

(** The call of [fetch] that [request] makes again after a refresh. *)
Definition retry_call (f : Id) (rq : RequestConfig) (hdrs : gmap string string)
    (t : JWTToken) : FetchCall :=
  {| call_id := f; call_url := url rq;
     call_init := request_init rq (retry_headers hdrs t) |}.

End Vocabulary.

(** The delays of the timers armed. *)
Definition delays (tms : list (Id * Z)) : list Z := (fun x => x.2) <$> tms.

(** A timer is armed only for a manager that holds a token, and only with a
    delay that is positive. *)
Definition timer_for_token (w : World) : Prop :=
  timers_ok w
  /\ (timers w <> [] -> accessToken w <> None)
  /\ Forall (fun x : Id * Z => 0 < x.2) (timers w).

(** The promise of the refresh that a task belongs to, for a task that is
    [performTokenRefresh] at one of its awaits. *)
Definition refreshing (t : Task) : option Id :=
  match t with
  | AwaitRefreshFetch p _ | AwaitRefreshJson p _ _ => Some p
  | _ => None
  end.

(** The refreshes that wait for the network, oldest first. *)
Definition in_flight (ts : list Task) : list Id := omap refreshing ts.

(** The refreshes in flight are the one of the slot, if any; [X] are the
    refreshes whose tasks an event has taken and not yet run. *)
Definition one_refresh (X : list Id) (w : World) : Prop :=
  X ++ in_flight (tasks w) = option_list (refreshPromise w).

(** A pending slot has its refresh in flight. *)
Definition slot_in_flight (X : list Id) (w : World) : Prop :=
  forall p, refreshPromise w = Some p -> In p (X ++ in_flight (tasks w)).

(** The refreshes in flight are [X] and the slot holds [s]. *)
Definition refresh_state (X : list Id) (s : option Id) (w : World) : Prop :=
  in_flight (tasks w) = X /\ refreshPromise w = s.

(** An invariant that looks only at the refreshes in flight and at the
    slot. *)
Definition refresh_local (I : World -> Prop) : Prop :=
  forall w w', in_flight (tasks w) = in_flight (tasks w') ->
               refreshPromise w = refreshPromise w' -> I w -> I w'.

(** The promise that a task is to settle; for a task of a refresh, the
    promise of the refresh. *)
Definition own_id (t : Task) : Id :=
  match t with
  | AwaitRefreshFetch p _ | AwaitRefreshJson p _ _ | AwaitGetToken p _ _
  | AwaitRequestToken p _ _ _ | AwaitRequestFetch p _ _ _
  | AwaitRequestBody p _ _ | AwaitRequestRefresh p _ _ _
  | AwaitRetryFetch p _ | AwaitRetryBody p _ _ | AwaitScheduled p _ => p
  end.

(** A task that has to do with the refresh of promise [p] and call [f]: a
    refresh, a task that awaits call [f] or the body of its response, or
    the task that settles [p]. *)
Definition concerns (p f : Id) (t : Task) : bool :=
  match refreshing t with Some _ => true | None => false end
  || awaits_fetch f t || awaits_body f t || Pos.eqb (own_id t) p.

(** The refresh of promise [p] waits for its call [f], it is the one refresh
    under way, and [p] has not settled. *)
Definition outstanding (p f : Id) (w : World) : Prop :=
  refreshPromise w = Some p
  /\ outcome p w = None
  /\ List.filter (concerns p f) (tasks w) = [AwaitRefreshFetch p f]
  /\ (p < next_id w)%positive /\ (f < next_id w)%positive.

(** The refresh of promise [p] is over: [p] has settled with [X], the slot
    is empty and no refresh is under way. *)
Definition settled_with (p f : Id) (X : Outcome) (w : World) : Prop :=
  refreshPromise w = None
  /\ outcome p w = Some X
  /\ List.filter (concerns p f) (tasks w) = []
  /\ (p < next_id w)%positive /\ (f < next_id w)%positive.

(** ** A stand-in host and a configuration, for examples

    [atob] is the identity and [JSON.parse] knows four payloads. *)

Definition demo_runtime : JSRuntime :=
  {| atob s := inr s;
     JSON_parse s :=
       if String.eqb s "exp2000" then
         inr (VObj [("sub", VStr "user123"); ("exp", VNum (Num 2000))])
       else if String.eqb s "exp0" then
         inr (VObj [("exp", VNum (Num 0)); ("sub", VStr "user123")])
       else if String.eqb s "noexp" then inr (VObj [("sub", VStr "user")])
       else inl (Error "Unexpected token");
     JSON_stringify _ := "{}";
     ToNumber _ := NaN |}.

(** The body of a refresh response is the new token string; it expires at
    5000000 ms. *)
Definition demo_config : JWTManagerConfig :=
  {| refreshConfig :=
       {| refresh_url := "https://api.example.com/auth/refresh";
          refresh_method := None;
          refresh_headers := None;
          extractAccessToken d :=
            match d with
            | VStr s => inr (Some {| token := s; expiresAt := Num 5000000 |})
            | _ => inr None
            end |};
     refreshBuffer := 6000 |}.

Definition demo_request : RequestConfig :=
  {| url := "https://api.example.com/data"; method := None; headers := None;
     body := VUndefined; options := no_options |}.

Definition demo_response (code : Z) (content : string) : Response :=
  {| ok := (200 <=? code) && (code <=? 299); status := code; statusText := "";
     response_headers := {[ "content-type" := "application/json" ]};
     json := inr (VStr content); text := inr content |}.

Definition demo_run : list Event -> World -> World :=
  @run demo_runtime demo_config.

(** A manager that was given, at time 0, a token that expires at 2000000 ms:
    timer 1 is armed for 1994000 ms. *)
Definition signed_in : World :=
  demo_run [CallSetAccessToken (inl "h.exp2000.s")] (initial 0).

(** The same manager with a request under way: promise 2 awaits call 3. *)
Definition requesting : World :=
  demo_run [CallRequest demo_request] signed_in.

(** A manager whose timer 1 was armed for 4000 ms, 5000 ms ago. *)
Definition timer_armed : World :=
  demo_run [CallSetAccessToken (inr {| token := "a.b.c"; expiresAt := Num 10000 |});
            Tick 5000] (initial 0).

Definition offline : error + Response := inl (Error "Failed to fetch").

(** * Properties *)

(** ** The token codec *)

Section SplitFacts.
Variable sep : ascii.

Lemma split_not_nil s : split sep s <> [].
Proof.
  destruct s as [|c rest]; simpl; [discriminate|].
  destruct (Ascii.eqb c sep); [discriminate|].
  destruct (split sep rest); discriminate.
Qed.

Lemma split_free s : Forall (free_of sep) (split sep s).
Proof.
  induction s as [|c rest IH]; simpl.
  - repeat constructor.
  - destruct (Ascii.eqb_spec c sep) as [->|Hne].
    + constructor; [exact I | exact IH].
    + destruct (split sep rest) as [|seg segs].
      * repeat constructor. exact Hne.
      * inversion IH; subst. constructor; [split; assumption | assumption].
Qed.

Lemma join_split s : join sep (split sep s) = s.
Proof.
  induction s as [|c rest IH]; simpl; [reflexivity|].
  pose proof (split_not_nil rest) as Hn.
  destruct (Ascii.eqb_spec c sep) as [->|Hne];
    destruct (split sep rest) as [|seg segs]; try congruence.
  - simpl in *. now rewrite IH.
  - destruct segs as [|seg' segs]; simpl in *; now rewrite <- IH.
Qed.

Lemma split_free_segment a : free_of sep a -> split sep a = [a].
Proof.
  induction a as [|c a IH]; simpl; intros Hf; [reflexivity|].
  destruct Hf as [Hc Hf]. apply Ascii.eqb_neq in Hc. rewrite Hc.
  now rewrite (IH Hf).
Qed.

Lemma split_cons a rest :
  free_of sep a -> split sep (a +:+ String sep rest) = a :: split sep rest.
Proof.
  induction a as [|c a IH]; simpl; intros Hf.
  - now rewrite Ascii.eqb_refl.
  - destruct Hf as [Hc Hf]. apply Ascii.eqb_neq in Hc. rewrite Hc.
    now rewrite (IH Hf).
Qed.

Lemma split_join segs :
  segs <> [] -> Forall (free_of sep) segs -> split sep (join sep segs) = segs.
Proof.
  induction segs as [|a segs IH]; [congruence|]. intros _ Hf.
  inversion Hf as [|? ? Ha Hrest]; subst.
  destruct segs as [|b segs].
  - simpl. now apply split_free_segment.
  - change (join sep (a :: b :: segs))
      with (a +:+ String sep (join sep (b :: segs))).
    rewrite split_cons by assumption.
    f_equal. apply IH; [discriminate | assumption].
Qed.

End SplitFacts.

Lemma length_pos_nonempty (s : string) :
  (0 <? String.length s)%nat = true <-> s <> "".
Proof. destruct s; simpl; split; intros; (discriminate || reflexivity || congruence). Qed.

(** C8.  [isValidJWTFormat] is true exactly for a string made of three
    non-empty segments separated by periods; whatever it is given, it answers
    with a boolean: [false] for a string with another number of segments, for
    the empty string, for [null] and for [undefined]. *)
Theorem isValidJWTFormat_three_segments :
  (forall v : value,
     isValidJWTFormat v = true <->
     exists a b c, v = VStr (a +:+ "." +:+ b +:+ "." +:+ c)
                   /\ segment a /\ segment b /\ segment c)
  /\ (forall s, length (split "." s) <> 3%nat ->
                isValidJWTFormat (VStr s) = false)
  /\ isValidJWTFormat (VStr "") = false
  /\ isValidJWTFormat VNull = false
  /\ isValidJWTFormat VUndefined = false.
Proof.
  split; [|split; [|repeat split; reflexivity]].
  - intros v; split.
    + destruct v as [| | | |s| |]; simpl; try discriminate.
      destruct (negb (String.eqb s "")) eqn:Hs; simpl; [|discriminate].
      intros Hv. apply andb_true_iff in Hv as [Hlen Hall].
      pose proof (join_split "." s) as Hj.
      pose proof (split_free "." s) as Hf.
      destruct (split "." s) as [|a [|b [|c [|d rest]]]]; try discriminate.
      exists a, b, c. simpl in Hall, Hj.
      repeat (apply andb_true_iff in Hall as [?%length_pos_nonempty Hall]).
      inversion Hf as [|? ? Ha Hf1]. inversion Hf1 as [|? ? Hb Hf2].
      inversion Hf2 as [|? ? Hc _].
      split; [now rewrite <- Hj|]. repeat split; assumption.
    + intros (a & b & c & -> & [Ha Hfa] & [Hb Hfb] & [Hc Hfc]).
      unfold isValidJWTFormat.
      assert (Hs : split "." (a +:+ "." +:+ b +:+ "." +:+ c) = [a; b; c]).
      { apply (split_join "." [a; b; c]); [discriminate|].
        repeat constructor; assumption. }
      rewrite Hs.
      assert (Hne : truthy (VStr (a +:+ "." +:+ b +:+ "." +:+ c)) = true).
      { simpl. destruct a; [congruence|reflexivity]. }
      rewrite Hne. simpl.
      apply length_pos_nonempty in Ha, Hb, Hc. now rewrite Ha, Hb, Hc.
  - intros s Hlen. simpl.
    destruct (negb (String.eqb s "")); simpl; [|reflexivity].
    apply andb_false_iff. left. now apply Nat.eqb_neq.
Qed.

Section CodecFacts.
Context `{JSRuntime}.


(** C10.  When the payload decodes to a claims map whose expiration claim is
    present and equal to 0, [getTokenExpiration], and so [createJWTToken],
    throws 'Token does not contain expiration time': the claim is tested by
    truthiness. *)
Theorem zero_expiration_is_missing
    (tok : string) (props : list (string * value)) :
  decodeJWT tok = inr (VObj props) ->
  property "exp" props = VNum (Num 0) ->
  getTokenExpiration tok = inl (Error "Token does not contain expiration time")
  /\ createJWTToken tok = inl (Error "Token does not contain expiration time").
Proof.
  intros Hdec Hexp.
  unfold createJWTToken, getTokenExpiration. rewrite Hdec. simpl.
  now rewrite Hexp.
Qed.

End CodecFacts.


Lemma zero_expiration_is_missing_witness :
  @getTokenExpiration demo_runtime "h.exp0.s"
  = inl (Error "Token does not contain expiration time")
  /\ @createJWTToken demo_runtime "h.exp0.s"
     = inl (Error "Token does not contain expiration time").
Proof.
  apply (@zero_expiration_is_missing demo_runtime "h.exp0.s"
           [("exp", VNum (Num 0)); ("sub", VStr "user123")]); reflexivity.
Defined.

(** ** The token manager *)

Arguments set_accessToken v !w /.
Arguments set_refreshPromise v !w /.
Arguments set_refreshTimeoutId v !w /.
Arguments set_clock v !w /.
Arguments set_timers v !w /.
Arguments set_fetched v !w /.
Arguments set_tasks v !w /.
Arguments set_settled v !w /.
Arguments set_notices v !w /.
Arguments set_next_id v !w /.

(** ** Invariants of the methods *)

Section Preserves.
Variable I : World -> Prop.

Lemma preserves_ret {A} (a : A) : preserves I (ret a).
Proof. intros w Hw. exact Hw. Qed.

Lemma preserves_gets {A} (f : World -> A) : preserves I (gets f).
Proof. intros w Hw. exact Hw. Qed.

Lemma preserves_bind {A B} (m : M A) (k : A -> M B) :
  preserves I m -> (forall a, preserves I (k a)) -> preserves I (bind m k).
Proof.
  intros Hm Hk w Hw. unfold bind. specialize (Hm w Hw).
  destruct (m w) as [a w']. now apply Hk.
Qed.

Lemma preserves_for_each {A} (f : A -> M unit) (l : list A) :
  (forall a, preserves I (f a)) -> preserves I (for_each f l).
Proof.
  intros Hf. induction l as [|a l IH]; simpl.
  - apply preserves_ret.
  - apply preserves_bind; [apply Hf | intros _; exact IH].
Qed.

Lemma preserves_modify (f : World -> World) :
  (forall w, I w -> I (f w)) -> preserves I (modify f).
Proof. intros Hf w Hw. now apply Hf. Qed.

End Preserves.

Ltac head_of t := lazymatch t with ?f _ => head_of f | _ => t end.

Ltac is_method h :=
  lazymatch h with
  | @clearRefreshTimeout => idtac | @clearAccessToken => idtac
  | @destroy => idtac | @getCurrentAccessToken => idtac
  | @hasValidAccessToken => idtac | @refreshAccessToken => idtac
  | @timer_callback => idtac | @scheduleTokenRefresh => idtac
  | @setAccessToken => idtac | @getAccessToken_begin => idtac
  | @getAccessToken => idtac | @request_send => idtac | @request => idtac
  | @authentication_required => idtac | @request_failed => idtac
  | @resume => idtac | @refreshAccessToken_resume => idtac
  | @refresh_failed => idtac | @performTokenRefresh_fetched => idtac
  | @performTokenRefresh_parsed => idtac | @fetched_resume => idtac
  | @body_resume => idtac | @step => idtac
  | _ => fail "not a method"
  end.

Create HintDb pres discriminated.

(** Take a method apart along its binds, tests and matches; the primitives
    and the methods already dealt with are in the hint database. *)
Ltac pres_step :=
  lazymatch goal with
  | |- preserves _ (bind _ _) => apply preserves_bind; [|intros ?]
  | |- preserves _ (ret _) => apply preserves_ret
  | |- preserves _ (gets _) => apply preserves_gets
  | |- preserves _ (for_each _ _) => apply preserves_for_each; intros ?
  | |- preserves _ (match ?x with _ => _ end) => destruct x eqn:?
  | |- preserves _ (if ?x then _ else _) => destruct x eqn:?
  | |- preserves _ ?m =>
      first [ solve [auto with pres]
            | let h := head_of m in is_method h; unfold h ]
  end.

Ltac pres := repeat pres_step.

Lemma filter_timers_ok t tms tid :
  (tms = [] \/ exists t0 delay, tms = [(t0, delay)] /\ tid = Some t0) ->
  let tms' := List.filter (fun x : Id * Z => negb (Pos.eqb x.1 t)) tms in
  tms' = [] \/ exists t0 delay, tms' = [(t0, delay)] /\ tid = Some t0.
Proof.
  intros [->|(t0 & delay & -> & ->)]; simpl; [now left|].
  destruct (Pos.eqb t0 t); simpl; [now left|right; eauto].
Qed.

Section TimerInvariant.
Context `{JSRuntime} (config : JWTManagerConfig).

Ltac frame_timers :=
  apply preserves_modify; intros [] Hw; exact Hw.

Lemma timers_ok_fresh : preserves timers_ok fresh.
Proof. intros [] Hw; exact Hw. Qed.

Lemma timers_ok_fetch u i : preserves timers_ok (fetch u i).
Proof. intros [] Hw; exact Hw. Qed.

Lemma timers_ok_notify n : preserves timers_ok (notify n).
Proof. intros [] Hw; exact Hw. Qed.

Lemma timers_ok_suspend t : preserves timers_ok (suspend t).
Proof. intros [] Hw; exact Hw. Qed.

Lemma timers_ok_settle p o : preserves timers_ok (settle p o).
Proof. intros [] Hw; exact Hw. Qed.

Lemma timers_ok_take sel : preserves timers_ok (take sel).
Proof. intros [] Hw; exact Hw. Qed.

Lemma timers_ok_Date_now : preserves timers_ok Date_now.
Proof. intros [] Hw; exact Hw. Qed.

Lemma timers_ok_set_accessToken v : preserves timers_ok (modify (set_accessToken v)).
Proof. intros [] Hw; exact Hw. Qed.

Lemma timers_ok_set_refreshPromise v : preserves timers_ok (modify (set_refreshPromise v)).
Proof. intros [] Hw; exact Hw. Qed.

Lemma timers_ok_expire t : preserves timers_ok (expire t).
Proof. intros [] Hw. now apply filter_timers_ok. Qed.

Lemma timers_ok_tick ms : preserves timers_ok (modify (fun w => set_clock (clock w + Z.of_N ms) w)).
Proof. intros [] Hw; exact Hw. Qed.

Lemma clearRefreshTimeout_spec w :
  timers_ok w ->
  clearRefreshTimeout w = (tt, set_refreshTimeoutId None (set_timers [] w)).
Proof.
  destruct w as [tok rp tid clk tms fts tks stl nts nid].
  unfold timers_ok, clearRefreshTimeout, clearTimeout, bind, gets, modify. simpl.
  intros [->|(t & delay & -> & ->)]; simpl.
  - now destruct tid.
  - now rewrite Pos.eqb_refl.
Qed.

Lemma timers_ok_clearRefreshTimeout : preserves timers_ok clearRefreshTimeout.
Proof.
  intros w Hw. rewrite (clearRefreshTimeout_spec w Hw).
  destruct w; now left.
Qed.

Lemma scheduleTokenRefresh_spec w :
  timers_ok w ->
  let w' := exec (scheduleTokenRefresh config) w in
  timers w' = scheduled config w
  /\ refreshTimeoutId w' = (fun x => x.1) <$> head (scheduled config w)
  /\ accessToken w' = accessToken w /\ refreshPromise w' = refreshPromise w
  /\ clock w' = clock w /\ fetched w' = fetched w /\ tasks w' = tasks w
  /\ settled w' = settled w /\ notices w' = notices w
  /\ (next_id w <= next_id w')%positive.
Proof.
  intros Hw. unfold exec, scheduleTokenRefresh, bind.
  rewrite (clearRefreshTimeout_spec w Hw).
  destruct w as [tok rp tid clk tms fts tks stl nts nid].
  unfold scheduled, gets, Date_now, setTimeout, fresh, modify, bind, ret. simpl.
  destruct tok as [t|]; simpl; [|repeat split; reflexivity || lia].
  destruct (expiresAt t) as [e|]; simpl; [|repeat split; reflexivity || lia].
  replace (e - clk - refreshBuffer config >? 0) with (0 <? e - clk - refreshBuffer config)
    by (rewrite Z.gtb_ltb; reflexivity).
  destruct (0 <? e - clk - refreshBuffer config) eqn:Hd; simpl;
    [|repeat split; reflexivity || lia].
  repeat split; reflexivity || lia.
Qed.

Lemma timers_ok_scheduleTokenRefresh : preserves timers_ok (scheduleTokenRefresh config).
Proof.
  intros w Hw.
  destruct (scheduleTokenRefresh_spec w Hw) as (Ht & Hid & _).
  fold (exec (scheduleTokenRefresh config) w). unfold timers_ok.
  rewrite Ht, Hid. unfold scheduled.
  destruct (accessToken w) as [t|]; [|now left].
  destruct (expiresAt t) as [e|]; [|now left].
  destruct (0 <? _); [right; eauto | now left].
Qed.

#[local] Hint Resolve timers_ok_fresh timers_ok_fetch timers_ok_notify timers_ok_suspend
  timers_ok_settle timers_ok_take timers_ok_Date_now timers_ok_set_accessToken
  timers_ok_set_refreshPromise timers_ok_expire timers_ok_tick
  timers_ok_clearRefreshTimeout timers_ok_scheduleTokenRefresh : pres.

Lemma timers_ok_step e : preserves timers_ok (step config e).
Proof. destruct e; pres. Qed.

Lemma timers_ok_run evs w : timers_ok w -> timers_ok (run config evs w).
Proof.
  revert w. induction evs as [|e evs IH]; intros w Hw; [exact Hw|].
  simpl. apply IH. now apply timers_ok_step.
Qed.

Lemma timers_ok_reachable now evs : timers_ok (run config evs (initial now)).
Proof. apply timers_ok_run. now left. Qed.

End TimerInvariant.

Section TokenInvariant.
Context `{JSRuntime} (config : JWTManagerConfig).

Lemma token_ok_frame (f : World -> World) :
  (forall w, accessToken (f w) = accessToken w) -> preserves token_ok (modify f).
Proof. intros Hf w Hw. unfold token_ok, modify. simpl. now rewrite Hf. Qed.

Lemma token_ok_fresh : preserves token_ok fresh.
Proof. intros [] Hw; exact Hw. Qed.

Lemma token_ok_fetch u i : preserves token_ok (fetch u i).
Proof. intros [] Hw; exact Hw. Qed.

Lemma token_ok_notify n : preserves token_ok (notify n).
Proof. intros [] Hw; exact Hw. Qed.

Lemma token_ok_suspend t : preserves token_ok (suspend t).
Proof. intros [] Hw; exact Hw. Qed.

Lemma token_ok_settle p o : preserves token_ok (settle p o).
Proof. intros [] Hw; exact Hw. Qed.

Lemma token_ok_take sel : preserves token_ok (take sel).
Proof. intros [] Hw; exact Hw. Qed.

Lemma token_ok_Date_now : preserves token_ok Date_now.
Proof. intros [] Hw; exact Hw. Qed.

Lemma token_ok_expire t : preserves token_ok (expire t).
Proof. intros [] Hw; exact Hw. Qed.

Lemma token_ok_clearTimeout t : preserves token_ok (clearTimeout t).
Proof. intros [] Hw; exact Hw. Qed.

Lemma token_ok_setTimeout d : preserves token_ok (setTimeout d).
Proof. intros [] Hw; exact Hw. Qed.

Lemma token_ok_set_refreshPromise v : preserves token_ok (modify (set_refreshPromise v)).
Proof. intros [] Hw; exact Hw. Qed.

Lemma token_ok_set_refreshTimeoutId v : preserves token_ok (modify (set_refreshTimeoutId v)).
Proof. intros [] Hw; exact Hw. Qed.

Lemma token_ok_tick ms : preserves token_ok (modify (fun w => set_clock (clock w + Z.of_N ms) w)).
Proof. intros [] Hw; exact Hw. Qed.

Lemma token_ok_clear : preserves token_ok (modify (set_accessToken None)).
Proof. intros [] Hw; exact I. Qed.

Lemma token_ok_store t :
  isValidJWTFormat (VStr (token t)) = true ->
  preserves token_ok (modify (set_accessToken (Some t))).
Proof. intros Ht [] Hw; exact Ht. Qed.

Lemma createJWTToken_token s t : createJWTToken s = inr t -> token t = s.
Proof.
  unfold createJWTToken. destruct (getTokenExpiration s); [discriminate|].
  now intros [= <-].
Qed.

#[local] Hint Resolve token_ok_fresh token_ok_fetch token_ok_notify token_ok_suspend
  token_ok_settle token_ok_take token_ok_Date_now token_ok_expire
  token_ok_clearTimeout token_ok_setTimeout token_ok_set_refreshPromise
  token_ok_set_refreshTimeoutId token_ok_tick token_ok_clear : pres.

#[local] Hint Extern 1 (preserves token_ok (modify (set_accessToken (Some ?t)))) =>
  apply token_ok_store;
  repeat match goal with
  | E : negb _ = false |- _ => apply negb_false_iff in E
  | E : createJWTToken _ = inr _ |- _ => apply createJWTToken_token in E; rewrite E
  end; assumption : pres.

Lemma token_ok_step e : event_ok e -> preserves token_ok (step config e).
Proof.
  destruct e as [[s|t]| | | | | | | | |]; simpl; intros He; pres.
Qed.

Lemma token_ok_run evs w :
  token_ok w -> Forall event_ok evs -> token_ok (run config evs w).
Proof.
  revert w. induction evs as [|e evs IH]; intros w Hw Hevs; [exact Hw|].
  inversion Hevs as [|? ? He Hrest]; subst.
  simpl. apply IH; [|exact Hrest]. now apply token_ok_step.
Qed.

End TokenInvariant.

(** ** Symbolic execution of the methods *)

Lemma wp_ret {A} (a : A) Q w : Q a w -> wp (ret a) Q w.
Proof. exact id. Qed.

Lemma wp_bind {A B} (m : M A) (k : A -> M B) Q w :
  wp m (fun a w' => wp (k a) Q w') w -> wp (bind m k) Q w.
Proof. unfold wp, bind. now destruct (m w). Qed.

Lemma wp_gets {A} (f : World -> A) Q w : Q (f w) w -> wp (gets f) Q w.
Proof. exact id. Qed.

Lemma wp_modify (f : World -> World) Q w : Q tt (f w) -> wp (modify f) Q w.
Proof. exact id. Qed.

Lemma wp_fresh Q w :
  Q (next_id w) (set_next_id (Pos.succ (next_id w)) w) -> wp fresh Q w.
Proof. exact id. Qed.

Lemma wp_take sel Q w :
  Q (List.filter sel (tasks w))
    (set_tasks (List.filter (fun t => negb (sel t)) (tasks w)) w) ->
  wp (take sel) Q w.
Proof. exact id. Qed.

Lemma wp_exec {A} (m : M A) (P : World -> Prop) w :
  wp m (fun _ w' => P w') w -> P (exec m w).
Proof. exact id. Qed.

Lemma wp_unit (m : M unit) (Q : unit -> World -> Prop) w :
  Q tt (exec m w) -> wp m Q w.
Proof. unfold wp, exec. now destruct (m w) as [[] w']. Qed.

Lemma wp_run_cons `{JSRuntime} config e evs (P : World -> Prop) w :
  wp (step config e) (fun _ w' => P (run config evs w')) w ->
  P (run config (e :: evs) w).
Proof. exact id. Qed.

(** A loop over the tasks taken: each task satisfies [P] and keeps [I]. *)
Lemma wp_for_each_inv {A} (I : World -> Prop) (P : A -> Prop)
    (Q : unit -> World -> Prop) (f : A -> M unit) (l : list A) w :
  (forall a w, P a -> I w -> I (exec (f a) w)) ->
  Forall P l -> I w -> (forall w', I w' -> Q tt w') ->
  wp (for_each f l) Q w.
Proof.
  intros Hf Hl Hw HQ. revert w Hw.
  induction Hl as [|a l Ha Hl IH]; intros w Hw; simpl.
  - apply wp_ret. now apply HQ.
  - apply wp_bind. apply wp_unit. apply IH. now apply Hf.
Qed.

Ltac fields :=
  cbn [accessToken refreshPromise refreshTimeoutId clock timers fetched tasks
       settled notices next_id
       set_accessToken set_refreshPromise set_refreshTimeoutId set_clock
       set_timers set_fetched set_tasks set_settled set_notices set_next_id].

Ltac is_primitive h :=
  lazymatch h with
  | @Date_now => idtac | @setTimeout => idtac | @clearTimeout => idtac
  | @expire => idtac | @fetch => idtac | @notify => idtac
  | @suspend => idtac | @settle => idtac
  | _ => fail "not a primitive"
  end.

Ltac wp_unfold m :=
  let h := head_of m in
  first [is_method h | is_primitive h];
  lazymatch goal with
  | |- wp _ ?Q ?w =>
      let m' := eval cbv beta delta [h] in m in
      change (wp m' Q w)
  end.

(** What is already known of a method; a proof may set it. *)
Ltac wp_known := fail.

Ltac wp_step :=
  first
  [ wp_known
  | lazymatch goal with
    | |- wp (bind _ _) _ _ => apply wp_bind
    | |- wp (ret _) _ _ => apply wp_ret
    | |- wp (gets _) _ _ => apply wp_gets
    | |- wp (modify _) _ _ => apply wp_modify
    | |- wp fresh _ _ => apply wp_fresh
    | |- wp (take _) _ _ => apply wp_take
    | |- wp (for_each _ []) _ _ => apply wp_ret
    | |- wp (for_each _ (_ :: _)) _ _ => cbn [for_each]
    | |- wp (match _ with _ => _ end) _ _ => fail "stuck match"
    | |- wp (if _ then _ else _) _ _ => fail "stuck test"
    | |- wp ?m _ _ => wp_unfold m
    end; fields ].

Lemma filter_none {A} (sel : A -> bool) (l : list A) :
  (forall a, In a l -> sel a = false) ->
  List.filter sel l = [] /\ List.filter (fun a => negb (sel a)) l = l.
Proof.
  induction l as [|a l IH]; simpl; intros Hn; [easy|].
  rewrite (Hn a) by now left. simpl.
  destruct IH as [-> ->]; [intros; apply Hn; now right|easy].
Qed.

Lemma awaits_fetch_id f t : awaits_fetch f t = true -> In f (task_ids t).
Proof. destruct t; simpl; try discriminate; intros ->%Pos.eqb_eq; auto. Qed.

Lemma awaits_body_id f t : awaits_body f t = true -> In f (task_ids t).
Proof. destruct t; simpl; try discriminate; intros ->%Pos.eqb_eq; auto. Qed.

Lemma awaits_promise_id p t : awaits_promise p t = true -> In p (task_ids t).
Proof. destruct t; simpl; try discriminate; intros ->%Pos.eqb_eq; auto. Qed.

Lemma below_not_selected (sel : Id -> Task -> bool) n i ts :
  (forall j t, sel j t = true -> In j (task_ids t)) ->
  forallb (ids_below n) ts = true -> (n <= i)%positive ->
  List.filter (sel i) ts = [] /\ List.filter (fun t => negb (sel i t)) ts = ts.
Proof.
  intros Hsel Hb Hle. apply filter_none. intros t Ht.
  destruct (sel i t) eqn:Hs; [|reflexivity]. exfalso.
  apply Hsel in Hs. rewrite forallb_forall in Hb. specialize (Hb t Ht).
  unfold ids_below in Hb. rewrite forallb_forall in Hb. specialize (Hb i Hs).
  apply Pos.ltb_lt in Hb. lia.
Qed.

Lemma well_formed_parts w :
  well_formed w = true ->
  forallb (ids_below (next_id w)) (tasks w) = true
  /\ forallb (fun x => Pos.ltb x.1 (next_id w)) (settled w) = true.
Proof. now intros [[? ?]%andb_true_iff _]%andb_true_iff. Qed.

(** No task awaits an identifier that has not been handed out yet. *)
Lemma no_fetch_awaited n i ts :
  forallb (ids_below n) ts = true -> (n <= i)%positive ->
  List.filter (awaits_fetch i) ts = [].
Proof. intros. eapply below_not_selected; eauto using awaits_fetch_id. Qed.

Lemma all_but_fetch n i ts :
  forallb (ids_below n) ts = true -> (n <= i)%positive ->
  List.filter (fun t => negb (awaits_fetch i t)) ts = ts.
Proof. intros. eapply below_not_selected; eauto using awaits_fetch_id. Qed.

Lemma no_body_awaited n i ts :
  forallb (ids_below n) ts = true -> (n <= i)%positive ->
  List.filter (awaits_body i) ts = [].
Proof. intros. eapply below_not_selected; eauto using awaits_body_id. Qed.

Lemma all_but_body n i ts :
  forallb (ids_below n) ts = true -> (n <= i)%positive ->
  List.filter (fun t => negb (awaits_body i t)) ts = ts.
Proof. intros. eapply below_not_selected; eauto using awaits_body_id. Qed.

Lemma no_promise_awaited n i ts :
  forallb (ids_below n) ts = true -> (n <= i)%positive ->
  List.filter (awaits_promise i) ts = [].
Proof. intros. eapply below_not_selected; eauto using awaits_promise_id. Qed.

Lemma all_but_promise n i ts :
  forallb (ids_below n) ts = true -> (n <= i)%positive ->
  List.filter (fun t => negb (awaits_promise i t)) ts = ts.
Proof. intros. eapply below_not_selected; eauto using awaits_promise_id. Qed.

Lemma ids_below_filter n (sel : Task -> bool) ts :
  forallb (ids_below n) ts = true ->
  forallb (ids_below n) (List.filter sel ts) = true.
Proof.
  rewrite !forallb_forall. intros Hb t [Ht _]%filter_In. now apply Hb.
Qed.

Lemma ids_below_mono n n' ts :
  forallb (ids_below n) ts = true -> (n <= n')%positive ->
  forallb (ids_below n') ts = true.
Proof.
  rewrite !forallb_forall. intros Hb Hle t Ht. specialize (Hb t Ht).
  unfold ids_below in *. rewrite forallb_forall in *. intros i Hi.
  specialize (Hb i Hi). apply Pos.ltb_lt in Hb. apply Pos.ltb_lt. lia.
Qed.

Lemma settled_below_mono n n' (stl : list (Id * Outcome)) :
  forallb (fun x => Pos.ltb x.1 n) stl = true -> (n <= n')%positive ->
  forallb (fun x => Pos.ltb x.1 n') stl = true.
Proof.
  rewrite !forallb_forall. intros Hb Hle x Hx. specialize (Hb x Hx).
  apply Pos.ltb_lt in Hb. apply Pos.ltb_lt. lia.
Qed.

Lemma ids_below_Forall n ts :
  forallb (ids_below n) ts = true -> Forall (fun t => ids_below n t = true) ts.
Proof.
  rewrite forallb_forall, Forall_forall. intros Hb t Ht.
  apply Hb. now apply list_elem_of_In.
Qed.

Lemma find_settled_fresh p (stl : list (Id * Outcome)) n :
  forallb (fun x => Pos.ltb x.1 n) stl = true -> (n <= p)%positive ->
  List.find (fun x => Pos.eqb x.1 p) stl = None.
Proof.
  intros Hs Hle. induction stl as [|[i o] stl IH]; [reflexivity|].
  cbn in *. apply andb_true_iff in Hs as [Hx Hs]. apply Pos.ltb_lt in Hx.
  destruct (Pos.eqb_spec i p); [lia|]. now apply IH.
Qed.

(** Lists of tasks selected by [take]: use what is known of the filters. *)
Ltac wp_filter_known :=
  match goal with
  | E : List.filter _ _ = _ |- _ => rewrite E
  | Hb : forallb (ids_below ?n) ?ts = true
    |- context [List.filter (awaits_fetch ?i) ?ts] =>
      rewrite (no_fetch_awaited n i ts Hb) by lia
  | Hb : forallb (ids_below ?n) ?ts = true
    |- context [List.filter (fun t => negb (awaits_fetch ?i t)) ?ts] =>
      rewrite (all_but_fetch n i ts Hb) by lia
  | Hb : forallb (ids_below ?n) ?ts = true
    |- context [List.filter (awaits_body ?i) ?ts] =>
      rewrite (no_body_awaited n i ts Hb) by lia
  | Hb : forallb (ids_below ?n) ?ts = true
    |- context [List.filter (fun t => negb (awaits_body ?i t)) ?ts] =>
      rewrite (all_but_body n i ts Hb) by lia
  | Hb : forallb (ids_below ?n) ?ts = true
    |- context [List.filter (awaits_promise ?i) ?ts] =>
      rewrite (no_promise_awaited n i ts Hb) by lia
  | Hb : forallb (ids_below ?n) ?ts = true
    |- context [List.filter (fun t => negb (awaits_promise ?i t)) ?ts] =>
      rewrite (all_but_promise n i ts Hb) by lia
  end.

Ltac wp_filter :=
  progress
    (repeat rewrite List.filter_app;
     repeat wp_filter_known;
     cbn [List.filter awaits_fetch awaits_body awaits_promise app negb];
     rewrite ?Pos.eqb_refl;
     cbn [List.filter awaits_fetch awaits_body awaits_promise app negb];
     rewrite ?app_nil_r).

(** A test or a match on something not yet known: use what a hypothesis
    says of it, or take both cases. *)
Ltac wp_case :=
  lazymatch goal with
  | |- wp (match ?x with _ => _ end) _ _ =>
      first [ match goal with E : x = _ |- _ => rewrite E end
            | destruct x eqn:? ]
  | |- wp (if ?x then _ else _) _ _ =>
      first [ match goal with E : x = _ |- _ => rewrite E end
            | destruct x eqn:? ]
  end.

Ltac wp_all := repeat first [wp_step | wp_filter | wp_case].

(** Run the first event of the innermost [run] of the goal. *)
Ltac wp_event :=
  match goal with
  | |- context [run ?c (?e :: ?evs) ?w] =>
      lazymatch w with
      | context [run] => fail
      | _ => pattern (run c (e :: evs) w); apply (wp_run_cons c e evs)
      end
  | |- context [run ?c [] ?w] =>
      lazymatch w with
      | context [run] => fail
      | _ => change (run c [] w) with w
      end
  end.

(** Run the innermost event of a goal about [exec (step _ _) _]. *)
Ltac wp_inner :=
  match goal with
  | |- context [exec (step ?c ?e) ?w] =>
      lazymatch w with
      | context [exec] => fail
      | _ => pattern (exec (step c e) w); apply wp_exec
      end
  end.

(** Comparisons of identifiers that arithmetic decides. *)
Ltac pos_eqb :=
  rewrite ?Pos.eqb_refl;
  repeat match goal with
  | |- context [Pos.eqb ?a ?b] =>
      let E := fresh in
      assert (E : Pos.eqb a b = false) by (apply Pos.eqb_neq; lia);
      rewrite E; clear E
  end.

(** A case that contradicts what is known of [refresh_answer]. *)
Ltac use_answer H :=
  revert H; unfold refresh_answer;
  repeat match goal with
  | E : ?x = _ |- context [?x] => rewrite E
  end.

(** ** Identifiers are handed out once *)

Ltac wf_start :=
  unfold well_formed_from, well_formed; fields;
  intros;
  repeat match goal with
  | H : _ /\ _ |- _ => destruct H
  | H : _ && _ = true |- _ => apply andb_true_iff in H
  | H : ids_below _ _ = true |- _ =>
      unfold ids_below in H; cbn [task_ids forallb] in H
  | H : Pos.ltb _ _ = true |- _ => apply Pos.ltb_lt in H
  end.

Ltac wf_leaf :=
  unfold well_formed_from, well_formed; fields;
  repeat rewrite forallb_app;
  cbn [forallb ids_below task_ids fst snd];
  repeat first
  [ match goal with
    | H : Pos.ltb _ _ = true |- _ => apply Pos.ltb_lt in H
    | H : match ?x with Some _ => _ | None => _ end = true |- _ => destruct x
    end
  | match goal with
    | |- _ /\ _ => split
    | |- _ && _ = true => apply andb_true_iff
    | |- true = true => reflexivity
    | |- Pos.ltb _ _ = true => apply Pos.ltb_lt; lia
    | |- (_ <= _)%positive => lia
    | |- (_ < _)%positive => lia
    | |- forallb (ids_below _) (List.filter _ _) = true =>
        apply ids_below_filter
    | H : forallb (ids_below ?n) ?ts = true
      |- forallb (ids_below _) ?ts = true =>
        apply (ids_below_mono n); [exact H | lia]
    | H : forallb _ ?stl = true |- forallb _ ?stl = true =>
        apply (settled_below_mono _ _ _ H); lia
    end ].

(** The loop over the tasks taken from a well-formed world. *)
Ltac wf_loop :=
  lazymatch goal with
  | |- wp (for_each _ _) _ ?w =>
      apply (wp_for_each_inv
               (well_formed_from (next_id w))
               (fun t => ids_below (next_id w) t = true))
  end; fields.

Section WellFormed.
Context `{JSRuntime} (config : JWTManagerConfig).

Lemma well_formed_resume n o a w :
  ids_below n a = true -> well_formed_from n w ->
  well_formed_from n (exec (resume o a) w).
Proof.
  destruct w as [tok rp tid clk tms fts tks stl nts nid].
  destruct a, o; wf_start; apply wp_exec; wp_all; wf_leaf.
Qed.

Lemma well_formed_refreshAccessToken_resume n p performed w :
  (p < next_id w)%positive -> well_formed_from n w ->
  well_formed_from n (exec (refreshAccessToken_resume config p performed) w).
Proof.
  destruct w as [tok rp tid clk tms fts tks stl nts nid].
  wf_start. apply wp_exec. wp_all.
  all: wf_loop.
  all: try (intros a w'; apply well_formed_resume).
  all: try (apply ids_below_Forall).
  all: try (intros w' [Hw' Hn']; split; [exact Hw' | fields; lia]).
  all: wf_leaf.
Qed.

Ltac wp_known ::=
  lazymatch goal with
  | |- wp (refreshAccessToken_resume _ _ _) _ _ =>
      apply wp_unit; apply well_formed_refreshAccessToken_resume; fields
  end.

Lemma well_formed_fetched_resume n o a w :
  ids_below n a = true -> well_formed_from n w ->
  well_formed_from n (exec (fetched_resume config o a) w).
Proof.
  destruct w as [tok rp tid clk tms fts tks stl nts nid].
  destruct a; wf_start; apply wp_exec; wp_all; wf_leaf.
Qed.

Lemma well_formed_body_resume n a w :
  ids_below n a = true -> well_formed_from n w ->
  well_formed_from n (exec (body_resume config a) w).
Proof.
  destruct w as [tok rp tid clk tms fts tks stl nts nid].
  destruct a; wf_start; apply wp_exec; wp_all; wf_leaf.
Qed.

Lemma well_formed_step e w :
  well_formed w = true -> well_formed (exec (step config e) w) = true.
Proof.
  intros Hw.
  enough (well_formed_from (next_id w) (exec (step config e) w)) as [Hwf _]
    by exact Hwf.
  destruct w as [tok rp tid clk tms fts tks stl nts nid].
  revert Hw. destruct e; wf_start; apply wp_exec; wp_all.
  all: try wf_loop.
  all: try (intros a w';
            first [ apply well_formed_fetched_resume
                  | apply well_formed_body_resume ]).
  all: try (apply ids_below_Forall).
  all: try (intros w' [Hw' Hn']; split; [exact Hw' | fields; lia]).
  all: wf_leaf.
Qed.

Ltac wp_known ::= fail.

(** Every world that a manager reaches is well formed. *)
Lemma well_formed_run evs w :
  well_formed w = true -> well_formed (run config evs w) = true.
Proof.
  revert w. induction evs as [|e evs IH]; intros w Hw; [exact Hw|].
  simpl. apply IH. now apply well_formed_step.
Qed.

Lemma well_formed_reachable now evs :
  well_formed (run config evs (initial now)) = true.
Proof. now apply well_formed_run. Qed.

End WellFormed.

(** ** Refreshing *)

Section Refresh.
Context `{JSRuntime} (config : JWTManagerConfig).

Lemma refresh_first w :
  refreshPromise w = None ->
  refreshAccessToken config w =
    (next_id w,
     set_refreshPromise (Some (next_id w))
       (set_tasks
          (tasks w ++ [AwaitRefreshFetch (next_id w) (Pos.succ (next_id w))])
          (set_fetched
             (fetched w ++ [refresh_call config (Pos.succ (next_id w))])
             (set_next_id (Pos.succ (Pos.succ (next_id w))) w)))).
Proof.
  intros Hp. unfold refreshAccessToken, bind, gets. rewrite Hp. reflexivity.
Qed.

Lemma refresh_pending w p :
  refreshPromise w = Some p -> refreshAccessToken config w = (p, w).
Proof. intros Hp. unfold refreshAccessToken, bind, gets. now rewrite Hp. Qed.

Lemma refresh_answer_inr o t :
  refresh_answer config o = inr t ->
  exists r d, o = inr r /\ negb (ok r) = false /\ json r = inr d
              /\ extractAccessToken (refreshConfig config) d = inr (Some t)
              /\ negb (isValidJWTFormat (VStr (token t))) = false.
Proof.
  unfold refresh_answer. destruct o as [e|r]; [discriminate|].
  destruct (negb (ok r)) eqn:Hok; [discriminate|].
  destruct (json r) as [e|d] eqn:Hj; [discriminate|].
  destruct (extractAccessToken _ d) as [e|[t'|]] eqn:Hx; try discriminate.
  destruct (negb (isValidJWTFormat _)) eqn:Hv; [discriminate|].
  intros [= <-]. eauto 10.
Qed.

End Refresh.

(** ** Requests *)

Section Requests.
Context `{JSRuntime} (config : JWTManagerConfig).

(** How [request] builds what it sends.  It sends with the token that
    [getAccessToken] yields: the current token when it is not expired under
    the buffer, the refreshed one otherwise.  The headers of the call of
    [fetch] are those of [options] when [options] has headers, and otherwise
    the caller's headers as they are, a caller-supplied 'Authorization'
    header included, with the bearer header of the manager only when the
    caller supplies no 'Authorization' header. *)
Lemma request_headers_precedence
    (w : World) (q : Id) (rq : RequestConfig) (bearerToken : string) :
  (forall t,
     accessToken w = Some t ->
     isTokenExpired (clock w) t (refreshBuffer config) = false ->
     exec (request config rq) w
     = exec (request_send (next_id w) rq (token t))
         (set_next_id (Pos.succ (next_id w)) w))
  /\ (forall p failure newToken,
        resume (inr newToken) (AwaitRequestToken q p failure rq)
        = request_send q rq (token newToken))
  /\ (exists call,
        fetched (exec (request_send q rq bearerToken) w) = fetched w ++ [call]
        /\ call_url call = url rq
        /\ init_headers (call_init call)
           = default (request_headers rq bearerToken)
               (opt_headers (options rq)))
  /\ request_headers rq bearerToken !! "Authorization"
     = Some (default (bearer bearerToken)
               (headers rq ≫= fun caller => caller !! "Authorization"))
  /\ forall k v, (headers rq ≫= fun caller => caller !! k) = Some v ->
                 request_headers rq bearerToken !! k = Some v.
Proof.
  destruct w as [tok rp tid clk tms fts tks stl nts nid].
  split; [|split; [reflexivity|split]].
  - intros t Ht Hexp. cbn [accessToken clock] in Ht, Hexp.
    subst tok. fields.
    apply wp_exec. wp_all. symmetry.
    apply (wp_exec _ (fun w' => w' = _)). wp_all. reflexivity.
  - apply wp_exec. wp_all. eexists. split; [reflexivity|].
    split; reflexivity.
  - unfold request_headers.
    destruct (headers rq) as [caller|];
      cbn [default from_option id mbind option_bind].
    + split.
      * rewrite lookup_union, lookup_singleton_eq.
        now destruct (caller !! "Authorization").
      * intros k v Hk. rewrite lookup_union, Hk.
        now destruct ({[ "Authorization" := bearer bearerToken ]} !! k).
    + split.
      * rewrite lookup_union, lookup_empty, lookup_singleton_eq. reflexivity.
      * discriminate.
Qed.

(** C3, amended.  A request whose first response has status 401 starts a
    refresh (none being pending).  When that refresh fails, the request ends
    with the current token absent and the call rejected with
    [NoValidTokenError]; [onAuthFailure] has been invoked once by the request,
    and once more, before it, by the refresh itself when the refresh endpoint
    answered 401 or 403. *)
Theorem request_refresh_failure
    (w : World) (q f : Id) (rq : RequestConfig) (hdrs : gmap string string)
    (r : Response) (o : error + Response) :
  well_formed w = true ->
  refreshPromise w = None ->
  List.filter (awaits_fetch f) (tasks w) = [AwaitRequestFetch q f rq hdrs] ->
  status r = 401 ->
  (exists e, refresh_answer config o = inl e) ->
  let f' := Pos.succ (next_id w) in
  let w' := run config
              [FetchSettles f (inr r); FetchSettles f' o; BodySettles f'] w in
  accessToken w' = None
  /\ outcome q w'
     = Some (Rejected (NoValidTokenError "Authentication required"))
  /\ auth_failures w'
     = (auth_failures w + if unauthorized o then 2 else 1)%nat.
Proof.
  intros Hwf Hnone Hq Hr [e He] f' w'. subst f' w'.
  pose proof (well_formed_parts _ Hwf) as [Hts _].
  apply (ids_below_filter _ (fun t => negb (awaits_fetch f t))) in Hts.
  destruct w as [tok rp tid clk tms fts tks stl nts nid].
  cbn in Hnone, Hq, Hts. subst rp. clear Hwf.
  apply Z.eqb_eq in Hr.
  wp_event. wp_all. wp_event. wp_all.
  all: wp_event; wp_all; wp_event.
  all: try (exfalso; use_answer He; discriminate).
  all: split; [reflexivity|].
  all: split;
    [ unfold outcome; fields; cbn [List.find fst snd];
      rewrite Pos.eqb_refl; reflexivity |].
  all: unfold auth_failures, unauthorized; fields.
  all: repeat rewrite List.filter_app; repeat rewrite length_app.
  all: repeat match goal with E : _ = _ |- _ => rewrite E end.
  all: cbn; lia.
Qed.

(** C5, amended.  A request whose first response has status 401 starts a
    refresh (none being pending).  When that refresh succeeds with token [t],
    the request has made, after the original call, exactly one call to the
    refresh endpoint and one call of the original request again; unless
    [options] replaces the headers, that call carries [t] in its
    'Authorization' header.  When the response to it and the body of that
    response arrive, the request resolves with that response, whatever its
    status, 401 included, and has made no further call. *)
Theorem request_refresh_retry
    (w : World) (q f : Id) (rq : RequestConfig) (hdrs : gmap string string)
    (r : Response) (o : error + Response) (t : JWTToken) :
  well_formed w = true ->
  refreshPromise w = None ->
  List.filter (awaits_fetch f) (tasks w) = [AwaitRequestFetch q f rq hdrs] ->
  status r = 401 ->
  refresh_answer config o = inr t ->
  let f1 := Pos.succ (next_id w) in
  let w1 := run config
              [FetchSettles f (inr r); FetchSettles f1 o; BodySettles f1] w in
  exists f2,
    fetched w1 = fetched w ++ [refresh_call config f1; retry_call f2 rq hdrs t]
    /\ (opt_headers (options rq) = None ->
        init_headers (call_init (retry_call f2 rq hdrs t)) !! "Authorization"
        = Some (bearer (token t)))
    /\ forall (r2 : Response) (d2 : value),
         read_body r2 = inr d2 ->
         let w2 := run config [FetchSettles f2 (inr r2); BodySettles f2] w1 in
         outcome q w2 = Some (Resolved (RResponse (authenticated r2 d2)))
         /\ fetched w2 = fetched w1.
Proof.
  intros Hwf Hnone Hq Hr Ht f1 w1. subst f1 w1.
  apply refresh_answer_inr in Ht as (r1 & d & -> & Hok & Hj & Hx & Hv).
  pose proof (well_formed_parts _ Hwf) as [Hts _].
  apply (ids_below_filter _ (fun t => negb (awaits_fetch f t))) in Hts.
  destruct w as [tok rp tid clk tms fts tks stl nts nid].
  cbn in Hnone, Hq, Hts. subst rp. clear Hwf.
  apply Z.eqb_eq in Hr.
  wp_event. wp_all. wp_event. wp_all. wp_event. wp_all.
  all: wp_event; eexists.
  all: split; [fields; rewrite <- !app_assoc; reflexivity|].
  all: split;
    [ intros Hopt;
      unfold retry_call, request_init, spread_options, retry_headers;
      cbn [call_init init_headers]; rewrite Hopt; apply lookup_insert_eq |].
  all: intros r2 d2 Hbody; cbv zeta; wp_event; wp_all.
  all: wp_event; wp_all; wp_event.
  all: split; [|reflexivity].
  all: unfold outcome; fields; cbn [List.find fst snd].
  all: rewrite ?Pos.eqb_refl;
       repeat match goal with E : ?x = _ |- context [?x] => rewrite E end;
       reflexivity.
Qed.

End Requests.

(** ** The timer of the proactive refresh *)

Lemma armed_timer (e : number) (clk buf : Z) (id : Id) :
  (if ngt (nsub (nsub e (Num clk)) (Num buf)) (Num 0)
   then [(id, match nsub (nsub e (Num clk)) (Num buf) with
              | Num d => d
              | NaN => 0
              end)]
   else [])
  = match e with
    | Num e => if 0 <? e - clk - buf then [(id, e - clk - buf)] else []
    | NaN => []
    end.
Proof.
  destruct e as [e|]; simpl; [|reflexivity].
  rewrite Z.gtb_ltb. now destruct (0 <? e - clk - buf).
Qed.

Section Timers.
Context `{JSRuntime} (config : JWTManagerConfig).

Lemma scheduled_iff w :
  scheduled config w <> [] <->
  exists t e, accessToken w = Some t /\ expiresAt t = Num e
              /\ 0 < e - clock w - refreshBuffer config.
Proof.
  unfold scheduled. split.
  - destruct (accessToken w) as [t|]; [|congruence].
    destruct (expiresAt t) as [e|] eqn:He; [|congruence].
    destruct (0 <? _) eqn:Hd; [|congruence].
    intros _. exists t, e. repeat split; try assumption. now apply Z.ltb_lt.
  - intros (t & e & -> & -> & Hd). apply Z.ltb_lt in Hd. now rewrite Hd.
Qed.

(** C9.  In every world that a manager reaches from one with at most one
    timer, at most one timer is armed.  [scheduleTokenRefresh] leaves armed
    exactly the timer of [scheduled]: none of those armed before, and a new
    one if and only if a token is present and
    [expiresAt - now - refreshBuffer] is positive.  When an armed timer fires and
    the refresh it starts fails, the promise of the timer callback resolves,
    with [undefined], and the failure ends in [console.warn]. *)
Theorem at_most_one_timer (w : World) (evs : list Event) :
  timers_ok w ->
  (length (timers (run config evs w)) <= 1)%nat
  /\ timers (exec (scheduleTokenRefresh config) w) = scheduled config w
  /\ (scheduled config w <> [] <->
      exists tok exp, accessToken w = Some tok /\ expiresAt tok = Num exp
                      /\ 0 < exp - clock w - refreshBuffer config)
  /\ forall (t : Id) (o : error + Response) (e : error),
       well_formed w = true ->
       refreshPromise w = None ->
       existsb (is_armed t) (timers w) = true ->
       refresh_answer config o = inl e ->
       let p := next_id w in
       let f := Pos.succ p in
       let c := Pos.succ f in
       let w' := run config [TimerFires t; FetchSettles f o; BodySettles f] w in
       fetched w' = fetched w ++ [refresh_call config f]
       /\ outcome p w' = Some (Rejected e)
       /\ outcome c w' = Some (Resolved RUndefined)
       /\ last (notices w') = Some (console_warn e)
       /\ tasks w' = tasks w.
Proof.
  intros Hok.
  split; [|split; [|split; [apply scheduled_iff|]]].
  - pose proof (timers_ok_run config evs w Hok) as [->|(t0 & d & -> & _)];
      simpl; lia.
  - apply (scheduleTokenRefresh_spec config w Hok).
  - intros t o e Hwf Hnone Harmed He. cbv zeta.
    pose proof (well_formed_parts _ Hwf) as [Hts Hst].
    destruct w as [tok rp tid clk tms fts tks stl nts nid].
    cbn in Hnone, Hts, Hst, Harmed. subst rp. clear Hwf Hok.
    wp_event. wp_all. wp_event. wp_all.
    all: wp_event; wp_all; wp_event.
    all: try (exfalso; use_answer He; discriminate).
    all: use_answer He; intros [= <-].
    all: unfold outcome; fields; cbn [List.find fst snd].
    all: pos_eqb.
    all: rewrite last_snoc.
    all: repeat split; reflexivity.
Qed.

(** X26.  [destroy] leaves the manager with no token, no pending refresh
    and no timer armed, so that no timer armed before can fire.  It does not
    stop a refresh in flight: started before [destroy] and answered after it
    with token [t], the refresh stores [t] as the current token and arms the
    timer of [scheduled], and its promise resolves with [t]. *)
Theorem destroy_cancels_timer_only (w : World) :
  timers_ok w ->
  (let w1 := exec destroy w in
   accessToken w1 = None /\ refreshPromise w1 = None
   /\ refreshTimeoutId w1 = None /\ timers w1 = []
   /\ forall t, exec (step config (TimerFires t)) w1 = w1)
  /\ forall (o : error + Response) (t : JWTToken),
       well_formed w = true ->
       refreshPromise w = None ->
       refresh_answer config o = inr t ->
       let p := next_id w in
       let f := Pos.succ p in
       let w1 := run config [CallRefreshAccessToken; CallDestroy] w in
       let w2 := run config [FetchSettles f o; BodySettles f] w1 in
       fetched w1 = fetched w ++ [refresh_call config f]
       /\ accessToken w1 = None /\ timers w1 = []
       /\ accessToken w2 = Some t
       /\ timers w2 = scheduled config (set_accessToken (Some t) w1)
       /\ outcome p w2 = Some (Resolved (RToken t)).
Proof.
  intros Hok. split.
  - cbv zeta. unfold exec, destroy, bind.
    rewrite (clearRefreshTimeout_spec w Hok).
    destruct w as [tok rp tid clk tms fts tks stl nts nid].
    repeat split; reflexivity.
  - intros o t Hwf Hnone Ht. cbv zeta.
    apply refresh_answer_inr in Ht as (r1 & d & -> & Hjs & Hj & Hx & Hv).
    pose proof (well_formed_parts _ Hwf) as [Hts Hst].
    destruct w as [tok rp tid clk tms fts tks stl nts nid].
    cbn in Hnone, Hts, Hst. subst rp. clear Hwf.
    destruct Hok as [Htm | (t0 & delay & Htm & Htid)]; cbn in Htm; subst tms;
      [|cbn in Htid; subst tid].
    all: wp_event; wp_all; wp_event; wp_all; wp_event.
    all: wp_event; wp_all; wp_event; wp_all; wp_event.
    all: unfold outcome, scheduled; fields;
      cbn [List.find List.filter fst snd negb app].
    all: pos_eqb;
      cbn [List.filter fst snd negb app fmap option_fmap option_map].
    all: rewrite <- armed_timer with (clk := clk).
    all: repeat match goal with E : ngt _ _ = _ |- _ => rewrite E end.
    all: repeat split; reflexivity.
Qed.

End Timers.

(** ** The current token *)

Section CurrentToken.
Context `{JSRuntime} (config : JWTManagerConfig).

(** C6, amended.  From a world whose current token is absent or passes
    [isValidJWTFormat], events that hand the manager only token objects whose
    string passes [isValidJWTFormat] lead to worlds whose current token is
    absent or passes [isValidJWTFormat]: [setAccessToken] with a string and a
    completed refresh check the format themselves, [setAccessToken] with a
    token object stores it as it is. *)
Theorem current_token_format (now : Z) (w : World) (evs : list Event) :
  token_ok w ->
  Forall event_ok evs ->
  token_ok (initial now) /\ token_ok (run config evs w).
Proof.
  intros Hw Hevs. split; [exact I|]. now apply token_ok_run.
Qed.

End CurrentToken.

(** ** The codec, beyond the format check *)

Lemma free_of_replace_all (sep a b : ascii) (s : string) :
  b <> sep -> free_of sep s -> free_of sep (replace_all a b s).
Proof.
  intros Hb. induction s as [|c s IH]; simpl; [easy|].
  intros [Hc Hs]. split; [|now apply IH].
  now destruct (Ascii.eqb c a).
Qed.

(** Putting a payload into the alphabet of [atob] a second time changes
    nothing. *)
Lemma replace_all_base64 (p : string) :
  let standard s := replace_all "_" "/" (replace_all "-" "+" s) in
  standard (standard p) = standard p.
Proof.
  cbv zeta. induction p as [|c p IH]; simpl; [reflexivity|].
  rewrite IH. f_equal.
  destruct (Ascii.eqb_spec c "-") as [->|H1]; simpl; [reflexivity|].
  destruct (Ascii.eqb_spec c "_") as [->|H2]; simpl; [reflexivity|].
  apply Ascii.eqb_neq in H1, H2. now rewrite H1, H2.
Qed.

Lemma split_three (a b c : string) :
  free_of "." a -> free_of "." b -> free_of "." c ->
  split "." (a +:+ "." +:+ b +:+ "." +:+ c) = [a; b; c].
Proof.
  intros Ha Hb Hc. apply (split_join "." [a; b; c]); [discriminate|].
  repeat constructor; assumption.
Qed.

Section CodecBeyondFormat.
Context `{JSRuntime}.

(** X1.  [decodeJWT] reads the middle segment only: the header and the
    signature of a token have no part in what it returns or throws, so two
    tokens with the same payload decode alike. *)
Theorem decodeJWT_reads_payload_only (h p s h' s' : string) :
  free_of "." h -> free_of "." p -> free_of "." s ->
  free_of "." h' -> free_of "." s' ->
  decodeJWT (h +:+ "." +:+ p +:+ "." +:+ s)
  = decodeJWT (h' +:+ "." +:+ p +:+ "." +:+ s').
Proof.
  intros Hh Hp Hs Hh' Hs'. unfold decodeJWT.
  now rewrite !split_three by assumption.
Qed.

(** X2.  [decodeJWT] takes a payload in the URL-safe alphabet, '-' for '+'
    and '_' for '/', for the same payload in the alphabet of [atob]: the
    two tokens decode alike. *)
Theorem decodeJWT_url_safe_alphabet (h p s : string) :
  free_of "." h -> free_of "." p -> free_of "." s ->
  decodeJWT (h +:+ "." +:+ p +:+ "." +:+ s)
  = decodeJWT (h +:+ "."
               +:+ replace_all "_" "/" (replace_all "-" "+" p) +:+ "." +:+ s).
Proof.
  intros Hh Hp Hs. unfold decodeJWT.
  rewrite !split_three; try assumption.
  - cbn [nth length Nat.eqb negb]. now rewrite (replace_all_base64 p).
  - apply free_of_replace_all; [discriminate|].
    apply free_of_replace_all; [discriminate|assumption].
Qed.

(** X3.  What [decodeJWT] throws.  A token that does not split into exactly
    three parts at its periods is thrown out with 'Invalid JWT token format'
    (the parts may be empty: that is for [isValidJWTFormat] to test).
    Whatever goes wrong ends in an error with that message or in
    'Failed to decode JWT token'.  For a token of three parts, on a host
    where no error of [atob] or [JSON.parse] has the first message, every
    failure is 'Failed to decode JWT token'. *)
Theorem decodeJWT_errors (tok : string) :
  (length (split "." tok) <> 3%nat ->
   decodeJWT tok = inl (Error "Invalid JWT token format"))
  /\ (forall e, decodeJWT tok = inl e ->
        message e = "Invalid JWT token format"
        \/ e = Error "Failed to decode JWT token")
  /\ (length (split "." tok) = 3%nat ->
      (forall d e, atob d = inl e ->
                   message e <> "Invalid JWT token format") ->
      (forall d e, JSON_parse d = inl e ->
                   message e <> "Invalid JWT token format") ->
      forall e, decodeJWT tok = inl e ->
                e = Error "Failed to decode JWT token").
Proof.
  unfold decodeJWT. split; [|split].
  - intros Hn. apply Nat.eqb_neq in Hn. now rewrite Hn.
  - intros e.
    destruct (negb _).
    + simpl. intros [= <-]. now left.
    + destruct (atob _) as [e1|d].
      * destruct (String.eqb_spec (message e1) invalid_format) as [Hm|Hm];
          intros [= <-]; [now left | now right].
      * destruct (JSON_parse d) as [e1|v]; [|discriminate].
        destruct (String.eqb_spec (message e1) invalid_format) as [Hm|Hm];
          intros [= <-]; [now left | now right].
  - intros Hn Hatob Hparse e. apply Nat.eqb_eq in Hn. rewrite Hn. simpl.
    destruct (atob _) as [e1|d] eqn:Ha.
    + specialize (Hatob _ e1 Ha).
      apply String.eqb_neq in Hatob. unfold invalid_format. rewrite Hatob.
      now intros [= <-].
    + destruct (JSON_parse d) as [e1|v] eqn:Hp; [|discriminate].
      specialize (Hparse d e1 Hp).
      apply String.eqb_neq in Hparse. unfold invalid_format. rewrite Hparse.
      now intros [= <-].
Qed.

End CodecBeyondFormat.

(** X4.  A token is expired from the moment the clock reaches [expiresAt]
    less the buffer, and stays so; a longer buffer expires it earlier.  A
    token whose [expiresAt] is not a number is never expired. *)
Theorem isTokenExpired_monotone (now now' b b' : Z) (t : JWTToken) :
  (now <= now' -> b <= b' ->
   isTokenExpired now t b = true -> isTokenExpired now' t b' = true)
  /\ (forall e, expiresAt t = Num e ->
        (isTokenExpired now t b = true <-> e - b <= now))
  /\ (expiresAt t = NaN -> isTokenExpired now t b = false).
Proof.
  unfold isTokenExpired. destruct (expiresAt t) as [e|]; simpl.
  - split; [|split; [|discriminate]].
    + intros Hn Hb He. apply Z.geb_le in He. apply Z.geb_le. lia.
    + intros e0 [= <-]. rewrite Z.geb_le. lia.
  - split; [discriminate|]. split; [discriminate|reflexivity].
Qed.

(** ** The methods that return at once *)

Section Synchronous.
Context `{JSRuntime} (config : JWTManagerConfig).

Lemma setAccessToken_unfold (tok : string + JWTToken) (w : World) :
  setAccessToken config tok w
  = let store t :=
      (inr tt, exec (scheduleTokenRefresh config) (set_accessToken (Some t) w)) in
    match tok with
    | inl s =>
        if negb (isValidJWTFormat (VStr s))
        then (inl (Error "Invalid JWT token format"), w)
        else match createJWTToken s with
             | inl e => (inl e, w)
             | inr t => store t
             end
    | inr t => store t
    end.
Proof.
  assert (Hstore : forall t,
    (let* _ := modify (set_accessToken (Some t)) in
     let* _ := scheduleTokenRefresh config in ret (inr tt)) w
    = (@inr error unit tt,
       exec (scheduleTokenRefresh config) (set_accessToken (Some t) w))).
  { intros t. unfold bind, modify, exec, ret.
    now destruct (scheduleTokenRefresh config _) as [[] w1]. }
  destruct tok as [s|t]; unfold setAccessToken; cbv zeta.
  - destruct (negb _); [reflexivity|].
    destruct (createJWTToken s); [reflexivity|apply Hstore].
  - apply Hstore.
Qed.

(** X5.  [setAccessToken] throws before it assigns: a call that throws
    leaves the manager as it was, with the token and the timer it had.  Only
    a string makes it throw: one that fails the format check, with
    'Invalid JWT token format', or one that passes it and on which
    [createJWTToken] throws. *)
Theorem setAccessToken_throws_unchanged
    (tok : string + JWTToken) (e : error) (w : World) :
  (setAccessToken config tok w).1 = inl e ->
  (setAccessToken config tok w).2 = w
  /\ exists s, tok = inl s
       /\ (isValidJWTFormat (VStr s) = false
           /\ e = Error "Invalid JWT token format"
           \/ isValidJWTFormat (VStr s) = true /\ createJWTToken s = inl e).
Proof.
  rewrite setAccessToken_unfold. cbv zeta. destruct tok as [s|t].
  - destruct (isValidJWTFormat (VStr s)) eqn:Hv; cbn [negb].
    + destruct (createJWTToken s) as [e'|t] eqn:Hc; [|discriminate].
      intros [= <-]. split; [reflexivity|]. exists s. split; [reflexivity|].
      right. now split.
    + intros [= <-]. split; [reflexivity|]. exists s. split; [reflexivity|].
      left. now split.
  - discriminate.
Qed.

(** X6.  A call of [setAccessToken] that returns has stored a token, which
    [getCurrentAccessToken] then returns: the object it was given, or the
    token that [createJWTToken] makes of the string.  It has replaced the
    timer by the one of [scheduled], and it touches neither a refresh in
    flight nor anything that waits. *)
Theorem setAccessToken_stores (tok : string + JWTToken) (w : World) :
  timers_ok w ->
  (setAccessToken config tok w).1 = inr tt ->
  let w' := (setAccessToken config tok w).2 in
  exists t,
    getCurrentAccessToken w' = (Some t, w')
    /\ match tok with
       | inl s => createJWTToken s = inr t /\ token t = s
       | inr t0 => t = t0
       end
    /\ timers w' = scheduled config (set_accessToken (Some t) w)
    /\ refreshPromise w' = refreshPromise w
    /\ fetched w' = fetched w /\ tasks w' = tasks w
    /\ settled w' = settled w /\ notices w' = notices w.
Proof.
  intros Hok Hret w'.
  assert (Hset : forall t,
    let w1 := exec (scheduleTokenRefresh config) (set_accessToken (Some t) w) in
    getCurrentAccessToken w1 = (Some t, w1)
    /\ timers w1 = scheduled config (set_accessToken (Some t) w)
    /\ refreshPromise w1 = refreshPromise w
    /\ fetched w1 = fetched w /\ tasks w1 = tasks w
    /\ settled w1 = settled w /\ notices w1 = notices w).
  { intros t w1.
    assert (Hok1 : timers_ok (set_accessToken (Some t) w)) by (now destruct w).
    destruct (scheduleTokenRefresh_spec config _ Hok1)
      as (Ht & _ & Ha & Hp & _ & Hf & Hts & Hs & Hn & _).
    fold w1 in Ht, Ha, Hp, Hf, Hts, Hs, Hn.
    unfold getCurrentAccessToken, gets. rewrite Ha, Ht, Hp, Hf, Hts, Hs, Hn.
    destruct w; repeat split; reflexivity. }
  subst w'. revert Hret. rewrite setAccessToken_unfold. cbv zeta.
  destruct tok as [s|t].
  - destruct (negb (isValidJWTFormat (VStr s))); [discriminate|].
    destruct (createJWTToken s) as [e|t] eqn:Hc; [discriminate|]. intros _.
    exists t. cbn [snd]. destruct (Hset t) as (? & ? & ? & ? & ? & ? & ?).
    repeat split; try assumption. now apply createJWTToken_token.
  - intros _. exists t. cbn [snd].
    destruct (Hset t) as (? & ? & ? & ? & ? & ? & ?).
    repeat split; assumption.
Qed.

(** X7.  [clearAccessToken] leaves no token and no timer, so that
    [hasValidAccessToken] answers [false] and no timer armed before can
    fire; it leaves a refresh in flight and what waits for it alone.  Called
    again it changes nothing, and [destroy] is [clearAccessToken] with the
    slot of the pending refresh emptied too. *)
Theorem clearAccessToken_clears (w : World) :
  timers_ok w ->
  let w' := exec clearAccessToken w in
  accessToken w' = None /\ refreshTimeoutId w' = None /\ timers w' = []
  /\ hasValidAccessToken w' = (false, w')
  /\ (forall t, exec (step config (TimerFires t)) w' = w')
  /\ refreshPromise w' = refreshPromise w /\ tasks w' = tasks w
  /\ fetched w' = fetched w /\ notices w' = notices w
  /\ exec clearAccessToken w' = w'
  /\ exec destroy w = set_refreshPromise None w'.
Proof.
  intros Hok. cbv zeta. unfold exec, destroy, clearAccessToken, bind.
  rewrite (clearRefreshTimeout_spec w Hok).
  destruct w as [tok rp tid clk tms fts tks stl nts nid].
  repeat split; reflexivity.
Qed.

(** X8.  [hasValidAccessToken] changes nothing and holds exactly of a token
    that is not expired with buffer 0.  With a buffer that is not negative
    [getAccessToken] is the stricter of the two: whenever it answers with
    the current token, [hasValidAccessToken] holds; in the last
    [refreshBuffer] milliseconds of a token [hasValidAccessToken] holds and
    [getAccessToken] awaits a refresh. *)
Theorem hasValidAccessToken_getAccessToken (w : World) :
  (hasValidAccessToken w).2 = w
  /\ ((hasValidAccessToken w).1 = true <->
      exists t, accessToken w = Some t /\ isTokenExpired (clock w) t 0 = false)
  /\ (0 <= refreshBuffer config ->
      forall s, (getAccessToken_begin config w).1 = inl s ->
                (hasValidAccessToken w).1 = true)
  /\ (forall t e, accessToken w = Some t -> expiresAt t = Num e ->
        e - refreshBuffer config <= clock w < e ->
        (hasValidAccessToken w).1 = true
        /\ exists p m, (getAccessToken_begin config w).1 = inr (p, m)).
Proof.
  destruct w as [tok rp tid clk tms fts tks stl nts nid].
  unfold hasValidAccessToken, getAccessToken_begin, Date_now, bind, gets, ret.
  cbn [accessToken clock fst snd].
  split; [now destruct tok|]. split; [|split].
  - destruct tok as [t|]; cbn [fst].
    + rewrite negb_true_iff. split; [eauto|]. now intros (t' & [= <-] & Ht).
    + split; [discriminate|]. now intros (t' & [=] & _).
  - intros Hb s. destruct tok as [t|].
    + unfold isTokenExpired. destruct (expiresAt t) as [e|]; simpl.
      * destruct (clk >=? e - refreshBuffer config) eqn:Hx.
        -- destruct (refreshAccessToken _ _) as [p w1]. discriminate.
        -- intros _. apply negb_true_iff. rewrite Z.geb_leb in Hx.
           apply Z.leb_gt in Hx. rewrite Z.geb_leb. apply Z.leb_gt. lia.
      * reflexivity.
    + destruct (refreshAccessToken _ _) as [p w1]. discriminate.
  - intros t e [= ->] He [Hlo Hhi]. unfold isTokenExpired. rewrite He. simpl.
    assert (H1 : (clk >=? e - 0) = false)
      by (rewrite Z.geb_leb; apply Z.leb_gt; lia).
    assert (H2 : (clk >=? e - refreshBuffer config) = true)
      by (apply Z.geb_le; lia).
    rewrite H1, H2. split; [reflexivity|].
    destruct (refreshAccessToken _ _) as [p w1]. eauto.
Qed.

(** X9.  [getAccessToken] with a current token that is not expired under
    the buffer resolves at once with the string of that token; it calls
    nothing and changes nothing of the manager. *)
Theorem getAccessToken_current (w : World) (t : JWTToken) :
  accessToken w = Some t ->
  isTokenExpired (clock w) t (refreshBuffer config) = false ->
  let g := (getAccessToken config w).1 in
  let w' := exec (getAccessToken config) w in
  outcome g w' = Some (Resolved (RString (token t)))
  /\ fetched w' = fetched w /\ notices w' = notices w
  /\ accessToken w' = accessToken w /\ refreshPromise w' = refreshPromise w
  /\ timers w' = timers w /\ tasks w' = tasks w.
Proof.
  destruct w as [tok rp tid clk tms fts tks stl nts nid].
  cbn [accessToken clock]. intros -> Hexp. cbv zeta.
  unfold exec, getAccessToken, getAccessToken_begin, Date_now, fresh, settle,
    bind, gets, modify, ret, outcome.
  fields. rewrite Hexp. cbn. rewrite Pos.eqb_refl. repeat split; reflexivity.
Qed.

End Synchronous.

(** ** Tokens and requests over the network *)



(** A world taken apart, with what is known of its fields. *)
Ltac fields_in H :=
  cbn [accessToken refreshPromise refreshTimeoutId clock timers fetched tasks
       settled notices next_id] in H.

Section OverTheNetwork.
Context `{JSRuntime} (config : JWTManagerConfig).

(** X10.  [getAccessToken] without a current token, or with one that is
    expired under the buffer, starts a refresh (none being pending) and
    makes its one call.  When the network has answered, its promise has
    resolved with the string of the new token, or is rejected with
    [NoValidTokenError], whose message tells whether there was no token or
    an expired one; the error of the refresh is not passed on. *)
Theorem getAccessToken_refreshes (w : World) (o : error + Response) :
  well_formed w = true ->
  refreshPromise w = None ->
  (forall t, accessToken w = Some t ->
             isTokenExpired (clock w) t (refreshBuffer config) = true) ->
  let g := next_id w in
  let f := Pos.succ (Pos.succ g) in
  let w1 := run config [CallGetAccessToken] w in
  let w2 := run config [FetchSettles f o; BodySettles f] w1 in
  fetched w1 = fetched w ++ [refresh_call config f]
  /\ outcome g w1 = None
  /\ fetched w2 = fetched w1
  /\ outcome g w2
     = Some match refresh_answer config o with
            | inr t => Resolved (RString (token t))
            | inl _ =>
                Rejected (NoValidTokenError
                  match accessToken w with
                  | Some _ => "Access token expired and refresh failed"
                  | None => "No access token available and refresh failed"
                  end)
            end.
Proof.
  intros Hwf Hnone Hexp. cbv zeta.
  pose proof (well_formed_parts _ Hwf) as [Hts Hst].
  pose proof (find_settled_fresh (next_id w) _ _ Hst ltac:(lia)) as Hfind.
  destruct w as [tok rp tid clk tms fts tks stl nts nid].
  fields_in Hnone. fields_in Hts. fields_in Hst. fields_in Hexp.
  fields_in Hfind. subst rp. clear Hwf.
  destruct tok as [t|]; [specialize (Hexp t eq_refl)|clear Hexp].
  all: fields.
  all: wp_event; wp_all; wp_event.
  all: split; [reflexivity|].
  all: split; [unfold outcome; fields; now rewrite Hfind|].
  all: wp_event; wp_all.
  all: wp_event; wp_all; wp_event.
  all: split; [reflexivity|].
  all: unfold outcome, refresh_answer; fields; cbn [List.find fst snd].
  all: pos_eqb.
  all: repeat match goal with E : ?x = _ |- context [?x] => rewrite E end.
  all: reflexivity.
Qed.

(** X11.  Two calls of [getAccessToken] in a row, without a token to answer
    with, share one refresh: one call goes to the refresh endpoint, and the
    two promises end with one and the same outcome, the string of the new
    token when the refresh succeeds, and when it fails the
    [NoValidTokenError] whose message tells whether there was no token or an
    expired one. *)
Theorem getAccessToken_shares_refresh (w : World) (o : error + Response) :
  well_formed w = true ->
  refreshPromise w = None ->
  (forall t, accessToken w = Some t ->
             isTokenExpired (clock w) t (refreshBuffer config) = true) ->
  let g1 := next_id w in
  let f := Pos.succ (Pos.succ g1) in
  let g2 := Pos.succ f in
  let w1 := run config [CallGetAccessToken; CallGetAccessToken] w in
  let w2 := run config [FetchSettles f o; BodySettles f] w1 in
  let X :=
    match refresh_answer config o with
    | inr t => Resolved (RString (token t))
    | inl _ =>
        Rejected (NoValidTokenError
          match accessToken w with
          | Some _ => "Access token expired and refresh failed"
          | None => "No access token available and refresh failed"
          end)
    end in
  fetched w1 = fetched w ++ [refresh_call config f]
  /\ outcome g1 w1 = None /\ outcome g2 w1 = None
  /\ fetched w2 = fetched w1
  /\ outcome g1 w2 = Some X
  /\ outcome g2 w2 = Some X.
Proof.
  intros Hwf Hnone Hexp. cbv zeta.
  pose proof (well_formed_parts _ Hwf) as [Hts Hst].
  pose proof (find_settled_fresh (next_id w) _ _ Hst ltac:(lia)) as Hfind1.
  pose proof (find_settled_fresh (Pos.succ (Pos.succ (Pos.succ (next_id w))))
                _ _ Hst ltac:(lia)) as Hfind2.
  destruct w as [tok rp tid clk tms fts tks stl nts nid].
  fields_in Hnone. fields_in Hts. fields_in Hst. fields_in Hexp.
  fields_in Hfind1. fields_in Hfind2. subst rp. clear Hwf.
  destruct tok as [t|]; [specialize (Hexp t eq_refl)|clear Hexp].
  all: fields.
  all: wp_event; wp_all; wp_event; wp_all; wp_event.
  all: split; [reflexivity|].
  all: split; [unfold outcome; fields; now rewrite Hfind1|].
  all: split; [unfold outcome; fields; now rewrite Hfind2|].
  all: wp_event; wp_all.
  all: wp_event; wp_all; wp_event.
  all: split; [reflexivity|].
  all: unfold outcome, refresh_answer; fields; cbn [List.find fst snd].
  all: pos_eqb.
  all: repeat match goal with E : ?x = _ |- context [?x] => rewrite E end.
  all: split; reflexivity.
Qed.

(** X12.  A request sent with the current token and answered with a status
    other than 401 makes that one call and no refresh.  It resolves with the
    body, the status, the headers and the [ok] flag of the response, whatever
    the status, 403 and 500 included; when the call fails, or the body
    cannot be read, it is rejected with 'Request failed: ' and the error (a
    [NoValidTokenError] is thrown on as it is).  The token, the timer and the
    observers are left alone. *)
Theorem request_resolves_with_response
    (w : World) (t : JWTToken) (rq : RequestConfig) (o : error + Response) :
  well_formed w = true ->
  accessToken w = Some t ->
  isTokenExpired (clock w) t (refreshBuffer config) = false ->
  (forall r, o = inr r -> status r <> 401) ->
  let q := next_id w in
  let f := Pos.succ q in
  let failed (e : error) :=
    Rejected match e with
             | NoValidTokenError _ => e
             | _ => Error ("Request failed: " +:+ error_to_string e)
             end in
  let w1 := run config [CallRequest rq] w in
  let w2 := run config [FetchSettles f o; BodySettles f] w1 in
  fetched w1
  = fetched w ++ [{| call_id := f; call_url := url rq;
                     call_init := request_init rq
                                    (request_headers rq (token t)) |}]
  /\ fetched w2 = fetched w1
  /\ outcome q w2
     = Some match o with
            | inl e => failed e
            | inr r =>
                match read_body r with
                | inl e => failed e
                | inr d => Resolved (RResponse (authenticated r d))
                end
            end
  /\ accessToken w2 = accessToken w /\ refreshPromise w2 = refreshPromise w
  /\ timers w2 = timers w /\ notices w2 = notices w.
Proof.
  intros Hwf Htok Hexp H401. cbv zeta.
  pose proof (well_formed_parts _ Hwf) as [Hts Hst].
  destruct w as [tok rp tid clk tms fts tks stl nts nid].
  fields_in Htok. fields_in Hts. fields_in Hst. fields_in Hexp.
  subst tok. clear Hwf. fields.
  wp_event. wp_all. wp_event.
  split; [reflexivity|].
  destruct o as [e|r].
  - wp_event. wp_all. wp_event. wp_all. wp_event.
    unfold outcome; fields; cbn [List.find fst snd]. pos_eqb.
    repeat split; reflexivity.
  - specialize (H401 r eq_refl). apply Z.eqb_neq in H401.
    wp_event. wp_all. wp_event. wp_all.
    all: wp_event.
    all: unfold outcome; fields; cbn [List.find fst snd]; pos_eqb.
    all: repeat split; reflexivity.
Qed.



(** X15.  A refresh that succeeds stores the new token, arms the timer that
    [scheduled] tells for it in place of the one there was, and tells
    [onTokenRefresh] the token, once; nothing that waited is disturbed. *)
Theorem refresh_success_stores
    (w : World) (o : error + Response) (t : JWTToken) :
  well_formed w = true ->
  timers_ok w ->
  refreshPromise w = None ->
  refresh_answer config o = inr t ->
  let f := Pos.succ (next_id w) in
  let w' := run config
              [CallRefreshAccessToken; FetchSettles f o; BodySettles f] w in
  accessToken w' = Some t
  /\ delays (timers w') = delays (scheduled config (set_accessToken (Some t) w))
  /\ timers_ok w'
  /\ notices w' = notices w ++ [onTokenRefresh t]
  /\ refreshPromise w' = None
  /\ tasks w' = tasks w.
Proof.
  intros Hwf Hok Hnone Ht. cbv zeta.
  apply refresh_answer_inr in Ht as (r1 & d & -> & Hjs & Hj & Hx & Hv).
  pose proof (well_formed_parts _ Hwf) as [Hts Hst].
  destruct w as [tok rp tid clk tms fts tks stl nts nid].
  fields_in Hnone. fields_in Hts. fields_in Hst. subst rp. clear Hwf.
  destruct Hok as [Htm | (t0 & delay & Htm & Htid)]; cbn in Htm; subst tms;
    [|cbn in Htid; subst tid].
  all: wp_event; wp_all; wp_event; wp_all; wp_event; wp_all; wp_event.
  all: unfold scheduled, delays, timers_ok; fields;
    cbn [List.filter fst snd negb app].
  all: pos_eqb;
    cbn [List.filter fst snd negb app fmap option_fmap option_map].
  all: rewrite <- armed_timer with (clk := clk) (id := nid).
  all: repeat match goal with E : ngt _ _ = _ |- _ => rewrite E end.
  all: repeat split; try reflexivity.
  all: first [now left | right; eauto].
Qed.

(** X16.  A refresh that fails is rejected with a [TokenRefreshError]
    'Failed to refresh access token' around its cause, and
    [onTokenRefreshError] is told that error, once.  When the refresh
    endpoint answered 401 or 403, the token and the timer are gone and
    [onAuthFailure] has been told first; after any other failure, a network
    error, another status, a body that is no JSON or holds no token, the
    manager keeps the token and the timer it had. *)
Theorem refresh_failure_notifies
    (w : World) (o : error + Response) (e : error) :
  well_formed w = true ->
  timers_ok w ->
  refreshPromise w = None ->
  refresh_answer config o = inl e ->
  let p := next_id w in
  let f := Pos.succ p in
  let w' := run config
              [CallRefreshAccessToken; FetchSettles f o; BodySettles f] w in
  (exists cause, e = TokenRefreshError "Failed to refresh access token" cause)
  /\ outcome p w' = Some (Rejected e)
  /\ notices w'
     = notices w ++ (if unauthorized o then [onAuthFailure] else [])
                 ++ [onTokenRefreshError e]
  /\ (if unauthorized o
      then accessToken w' = None /\ timers w' = []
      else accessToken w' = accessToken w /\ timers w' = timers w)
  /\ refreshPromise w' = None
  /\ tasks w' = tasks w.
Proof.
  intros Hwf Hok Hnone He. cbv zeta.
  pose proof (well_formed_parts _ Hwf) as [Hts Hst].
  destruct w as [tok rp tid clk tms fts tks stl nts nid].
  fields_in Hnone. fields_in Hts. fields_in Hst. subst rp. clear Hwf.
  destruct Hok as [Htm | (t0 & delay & Htm & Htid)]; cbn in Htm; subst tms;
    [|cbn in Htid; subst tid].
  all: wp_event; wp_all; wp_event; wp_all.
  all: wp_event; wp_all; wp_event.
  all: try (exfalso; use_answer He; discriminate).
  all: use_answer He; intros [= <-].
  all: unfold outcome, unauthorized; fields;
    cbn [List.find List.filter fst snd negb app].
  all: pos_eqb; cbn [List.filter fst snd negb app].
  all: repeat match goal with E : ?x = _ |- context [?x] => rewrite E end.
  all: cbn [negb andb orb app].
  all: rewrite <- ?app_assoc; cbn [app].
  all: repeat split; try reflexivity.
  all: eexists; reflexivity.
Qed.

(** X17.  When the timer fires it is no longer armed.  With a refresh
    pending, the callback awaits that refresh: no call is made, and the
    token, the slot and the observers are left alone.  With no refresh
    pending, a refresh starts with its one call; when that refresh succeeds
    the new token is stored and the timer that [scheduled] tells for it is
    armed, so that the refreshes follow one another; the promise of the
    timer callback resolves with the new token and [onTokenRefresh] is
    invoked once. *)
Theorem timer_refresh_reschedules
    (w : World) (t0 : Id) (o : error + Response) (t : JWTToken) :
  well_formed w = true ->
  timers_ok w ->
  existsb (is_armed t0) (timers w) = true ->
  let w1 := run config [TimerFires t0] w in
  timers w1 = []
  /\ (forall p0, refreshPromise w = Some p0 ->
        fetched w1 = fetched w
        /\ tasks w1 = tasks w ++ [AwaitScheduled (next_id w) p0]
        /\ refreshPromise w1 = Some p0
        /\ accessToken w1 = accessToken w
        /\ notices w1 = notices w)
  /\ (refreshPromise w = None ->
      let p := next_id w in
      let f := Pos.succ p in
      let c := Pos.succ f in
      let w2 := run config [FetchSettles f o; BodySettles f] w1 in
      fetched w1 = fetched w ++ [refresh_call config f]
      /\ (refresh_answer config o = inr t ->
          accessToken w2 = Some t
          /\ delays (timers w2)
             = delays (scheduled config (set_accessToken (Some t) w))
          /\ timers_ok w2
          /\ outcome c w2 = Some (Resolved (RToken t))
          /\ notices w2 = notices w ++ [onTokenRefresh t]
          /\ fetched w2 = fetched w1)).
Proof.
  intros Hwf Hok Harmed. cbv zeta.
  pose proof (well_formed_parts _ Hwf) as [Hts Hst].
  destruct w as [tok rp tid clk tms fts tks stl nts nid].
  fields_in Hts. fields_in Hst. fields_in Harmed. clear Hwf.
  destruct Hok as [Htm | (t1 & delay & Htm & Htid)]; cbn in Htm; subst tms;
    [discriminate|cbn in Htid; subst tid].
  assert (Heq : Pos.eqb t1 t0 = true).
  { cbn in Harmed. now rewrite orb_false_r in Harmed. }
  fields. destruct rp as [p0|].
  { wp_event. wp_all. wp_event. cbn [List.filter fst negb]. rewrite Heq.
    cbn [negb]. split; [reflexivity|].
    split; [|intros [=]].
    intros p1 [= <-]. repeat split; reflexivity. }
  split; [|split; [discriminate|]].
  { wp_event. wp_all. wp_event. cbn [List.filter fst negb]. rewrite Heq.
    reflexivity. }
  intros _.
  wp_event. wp_all. wp_event. cbn [List.filter fst negb]. rewrite Heq.
  cbn [negb]. split; [reflexivity|]. intros Ht.
  apply refresh_answer_inr in Ht as (r1 & d & -> & Hjs & Hj & Hx & Hv).
  all: wp_event; wp_all; wp_event; wp_all; wp_event.
  all: unfold scheduled, delays, timers_ok, outcome; fields;
    cbn [List.find List.filter fst snd negb app].
  all: pos_eqb;
    cbn [List.filter fst snd negb app fmap option_fmap option_map].
  all: rewrite <- armed_timer with (clk := clk) (id := nid).
  all: repeat match goal with E : ngt _ _ = _ |- _ => rewrite E end.
  all: repeat split; try reflexivity.
  all: first [now left | right; eauto].
Qed.

(** X18.  [clearAccessToken] does not stop a refresh in flight: the slot
    still holds its promise, and when the network answers with a token the
    refresh stores it and arms its timer, so that the manager has a token
    again. *)
Theorem clearAccessToken_keeps_refresh_in_flight
    (w : World) (o : error + Response) (t : JWTToken) :
  well_formed w = true ->
  timers_ok w ->
  refreshPromise w = None ->
  refresh_answer config o = inr t ->
  let p := next_id w in
  let f := Pos.succ p in
  let w1 := run config [CallRefreshAccessToken; CallClearAccessToken] w in
  let w2 := run config [FetchSettles f o; BodySettles f] w1 in
  accessToken w1 = None /\ timers w1 = [] /\ refreshPromise w1 = Some p
  /\ accessToken w2 = Some t
  /\ delays (timers w2) = delays (scheduled config (set_accessToken (Some t) w))
  /\ outcome p w2 = Some (Resolved (RToken t))
  /\ notices w2 = notices w ++ [onTokenRefresh t].
Proof.
  intros Hwf Hok Hnone Ht. cbv zeta.
  apply refresh_answer_inr in Ht as (r1 & d & -> & Hjs & Hj & Hx & Hv).
  pose proof (well_formed_parts _ Hwf) as [Hts Hst].
  destruct w as [tok rp tid clk tms fts tks stl nts nid].
  fields_in Hnone. fields_in Hts. fields_in Hst. subst rp. clear Hwf.
  destruct Hok as [Htm | (t0 & delay & Htm & Htid)]; cbn in Htm; subst tms;
    [|cbn in Htid; subst tid].
  all: wp_event; wp_all; wp_event; wp_all; wp_event.
  all: wp_event; wp_all; wp_event; wp_all; wp_event.
  all: unfold outcome, scheduled, delays; fields;
    cbn [List.find List.filter fst snd negb app].
  all: pos_eqb;
    cbn [List.filter fst snd negb app fmap option_fmap option_map].
  all: rewrite <- armed_timer with (clk := clk) (id := nid).
  all: repeat match goal with E : ngt _ _ = _ |- _ => rewrite E end.
  all: repeat split; reflexivity.
Qed.

End OverTheNetwork.

(** ** What holds of every world a manager reaches *)

Section TimerForToken.
Context `{JSRuntime} (config : JWTManagerConfig).

Ltac frame_world := intros [] Hw; exact Hw.

Lemma timer_for_token_fresh : preserves timer_for_token fresh.
Proof. frame_world. Qed.

Lemma timer_for_token_fetch u i : preserves timer_for_token (fetch u i).
Proof. frame_world. Qed.

Lemma timer_for_token_notify n : preserves timer_for_token (notify n).
Proof. frame_world. Qed.

Lemma timer_for_token_suspend t : preserves timer_for_token (suspend t).
Proof. frame_world. Qed.

Lemma timer_for_token_settle p o : preserves timer_for_token (settle p o).
Proof. frame_world. Qed.

Lemma timer_for_token_take sel : preserves timer_for_token (take sel).
Proof. frame_world. Qed.

Lemma timer_for_token_Date_now : preserves timer_for_token Date_now.
Proof. frame_world. Qed.

Lemma timer_for_token_set_refreshPromise v :
  preserves timer_for_token (modify (set_refreshPromise v)).
Proof. frame_world. Qed.

Lemma timer_for_token_tick ms :
  preserves timer_for_token
    (modify (fun w => set_clock (clock w + Z.of_N ms) w)).
Proof. frame_world. Qed.

Lemma timer_for_token_expire t : preserves timer_for_token (expire t).
Proof.
  intros [tok rp tid clk tms fts tks stl nts nid] (Hok & Htok & Hpos).
  cbn in Htok, Hpos. unfold timer_for_token. cbn.
  split; [now apply filter_timers_ok|]. split.
  - intros Hne. apply Htok. intros ->. now apply Hne.
  - apply Forall_forall. intros x Hx. rewrite Forall_forall in Hpos.
    apply Hpos. apply list_elem_of_In in Hx. apply filter_In in Hx as [Hx _].
    now apply list_elem_of_In.
Qed.

Lemma timer_for_token_clearAccessToken :
  preserves timer_for_token clearAccessToken.
Proof.
  intros w (Hok & _). unfold clearAccessToken, bind.
  rewrite (clearRefreshTimeout_spec w Hok). destruct w.
  split; [now left|]. split; [easy|constructor].
Qed.

Lemma timer_for_token_destroy : preserves timer_for_token destroy.
Proof.
  intros w (Hok & _). unfold destroy, bind.
  rewrite (clearRefreshTimeout_spec w Hok). destruct w.
  split; [now left|]. split; [easy|constructor].
Qed.

Lemma timer_for_token_setAccessToken tok :
  preserves timer_for_token (setAccessToken config tok).
Proof.
  intros w Hw. rewrite setAccessToken_unfold. cbv zeta.
  assert (Hstore : forall t,
    timer_for_token
      (exec (scheduleTokenRefresh config) (set_accessToken (Some t) w))).
  { intros t. destruct Hw as (Hok & _).
    assert (Hok1 : timers_ok (set_accessToken (Some t) w)) by (now destruct w).
    pose proof (timers_ok_scheduleTokenRefresh config _ Hok1) as Hok2.
    destruct (scheduleTokenRefresh_spec config _ Hok1) as (Ht & _ & Ha & _).
    unfold exec in *. split; [exact Hok2|]. rewrite Ht, Ha. split.
    - now destruct w.
    - unfold scheduled. destruct w as [tok' rp tid clk tms fts tks stl nts nid].
      fields. destruct (expiresAt t) as [e|]; [|constructor].
      destruct (0 <? e - clk - refreshBuffer config) eqn:Hd; [|constructor].
      apply Z.ltb_lt in Hd. repeat constructor. exact Hd. }
  destruct tok as [s|t]; [|apply Hstore].
  destruct (negb _); [exact Hw|].
  destruct (createJWTToken s) as [e|t]; [exact Hw|apply Hstore].
Qed.

#[local] Hint Resolve timer_for_token_fresh timer_for_token_fetch
  timer_for_token_notify timer_for_token_suspend timer_for_token_settle
  timer_for_token_take timer_for_token_Date_now
  timer_for_token_set_refreshPromise timer_for_token_tick
  timer_for_token_expire timer_for_token_clearAccessToken
  timer_for_token_destroy timer_for_token_setAccessToken : pres.

Lemma timer_for_token_step e : preserves timer_for_token (step config e).
Proof. destruct e; pres. Qed.

(** X19.  Whatever happens to a manager, a timer is armed only while it
    holds a token, and then it is the one timer whose handle the manager
    keeps, armed with a delay that is positive. *)
Theorem timer_only_with_token (now : Z) (w : World) (evs : list Event) :
  timer_for_token w ->
  let w' := run config evs w in
  timer_for_token (initial now)
  /\ (timers w' <> [] -> exists t, accessToken w' = Some t)
  /\ (forall t d, In (t, d) (timers w') ->
        0 < d /\ refreshTimeoutId w' = Some t /\ timers w' = [(t, d)]).
Proof.
  intros Hw w'.
  split; [split; [now left|split; [easy|constructor]]|].
  assert (Hw' : timer_for_token w').
  { subst w'. revert w Hw. induction evs as [|e evs IH]; intros w Hw; [exact Hw|].
    simpl. apply IH. now apply timer_for_token_step. }
  destruct Hw' as (Hok & Htok & Hpos). split.
  - intros Hne. specialize (Htok Hne).
    destruct (accessToken w') as [t|]; [eauto|congruence].
  - intros t d Hin. rewrite Forall_forall in Hpos.
    pose proof (Hpos (t, d) ltac:(now apply list_elem_of_In)) as Hd.
    destruct Hok as [Hnil|(t0 & d0 & Hone & Hid)].
    + rewrite Hnil in Hin. destruct Hin.
    + rewrite Hone in Hin. destruct Hin as [[= <- <-]|[]].
      repeat split; assumption.
Qed.

End TimerForToken.

(** *** One refresh at a time *)

(** A loop over tasks taken, with an invariant that sees what is left. *)
Lemma for_each_rest {A} (J : list A -> World -> Prop) (P : A -> Prop)
    (f : A -> M unit) (l : list A) (w : World) :
  (forall a rest w, P a -> J (a :: rest) w -> J rest (exec (f a) w)) ->
  Forall P l -> J l w -> J [] (exec (for_each f l) w).
Proof.
  intros Hf Hl. revert w.
  induction Hl as [|a l Ha Hl IH]; intros w Hw; [exact Hw|].
  specialize (Hf a l w Ha Hw). unfold exec in *. cbn [for_each]. unfold bind.
  destruct (f a w) as [u w1]. now apply IH.
Qed.

Lemma in_flight_app ts ts' : in_flight (ts ++ ts') = in_flight ts ++ in_flight ts'.
Proof. apply omap_app. Qed.

Lemma in_flight_filter_nil sel ts :
  in_flight ts = [] -> in_flight (List.filter sel ts) = [].
Proof.
  induction ts as [|a ts IH]; simpl; [easy|].
  unfold in_flight in *. cbn [omap list_omap].
  destruct (refreshing a) eqn:Ha; [discriminate|]. intros Hts.
  destruct (sel a); [|now apply IH].
  cbn [omap list_omap]. rewrite Ha. now apply IH.
Qed.

(** Taking tasks out of a list with at most one refresh in flight. *)
Lemma in_flight_partition sel ts :
  (length (in_flight ts) <= 1)%nat ->
  in_flight (List.filter sel ts)
  ++ in_flight (List.filter (fun t => negb (sel t)) ts) = in_flight ts.
Proof.
  induction ts as [|a ts IH]; simpl; [reflexivity|].
  unfold in_flight in *. cbn [omap list_omap].
  destruct (refreshing a) as [p|] eqn:Ha; cbn [length].
  - intros Hlen.
    assert (Hnil : omap refreshing ts = [])
      by (destruct (omap refreshing ts); [reflexivity|simpl in Hlen; lia]).
    pose proof (in_flight_filter_nil sel ts Hnil) as H1.
    pose proof (in_flight_filter_nil (fun t => negb (sel t)) ts Hnil) as H2.
    unfold in_flight in H1, H2.
    destruct (sel a); cbn [negb omap list_omap]; rewrite Ha, H1, H2, Hnil;
      reflexivity.
  - intros Hlen. destruct (sel a); cbn [negb omap list_omap]; rewrite Ha;
      now apply IH.
Qed.

(** Taking tasks that are no refresh leaves the refreshes. *)
Lemma in_flight_filter_keep sel ts :
  (forall t, refreshing t <> None -> sel t = true) ->
  in_flight (List.filter sel ts) = in_flight ts.
Proof.
  intros Hsel. induction ts as [|a ts IH]; simpl; [reflexivity|].
  unfold in_flight in *. cbn [omap list_omap].
  destruct (refreshing a) as [p|] eqn:Ha.
  - rewrite (Hsel a) by congruence. cbn [omap list_omap]. now rewrite Ha, IH.
  - destruct (sel a); [cbn [omap list_omap]; rewrite Ha|]; exact IH.
Qed.

Lemma not_awaiting_promise p t :
  refreshing t <> None -> negb (awaits_promise p t) = true.
Proof. destruct t; simpl; congruence. Qed.

Section RefreshLocal.
Variable I : World -> Prop.
Hypothesis HI : refresh_local I.

Ltac local := intros [] Hw; revert Hw; apply HI; reflexivity.

Lemma local_fresh : preserves I fresh.
Proof. local. Qed.
Lemma local_fetch u i : preserves I (fetch u i).
Proof. local. Qed.
Lemma local_notify n : preserves I (notify n).
Proof. local. Qed.
Lemma local_settle p o : preserves I (settle p o).
Proof. local. Qed.
Lemma local_Date_now : preserves I Date_now.
Proof. local. Qed.
Lemma local_setTimeout d : preserves I (setTimeout d).
Proof. local. Qed.
Lemma local_clearTimeout t : preserves I (clearTimeout t).
Proof. local. Qed.
Lemma local_expire t : preserves I (expire t).
Proof. local. Qed.
Lemma local_set_accessToken v : preserves I (modify (set_accessToken v)).
Proof. local. Qed.
Lemma local_set_refreshTimeoutId v :
  preserves I (modify (set_refreshTimeoutId v)).
Proof. local. Qed.
Lemma local_tick ms :
  preserves I (modify (fun w => set_clock (clock w + Z.of_N ms) w)).
Proof. local. Qed.

Lemma local_suspend t : refreshing t = None -> preserves I (suspend t).
Proof.
  intros Ht [tok rp tid clk tms fts tks stl nts nid] Hw.
  revert Hw; apply HI; [|reflexivity].
  unfold suspend, modify. cbn [snd tasks set_tasks]. rewrite in_flight_app.
  replace (in_flight [t]) with (@nil Id);
    [now rewrite app_nil_r | unfold in_flight; cbn; now rewrite Ht].
Qed.

Lemma local_take_waiters p : preserves I (take (awaits_promise p)).
Proof.
  intros [tok rp tid clk tms fts tks stl nts nid] Hw.
  revert Hw; apply HI; [|reflexivity].
  cbn. symmetry. apply in_flight_filter_keep. apply not_awaiting_promise.
Qed.

End RefreshLocal.

Lemma wp_preserves {A} (I : World -> Prop) (m : M A) Q w :
  preserves I m -> I w -> (forall a w', I w' -> Q a w') -> wp m Q w.
Proof. intros Hm Hw HQ. apply HQ. now apply Hm. Qed.

Lemma refresh_state_local X s : refresh_local (refresh_state X s).
Proof. intros w w' Ht Hs [<- <-]. now split. Qed.

Lemma one_refresh_local X : refresh_local (one_refresh X).
Proof. intros w w' Ht Hs. unfold one_refresh. now rewrite Ht, Hs. Qed.

Lemma slot_in_flight_local X : refresh_local (slot_in_flight X).
Proof. intros w w' Ht Hs. unfold slot_in_flight. now rewrite Ht, Hs. Qed.

#[local] Hint Resolve refresh_state_local one_refresh_local slot_in_flight_local : pres.
#[local] Hint Resolve local_fresh local_fetch local_notify local_settle local_Date_now
  local_setTimeout local_clearTimeout local_expire local_set_accessToken
  local_set_refreshTimeoutId local_tick local_suspend local_take_waiters : pres.

Section OneRefresh.
Context `{JSRuntime} (config : JWTManagerConfig).

Lemma refresh_state_resume X s o a :
  preserves (refresh_state X s) (resume o a).
Proof. destruct a, o; pres. Qed.

#[local] Hint Resolve refresh_state_resume : pres.

(** When a refresh ends, its slot is empty, and the refreshes in flight are
    those there were. *)
Lemma refreshAccessToken_resume_settles p performed w :
  refresh_state (in_flight (tasks w)) None
    (exec (refreshAccessToken_resume config p performed) w).
Proof.
  apply wp_exec. unfold refreshAccessToken_resume. apply wp_bind.
  apply (wp_preserves
           (refresh_state (in_flight (tasks w)) (refreshPromise w)));
    [pres | now split |].
  intros o w1 [H1 H2]. apply wp_bind. apply wp_modify.
  apply (wp_preserves (refresh_state (in_flight (tasks w)) None)); [pres | |].
  - destruct w1. split; [exact H1 | reflexivity].
  - intros _ w2 Hw2. exact Hw2.
Qed.

Lemma refresh_failed_settles p cause w :
  refresh_state (in_flight (tasks w)) None
    (exec (refresh_failed config p cause) w).
Proof. apply refreshAccessToken_resume_settles. Qed.

Lemma performTokenRefresh_fetched_state p f o w :
  let w' := exec (performTokenRefresh_fetched config p f o) w in
  refresh_state (in_flight (tasks w)) None w'
  \/ refresh_state (in_flight (tasks w) ++ [p]) (refreshPromise w) w'.
Proof.
  cbv zeta. unfold performTokenRefresh_fetched.
  destruct o as [e|response]; [left; apply refresh_failed_settles|].
  destruct (negb (ok response)).
  - left. apply wp_exec. apply wp_bind.
    apply (wp_preserves
             (refresh_state (in_flight (tasks w)) (refreshPromise w)));
      [pres | now split |].
    intros _ w1 [H1 _]. apply wp_unit. rewrite <- H1.
    apply refresh_failed_settles.
  - right. destruct w as [tok rp tid clk tms fts tks stl nts nid].
    split; [|reflexivity]. cbn. rewrite in_flight_app. reflexivity.
Qed.

Lemma performTokenRefresh_parsed_state p response w :
  refresh_state (in_flight (tasks w)) None
    (exec (performTokenRefresh_parsed config p response) w).
Proof.
  unfold performTokenRefresh_parsed.
  destruct (json response) as [e|d]; [apply refresh_failed_settles|].
  destruct (extractAccessToken _ d) as [e|[t|]];
    try apply refresh_failed_settles.
  destruct (negb _);
    [apply refresh_failed_settles | apply refreshAccessToken_resume_settles].
Qed.

Lemma one_refresh_refreshAccessToken X :
  preserves (one_refresh X) (refreshAccessToken config).
Proof.
  intros w Hw. destruct (refreshPromise w) as [p|] eqn:Hp.
  - now rewrite (refresh_pending config w p Hp).
  - rewrite (refresh_first config w Hp). unfold one_refresh in *.
    rewrite Hp in Hw. apply app_eq_nil in Hw as [-> Hw].
    destruct w as [tok rp tid clk tms fts tks stl nts nid].
    cbn [tasks] in Hw. cbn [snd]. fields. now rewrite in_flight_app, Hw.
Qed.

Lemma slot_in_flight_refreshAccessToken X :
  preserves (slot_in_flight X) (refreshAccessToken config).
Proof.
  intros w Hw. destruct (refreshPromise w) as [p|] eqn:Hp.
  - now rewrite (refresh_pending config w p Hp).
  - rewrite (refresh_first config w Hp). unfold slot_in_flight in *.
    destruct w as [tok rp tid clk tms fts tks stl nts nid].
    cbn [snd]. fields. intros p [= <-]. rewrite in_flight_app, !in_app_iff.
    right. right. now left.
Qed.

#[local] Hint Resolve one_refresh_refreshAccessToken
  slot_in_flight_refreshAccessToken : pres.

Lemma one_refresh_fetched_resume f o a rest w :
  awaits_fetch f a = true ->
  one_refresh (in_flight (a :: rest)) w ->
  one_refresh (in_flight rest) (exec (fetched_resume config o a) w).
Proof.
  destruct a; try discriminate; intros _.
  - unfold one_refresh. cbn [in_flight omap list_omap refreshing app].
    fold (in_flight rest). intros Hw.
    destruct (refreshPromise w) as [q|] eqn:Hq; [|discriminate].
    injection Hw as -> Hw. apply app_eq_nil in Hw as [-> Hw].
    cbn [fetched_resume].
    destruct (performTokenRefresh_fetched_state q f0 o w) as [[-> ->]|[-> ->]];
      rewrite Hw, ?Hq; reflexivity.
  - revert w.
    change (preserves (one_refresh (in_flight rest))
              (fetched_resume config o (AwaitRequestFetch q f0 config0 hdrs))).
    pres.
  - revert w.
    change (preserves (one_refresh (in_flight rest))
              (fetched_resume config o (AwaitRetryFetch q f0))).
    pres.
Qed.

Lemma one_refresh_body_resume f a rest w :
  awaits_body f a = true ->
  one_refresh (in_flight (a :: rest)) w ->
  one_refresh (in_flight rest) (exec (body_resume config a) w).
Proof.
  destruct a; try discriminate; intros _.
  - unfold one_refresh. cbn [in_flight omap list_omap refreshing app].
    fold (in_flight rest). intros Hw.
    destruct (refreshPromise w) as [q|] eqn:Hq; [|discriminate].
    injection Hw as -> Hw. apply app_eq_nil in Hw as [-> Hw].
    cbn [body_resume].
    destruct (performTokenRefresh_parsed_state q response w) as [-> ->].
    now rewrite Hw.
  - revert w.
    change (preserves (one_refresh (in_flight rest))
              (body_resume config (AwaitRequestBody q f0 response))).
    pres.
  - revert w.
    change (preserves (one_refresh (in_flight rest))
              (body_resume config (AwaitRetryBody q f0 retryResponse))).
    pres.
Qed.

Lemma filter_Forall {A} (sel : A -> bool) (l : list A) :
  Forall (fun a => sel a = true) (List.filter sel l).
Proof.
  apply Forall_forall. intros a Ha. apply list_elem_of_In in Ha.
  now apply filter_In in Ha as [_ Ha].
Qed.

Lemma one_refresh_taken sel w :
  one_refresh [] w ->
  one_refresh (in_flight (List.filter sel (tasks w)))
    (set_tasks (List.filter (fun t => negb (sel t)) (tasks w)) w).
Proof.
  unfold one_refresh. cbn [app]. intros Hw.
  destruct w as [tok rp tid clk tms fts tks stl nts nid]. fields.
  cbn [tasks refreshPromise] in Hw.
  rewrite in_flight_partition; [exact Hw|].
  rewrite Hw. destruct rp; simpl; lia.
Qed.

Ltac by_pres I :=
  lazymatch goal with
  | |- forall w, _ -> _ (exec ?m w) => change (preserves I m); solve [pres]
  end.

Lemma one_refresh_step e w :
  e <> CallDestroy ->
  one_refresh [] w -> one_refresh [] (exec (step config e) w).
Proof.
  destruct e as [tok| | |rq| | |f o|f|t|ms]; try congruence; intros _; revert w.
  all: try by_pres (one_refresh []).
  - intros w Hw. unfold step, exec, bind, take. cbn [fst snd].
    apply (for_each_rest (fun rest => one_refresh (in_flight rest))
             (fun a => awaits_fetch f a = true)).
    + intros a rest w'. apply one_refresh_fetched_resume.
    + apply filter_Forall.
    + now apply one_refresh_taken.
  - intros w Hw. unfold step, exec, bind, take. cbn [fst snd].
    apply (for_each_rest (fun rest => one_refresh (in_flight rest))
             (fun a => awaits_body f a = true)).
    + intros a rest w'. apply one_refresh_body_resume.
    + apply filter_Forall.
    + now apply one_refresh_taken.
Qed.

Lemma in_flight_partition_In sel p ts :
  In p (in_flight ts) ->
  In p (in_flight (List.filter sel ts)
        ++ in_flight (List.filter (fun t => negb (sel t)) ts)).
Proof.
  unfold in_flight. induction ts as [|a ts IH]; [easy|].
  cbn [omap list_omap List.filter].
  destruct (refreshing a) as [q|] eqn:Ha.
  - intros [->|Hin]; destruct (sel a); cbn [negb omap list_omap];
      rewrite Ha, ?in_app_iff; cbn [In];
      try specialize (IH Hin); rewrite ?in_app_iff in IH; intuition.
  - intros Hin. destruct (sel a); cbn [negb omap list_omap]; rewrite Ha;
      now apply IH.
Qed.

Lemma slot_in_flight_taken sel w :
  slot_in_flight [] w ->
  slot_in_flight (in_flight (List.filter sel (tasks w)))
    (set_tasks (List.filter (fun t => negb (sel t)) (tasks w)) w).
Proof.
  unfold slot_in_flight. cbn [app]. intros Hw p.
  destruct w as [tok rp tid clk tms fts tks stl nts nid]. fields.
  cbn [tasks refreshPromise] in Hw. intros Hp.
  apply in_flight_partition_In. now apply Hw.
Qed.

Lemma slot_in_flight_empty X w : refreshPromise w = None -> slot_in_flight X w.
Proof. intros Hw p. rewrite Hw. discriminate. Qed.

Lemma slot_in_flight_fetched_resume f o a rest w :
  awaits_fetch f a = true ->
  slot_in_flight (in_flight (a :: rest)) w ->
  slot_in_flight (in_flight rest) (exec (fetched_resume config o a) w).
Proof.
  destruct a; try discriminate; intros _.
  - unfold slot_in_flight at 1.
    cbn [in_flight omap list_omap refreshing app].
    fold (in_flight rest). intros Hw. cbn [fetched_resume].
    destruct (performTokenRefresh_fetched_state p f0 o w) as [[_ Hs]|[Ht Hs]].
    + now apply slot_in_flight_empty.
    + intros q. rewrite Hs, Ht. intros Hq. specialize (Hw q Hq).
      cbn [In] in Hw. rewrite !in_app_iff in *. cbn [In]. intuition.
  - revert w.
    change (preserves (slot_in_flight (in_flight rest))
              (fetched_resume config o (AwaitRequestFetch q f0 config0 hdrs))).
    pres.
  - revert w.
    change (preserves (slot_in_flight (in_flight rest))
              (fetched_resume config o (AwaitRetryFetch q f0))).
    pres.
Qed.

Lemma slot_in_flight_body_resume f a rest w :
  awaits_body f a = true ->
  slot_in_flight (in_flight (a :: rest)) w ->
  slot_in_flight (in_flight rest) (exec (body_resume config a) w).
Proof.
  destruct a; try discriminate; intros _.
  - intros _. cbn [body_resume].
    destruct (performTokenRefresh_parsed_state p response w) as [_ Hs].
    now apply slot_in_flight_empty.
  - revert w.
    change (preserves (slot_in_flight (in_flight rest))
              (body_resume config (AwaitRequestBody q f0 response))).
    pres.
  - revert w.
    change (preserves (slot_in_flight (in_flight rest))
              (body_resume config (AwaitRetryBody q f0 retryResponse))).
    pres.
Qed.

Lemma slot_in_flight_step e w :
  slot_in_flight [] w -> slot_in_flight [] (exec (step config e) w).
Proof.
  destruct e as [tok| | |rq| | |f o|f|t|ms]; revert w.
  all: try by_pres (slot_in_flight []).
  - intros w _. apply slot_in_flight_empty.
    destruct w as [tok rp tid clk tms fts tks stl nts nid].
    apply wp_exec. wp_all; reflexivity.
  - intros w Hw. unfold step, exec, bind, take. cbn [fst snd].
    apply (for_each_rest (fun rest => slot_in_flight (in_flight rest))
             (fun a => awaits_fetch f a = true)).
    + intros a rest w'. apply slot_in_flight_fetched_resume.
    + apply filter_Forall.
    + now apply slot_in_flight_taken.
  - intros w Hw. unfold step, exec, bind, take. cbn [fst snd].
    apply (for_each_rest (fun rest => slot_in_flight (in_flight rest))
             (fun a => awaits_body f a = true)).
    + intros a rest w'. apply slot_in_flight_body_resume.
    + apply filter_Forall.
    + now apply slot_in_flight_taken.
Qed.

(** X20.  As long as [destroy] is not called, the refreshes that wait for
    the network are the one whose promise the slot holds, and none when the
    slot is empty: at most one refresh is ever in flight,
    [refreshAccessToken] calls [fetch] when none is, and returns the promise
    of the one that is without calling anything. *)
Theorem one_refresh_at_a_time (now : Z) (w : World) (evs : list Event) :
  in_flight (tasks w) = option_list (refreshPromise w) ->
  Forall (fun e => e <> CallDestroy) evs ->
  let w' := run config evs w in
  in_flight (tasks (initial now)) = option_list (refreshPromise (initial now))
  /\ in_flight (tasks w') = option_list (refreshPromise w')
  /\ (length (in_flight (tasks w')) <= 1)%nat
  /\ (in_flight (tasks w') = [] ->
      exists f, fetched (exec (refreshAccessToken config) w')
                = fetched w' ++ [refresh_call config f])
  /\ (forall p, In p (in_flight (tasks w')) ->
                refreshAccessToken config w' = (p, w')).
Proof.
  intros Hw Hevs w'. split; [reflexivity|].
  assert (Hw' : one_refresh [] w').
  { subst w'. revert w Hw.
    induction Hevs as [|e evs He Hevs IH]; intros w Hw; [exact Hw|].
    simpl. apply IH. now apply one_refresh_step. }
  unfold one_refresh in Hw'. cbn [app] in Hw'. split; [exact Hw'|].
  rewrite Hw'. destruct (refreshPromise w') as [p|] eqn:Hp; cbn.
  - split; [lia|]. split; [discriminate|].
    intros q [<-|[]]. now apply refresh_pending.
  - split; [lia|]. split; [|intros q []]. intros _.
    unfold exec. rewrite (refresh_first config w' Hp).
    destruct w'. eexists. reflexivity.
Qed.

(** X21.  Whatever is called, [destroy] included: when the slot holds a
    promise, the refresh of that promise is waiting for the network, at its
    call of [fetch] or at the body of the response; so the promise that
    [refreshAccessToken] returns for a pending refresh is one that the
    network will settle. *)
Theorem pending_refresh_in_flight (now : Z) (w : World) (evs : list Event) :
  (forall p, refreshPromise w = Some p -> In p (in_flight (tasks w))) ->
  let w' := run config evs w in
  (forall p, refreshPromise (initial now) = Some p ->
             In p (in_flight (tasks (initial now))))
  /\ forall p, refreshPromise w' = Some p ->
       exists f, In (AwaitRefreshFetch p f) (tasks w')
                 \/ exists r, In (AwaitRefreshJson p f r) (tasks w').
Proof.
  intros Hw w'. split; [discriminate|].
  assert (Hw' : slot_in_flight [] w').
  { subst w'. revert w Hw.
    induction evs as [|e evs IH]; intros w Hw; [exact Hw|].
    simpl. apply IH. now apply slot_in_flight_step. }
  intros p Hp. specialize (Hw' p Hp). cbn [app] in Hw'.
  unfold in_flight in Hw'. apply list_elem_of_In in Hw'.
  apply list_elem_of_omap in Hw' as (a & Ha & Hr). apply list_elem_of_In in Ha.
  destruct a; try discriminate; injection Hr as ->; eauto.
Qed.

End OneRefresh.

(** ** One refresh for the calls made while it is outstanding *)

Lemma concerns_false p f t :
  concerns p f t = false ->
  refreshing t = None /\ awaits_fetch f t = false /\ awaits_body f t = false
  /\ own_id t <> p.
Proof.
  unfold concerns. intros Hc.
  apply orb_false_iff in Hc as [Hc Hid].
  apply orb_false_iff in Hc as [Hc Hbody].
  apply orb_false_iff in Hc as [Hr Hfetch].
  repeat split; try assumption.
  - now destruct (refreshing t).
  - now apply Pos.eqb_neq.
Qed.

(** What [take] leaves and what it takes, when the tasks that concern the
    refresh are known. *)
Lemma filter_filter_comm {A} (c sel : A -> bool) (l : list A) :
  List.filter c (List.filter sel l) = List.filter sel (List.filter c l).
Proof.
  induction l as [|a l IH]; [reflexivity|]. simpl.
  destruct (sel a) eqn:Hs, (c a) eqn:Hc; simpl; rewrite ?Hs, ?Hc, IH;
    reflexivity.
Qed.

Lemma filter_within {A} (c sel : A -> bool) (l : list A) :
  (forall a, sel a = true -> c a = true) ->
  List.filter sel l = List.filter sel (List.filter c l).
Proof.
  intros Hsub. induction l as [|a l IH]; [reflexivity|]. simpl.
  destruct (sel a) eqn:Hs.
  - rewrite (Hsub a Hs). simpl. now rewrite Hs, IH.
  - destruct (c a); simpl; rewrite ?Hs; exact IH.
Qed.

Lemma filter_nil_Forall {A} (c sel : A -> bool) (l : list A) :
  List.filter c l = [] ->
  Forall (fun a => c a = false) (List.filter sel l).
Proof.
  intros Hc. apply Forall_forall. intros a Ha. apply list_elem_of_In in Ha.
  apply filter_In in Ha as [Ha _].
  destruct (c a) eqn:Hca; [|reflexivity].
  assert (Hin : In a (List.filter c l)) by (apply filter_In; now split).
  rewrite Hc in Hin. destruct Hin.
Qed.

Lemma filter_one_Forall {A} (c sel : A -> bool) (l : list A) (a0 : A) :
  List.filter c l = [a0] -> sel a0 = false ->
  Forall (fun a => c a = false) (List.filter sel l).
Proof.
  intros Hc Hsel. apply Forall_forall. intros a Ha. apply list_elem_of_In in Ha.
  apply filter_In in Ha as [Ha Hs].
  destruct (c a) eqn:Hca; [|reflexivity].
  assert (Hin : In a (List.filter c l)) by (apply filter_In; now split).
  rewrite Hc in Hin. destruct Hin as [<-|[]]. congruence.
Qed.


(** What is known of a task that does not concern the refresh. *)
Ltac apart H :=
  apply concerns_false in H as (? & ? & ? & ?);
  repeat match goal with
  | E : refreshing _ = None |- _ => cbn in E; try discriminate E; clear E
  | E : awaits_fetch _ _ = false |- _ =>
      cbn in E; first [apply Pos.eqb_neq in E | clear E]
  | E : awaits_body _ _ = false |- _ =>
      cbn in E; first [apply Pos.eqb_neq in E | clear E]
  | E : own_id _ <> _ |- _ => cbn [own_id] in E
  end.

(** The state of a refresh, of a world taken apart. *)
Ltac refresh_leaf :=
  unfold outstanding, settled_with, outcome; fields;
  cbn [List.find fst snd];
  repeat rewrite List.filter_app;
  repeat match goal with
  | E : List.filter (concerns _ _) _ = _ |- _ => rewrite E
  end;
  unfold concerns;
  cbn [List.filter refreshing awaits_fetch awaits_body own_id orb app];
  pos_eqb;
  cbn [List.filter orb app fmap option_fmap option_map];
  repeat match goal with
  | E : _ <$> List.find _ _ = _ |- _ => rewrite E
  end;
  repeat split; try reflexivity; try lia.

Ltac refresh_start :=
  unfold outstanding, settled_with, outcome; fields;
  intros;
  repeat match goal with
  | H : _ /\ _ |- _ => destruct H
  end;
  subst.

Section Outstanding.
Context `{JSRuntime} (config : JWTManagerConfig).

Lemma outstanding_fetched_resume p f o a w :
  concerns p f a = false -> outstanding p f w ->
  outstanding p f (exec (fetched_resume config o a) w).
Proof.
  destruct w as [tok rp tid clk tms fts tks stl nts nid].
  intros Hc. destruct a; apart Hc; refresh_start.
  all: apply wp_exec; wp_all; refresh_leaf.
Qed.

Lemma outstanding_body_resume p f a w :
  concerns p f a = false -> outstanding p f w ->
  outstanding p f (exec (body_resume config a) w).
Proof.
  destruct w as [tok rp tid clk tms fts tks stl nts nid].
  intros Hc. destruct a; apart Hc; refresh_start.
  all: apply wp_exec; wp_all; refresh_leaf.
Qed.

End Outstanding.


Section OutstandingEvents.
Context `{JSRuntime} (config : JWTManagerConfig).

Lemma outstanding_taken p f sel w :
  sel (AwaitRefreshFetch p f) = false ->
  outstanding p f w ->
  outstanding p f
    (set_tasks (List.filter (fun t => negb (sel t)) (tasks w)) w)
  /\ Forall (fun a => concerns p f a = false) (List.filter sel (tasks w)).
Proof.
  intros Hsel (Hs & Ho & Hf & Hp & Hfl). split.
  - destruct w as [tok rp tid clk tms fts tks stl nts nid].
    unfold outstanding, outcome in *. fields.
    cbn [refreshPromise settled tasks next_id] in Hs, Ho, Hf, Hp, Hfl.
    repeat split; try assumption.
    rewrite filter_filter_comm, Hf. cbn. now rewrite Hsel.
  - now apply (filter_one_Forall _ _ _ _ Hf).
Qed.

(** While the call of the refresh is outstanding and [destroy] is not
    called, the refresh stays the one under way. *)
Lemma outstanding_step p f e w :
  e <> CallDestroy -> (forall o, e <> FetchSettles f o) ->
  outstanding p f w -> outstanding p f (exec (step config e) w).
Proof.
  intros Hd Hq.
  destruct e as [tok| | |rq| | |f' o'|b|t|ms]; try congruence.
  6: { intros Hw.
       assert (Hne : f' <> f) by (intros ->; now apply (Hq o')).
       destruct (outstanding_taken p f (awaits_fetch f') w) as [Hw' Hall];
         [cbn; apply Pos.eqb_neq; congruence | exact Hw |].
       apply wp_exec. unfold step. apply wp_bind, wp_take.
       apply (wp_for_each_inv (outstanding p f)
                (fun a => concerns p f a = false)); try assumption.
       - intros a w' Ha. now apply outstanding_fetched_resume.
       - trivial. }
  6: { intros Hw.
       destruct (outstanding_taken p f (awaits_body b) w) as [Hw' Hall];
         [reflexivity | exact Hw |].
       apply wp_exec. unfold step. apply wp_bind, wp_take.
       apply (wp_for_each_inv (outstanding p f)
                (fun a => concerns p f a = false)); try assumption.
       - intros a w' Ha. now apply outstanding_body_resume.
       - trivial. }
  all: destruct w as [tk rp tid clk tms fts tks stl nts nid].
  all: refresh_start; apply wp_exec; wp_all; refresh_leaf.
Qed.

Lemma outstanding_run p f evs w :
  Forall (fun e => e <> CallDestroy /\ forall o, e <> FetchSettles f o) evs ->
  outstanding p f w -> outstanding p f (run config evs w).
Proof.
  intros Hevs. revert w.
  induction Hevs as [|e evs [Hd Hq] Hevs IH]; intros w Hw; [exact Hw|].
  simpl. apply IH. now apply outstanding_step.
Qed.

End OutstandingEvents.


Lemma wp_after (R : World -> Prop) (m : M unit) (Q : unit -> World -> Prop) w :
  R (exec m w) -> (forall w', R w' -> Q tt w') -> wp m Q w.
Proof. intros Hr HQ. apply wp_unit. now apply HQ. Qed.

Lemma filter_nil_negb {A} (c sel : A -> bool) (l : list A) :
  (forall a, sel a = true -> c a = true) ->
  List.filter c l = [] ->
  List.filter sel l = [] /\ List.filter (fun a => negb (sel a)) l = l.
Proof.
  intros Hsub Hc. apply filter_none. intros a Ha.
  destruct (sel a) eqn:Hs; [|reflexivity]. exfalso.
  assert (Hin : In a (List.filter c l)) by (apply filter_In; auto).
  rewrite Hc in Hin. destruct Hin.
Qed.

Lemma awaits_fetch_concerns p f t :
  awaits_fetch f t = true -> concerns p f t = true.
Proof. unfold concerns. intros ->. now rewrite orb_true_r. Qed.

Lemma awaits_body_concerns p f t :
  awaits_body f t = true -> concerns p f t = true.
Proof. unfold concerns. intros ->. rewrite !orb_true_r. reflexivity. Qed.

Section Settlement.
Context `{JSRuntime} (config : JWTManagerConfig).

Lemma settled_with_resume p f X o a w :
  concerns p f a = false -> settled_with p f X w ->
  settled_with p f X (exec (resume o a) w).
Proof.
  destruct w as [tok rp tid clk tms fts tks stl nts nid].
  intros Hc. destruct a, o; apart Hc; refresh_start.
  all: apply wp_exec; wp_all; refresh_leaf.
Qed.

(** When the asynchronous function of [refreshAccessToken] ends, the promise
    has its outcome, whatever waits for it. *)
Lemma refreshAccessToken_resume_settled p f performed w :
  List.filter (concerns p f) (tasks w) = [] ->
  (p < next_id w)%positive -> (f < next_id w)%positive ->
  settled_with p f
    match performed with
    | inr t => Resolved (RToken t)
    | inl e => Rejected match e with
                        | TokenRefreshError _ _ => e
                        | _ => TokenRefreshError "Token refresh failed" e
                        end
    end
    (exec (refreshAccessToken_resume config p performed) w).
Proof.
  destruct w as [tok rp tid clk tms fts tks stl nts nid]. fields.
  intros Hc Hp Hf.
  pose proof (filter_nil_Forall _ (awaits_promise p) _ Hc) as Hall.
  assert (Hrest : List.filter (concerns p f)
                    (List.filter (fun t => negb (awaits_promise p t)) tks) = [])
    by now rewrite filter_filter_comm, Hc.
  apply wp_exec. wp_all.
  all: lazymatch goal with
       | |- wp _ (fun _ w' => settled_with _ _ ?X w') _ =>
           apply (wp_for_each_inv (settled_with p f X)
                    (fun a => concerns p f a = false)); try assumption
       end.
  all: try (intros a w' Ha; now apply settled_with_resume).
  all: try (intros w' Hw'; exact Hw').
  all: refresh_leaf.
Qed.

End Settlement.


Section RefreshSettles.
Context `{JSRuntime} (config : JWTManagerConfig).

Lemma settled_with_body p f X w :
  settled_with p f X w ->
  settled_with p f X (exec (step config (BodySettles f)) w).
Proof.
  destruct w as [tok rp tid clk tms fts tks stl nts nid].
  refresh_start.
  match goal with
  | Hc : List.filter (concerns p f) tks = [] |- _ =>
      destruct (filter_nil_negb (concerns p f) (awaits_body f) tks
                  (awaits_body_concerns p f) Hc) as [Hb Hnb]
  end.
  apply wp_exec. wp_all. refresh_leaf.
Qed.

Ltac wp_known ::=
  lazymatch goal with
  | the_call := ?f |- wp (refreshAccessToken_resume _ ?p _) _ _ =>
      eapply (wp_after (settled_with p f _));
      [ apply refreshAccessToken_resume_settled; fields;
        [ repeat match goal with
          | E : List.filter (concerns _ _) _ = _ |- _ => rewrite E
          end; reflexivity
        | lia | lia ]
      | ]
  end.

(** When the network answers the call of the refresh, the promise settles
    with the outcome that the answer determines, and the slot is empty. *)
Lemma refresh_settles p f o w :
  outstanding p f w ->
  settled_with p f (promise_outcome (refresh_answer config o))
    (run config [FetchSettles f o; BodySettles f] w).
Proof.
  destruct w as [tok rp tid clk tms fts tks stl nts nid].
  refresh_start. pose (the_call := f).
  match goal with
  | Hf : List.filter (concerns p f) tks = [_] |- _ =>
      assert (Hfetch : List.filter (awaits_fetch f) tks = [AwaitRefreshFetch p f])
        by (rewrite (filter_within (concerns p f) (awaits_fetch f))
              by apply awaits_fetch_concerns;
            rewrite Hf; cbn; now rewrite Pos.eqb_refl);
      assert (Hc : List.filter (concerns p f)
                     (List.filter (fun t => negb (awaits_fetch f t)) tks) = [])
        by (rewrite filter_filter_comm, Hf; cbn; now rewrite Pos.eqb_refl);
      clear Hf
  end.
  destruct (filter_nil_negb (concerns p f) (awaits_body f) _
              (awaits_body_concerns p f) Hc) as [Hb Hnb].
  wp_event. wp_all.
  all: try (wp_event; wp_all).
  all: intros w' Hw'; repeat wp_event.
  all: try apply settled_with_body.
  all: unfold refresh_answer, promise_outcome;
       repeat match goal with E : ?x = _ |- context [?x] => rewrite E end;
       try exact Hw'.
  all: idtac.
Qed.

Ltac wp_known ::= fail.

End RefreshSettles.


Lemma in_flight_nil_In ts a :
  in_flight ts = [] -> In a ts -> refreshing a = None.
Proof.
  unfold in_flight. induction ts as [|b ts IH]; [easy|].
  cbn [omap list_omap]. destruct (refreshing b) eqn:Hb; [discriminate|].
  intros Hts [<-|Hin]; [exact Hb | now apply IH].
Qed.

Lemma own_id_ids t : In (own_id t) (task_ids t).
Proof. destruct t; now left. Qed.

(** In a well-formed world without a refresh under way, no task concerns a
    refresh that is about to start. *)
Lemma concerns_fresh n p f ts :
  forallb (ids_below n) ts = true -> in_flight ts = [] ->
  (n <= p)%positive -> (n <= f)%positive ->
  List.filter (concerns p f) ts = [].
Proof.
  intros Hb Hr Hp Hf. apply filter_none. intros a Ha.
  rewrite forallb_forall in Hb. specialize (Hb a Ha).
  unfold ids_below in Hb. rewrite forallb_forall in Hb.
  unfold concerns. rewrite (in_flight_nil_In ts a Hr Ha). cbn [orb].
  destruct (awaits_fetch f a) eqn:H1.
  { apply awaits_fetch_id, Hb, Pos.ltb_lt in H1. lia. }
  destruct (awaits_body f a) eqn:H2.
  { apply awaits_body_id, Hb, Pos.ltb_lt in H2. lia. }
  pose proof (Hb _ (own_id_ids a)) as H3. apply Pos.ltb_lt in H3.
  cbn [orb]. apply Pos.eqb_neq. lia.
Qed.

Lemma concerns_in_flight p f ts :
  in_flight ts = in_flight (List.filter (concerns p f) ts).
Proof.
  symmetry. apply in_flight_filter_keep. intros t Ht. unfold concerns.
  now destruct (refreshing t).
Qed.

Section Coalescing.
Context `{JSRuntime} (config : JWTManagerConfig).

Lemma one_refresh_run evs w :
  Forall (fun e => e <> CallDestroy) evs ->
  one_refresh [] w -> one_refresh [] (run config evs w).
Proof.
  intros Hevs. revert w.
  induction Hevs as [|e evs He Hevs IH]; intros w Hw; [exact Hw|].
  simpl. apply IH. now apply one_refresh_step.
Qed.

(** The first call of [refreshAccessToken] leaves its refresh
    outstanding. *)
Lemma outstanding_first w :
  well_formed w = true -> refreshPromise w = None ->
  in_flight (tasks w) = [] ->
  outstanding (next_id w) (Pos.succ (next_id w))
    (exec (refreshAccessToken config) w).
Proof.
  intros Hwf Hnone Hr.
  pose proof (well_formed_parts _ Hwf) as [Hts Hst].
  pose proof (find_settled_fresh (next_id w) _ _ Hst ltac:(lia)) as Hfind.
  pose proof (concerns_fresh _ (next_id w) (Pos.succ (next_id w)) _ Hts Hr
                ltac:(lia) ltac:(lia)) as Hc.
  unfold exec. rewrite (refresh_first config w Hnone).
  destruct w as [tok rp tid clk tms fts tks stl nts nid].
  cbn [tasks settled next_id] in Hfind, Hc. cbn [snd].
  unfold outstanding, outcome. fields. rewrite Hfind.
  rewrite List.filter_app, Hc. unfold concerns.
  cbn [List.filter refreshing orb app]. repeat split; try reflexivity; lia.
Qed.

(** Calls of [refreshAccessToken] alone, while a refresh is pending, change
    nothing. *)
Lemma refresh_calls_unchanged p evs w :
  refreshPromise w = Some p ->
  Forall (fun e => e = CallRefreshAccessToken) evs ->
  run config evs w = w.
Proof.
  intros Hp Hevs. induction Hevs as [|e evs -> Hevs IH]; [reflexivity|].
  simpl. unfold exec, bind. rewrite (refresh_pending config w p Hp). exact IH.
Qed.

(** With nothing but the refresh under way, the answer of the network is
    followed by no call. *)
Lemma refresh_alone_fetched o w :
  well_formed w = true -> refreshPromise w = None ->
  fetched (run config [FetchSettles (Pos.succ (next_id w)) o;
                       BodySettles (Pos.succ (next_id w))]
             (exec (refreshAccessToken config) w))
  = fetched w ++ [refresh_call config (Pos.succ (next_id w))].
Proof.
  intros Hwf Hnone.
  pose proof (well_formed_parts _ Hwf) as [Hts _].
  unfold exec at 1. rewrite (refresh_first config w Hnone).
  destruct w as [tok rp tid clk tms fts tks stl nts nid].
  cbn [refreshPromise tasks next_id] in Hnone, Hts. subst rp. cbn [snd]. fields.
  wp_event. wp_all.
  all: wp_event; wp_all; wp_event.
  all: reflexivity.
Qed.

End Coalescing.


Section RefreshCoalesces.
Context `{JSRuntime} (config : JWTManagerConfig).

(** C1, amended.  Take any world that a manager reaches without [destroy],
    with no refresh pending, and call [refreshAccessToken]: it returns a new
    promise [p] and makes one call [f], to the refresh endpoint.  As long as
    that call is outstanding and [destroy] is not called, whatever else
    happens, other calls of the manager, answers of the network to other
    calls, timers, the refresh of [p] is the one refresh under way, [p] has
    not settled, and a call of [refreshAccessToken] returns [p] and changes
    nothing, so that it makes no call.  When the network answers call [f],
    [p] settles with the one outcome that the answer determines, a token or
    an error; the slot is empty and no refresh is under way, whatever the
    outcome; when only [refreshAccessToken] was called in between, [f] is
    the one call that has been made; and the next call of
    [refreshAccessToken] returns a new promise and calls the refresh
    endpoint again. *)
Theorem refresh_coalesces
    (now : Z) (evs0 evs : list Event) (o : error + Response) :
  Forall (fun e => e <> CallDestroy) evs0 ->
  refreshPromise (run config evs0 (initial now)) = None ->
  Forall (fun e =>
            e <> CallDestroy
            /\ forall o', e <> FetchSettles
                                 (Pos.succ (next_id (run config evs0 (initial now))))
                                 o') evs ->
  let w := run config evs0 (initial now) in
  let p := next_id w in
  let f := Pos.succ p in
  let w1 := run config [CallRefreshAccessToken] w in
  let w3 := run config [FetchSettles f o; BodySettles f] (run config evs w1) in
  (refreshAccessToken config w).1 = p
  /\ fetched w1 = fetched w ++ [refresh_call config f]
  /\ (forall evs1 evs2, evs = evs1 ++ evs2 ->
        let w' := run config evs1 w1 in
        refreshAccessToken config w' = (p, w')
        /\ outcome p w' = None
        /\ in_flight (tasks w') = [p])
  /\ outcome p w3 = Some (promise_outcome (refresh_answer config o))
  /\ refreshPromise w3 = None
  /\ in_flight (tasks w3) = []
  /\ (Forall (fun e => e = CallRefreshAccessToken) evs ->
      fetched w3 = fetched w ++ [refresh_call config f])
  /\ (refreshAccessToken config w3).1 <> p
  /\ exists f', fetched (refreshAccessToken config w3).2
                = fetched w3 ++ [refresh_call config f'].
Proof.
  intros Hevs0 Hnone Hevs w p f w1 w3.
  change (refreshPromise w = None) in Hnone.
  change (Forall (fun e => e <> CallDestroy
                           /\ forall o', e <> FetchSettles f o') evs) in Hevs.
  assert (Hwf : well_formed w = true) by apply well_formed_reachable.
  assert (Hidle : in_flight (tasks w) = []).
  { pose proof (one_refresh_run config evs0 (initial now) Hevs0 eq_refl) as Hone.
    fold w in Hone. unfold one_refresh in Hone. now rewrite Hnone in Hone. }
  assert (Hw1 : w1 = exec (refreshAccessToken config) w).
  { subst w1. cbn [run]. unfold exec, step, bind.
    now destruct (refreshAccessToken config w). }
  pose proof (outstanding_first config w Hwf Hnone Hidle) as Hout.
  rewrite <- Hw1 in Hout. fold p f in Hout.
  pose proof (refresh_first config w Hnone) as Hfirst. fold p f in Hfirst.
  split; [now rewrite Hfirst|].
  split; [rewrite Hw1; unfold exec; rewrite Hfirst; now destruct w|].
  split.
  { intros evs1 evs2 -> w'. apply Forall_app in Hevs as [Hevs1 _].
    pose proof (outstanding_run config p f evs1 w1 Hevs1 Hout)
      as (Hslot & Hnot & Hc & _).
    fold w' in Hslot, Hnot, Hc.
    split; [now apply refresh_pending|]. split; [exact Hnot|].
    now rewrite (concerns_in_flight p f), Hc. }
  pose proof (outstanding_run config p f evs w1 Hevs Hout) as Hout2.
  pose proof (refresh_settles config p f o _ Hout2)
    as (Hslot & Hsettled & Hc & Hp & _).
  fold w3 in Hslot, Hsettled, Hc, Hp.
  split; [exact Hsettled|]. split; [exact Hslot|].
  split; [now rewrite (concerns_in_flight p f), Hc|].
  split.
  { intros Hcalls. subst w3.
    destruct Hout as (Hslot1 & _).
    rewrite (refresh_calls_unchanged config p evs w1 Hslot1 Hcalls), Hw1.
    now apply refresh_alone_fetched. }
  rewrite (refresh_first config w3 Hslot). cbn [fst snd].
  split; [lia|]. destruct w3. eexists. reflexivity.
Qed.

End RefreshCoalesces.

(** ** The constructor *)

Section Construction.
Context `{JSRuntime}.

(** X22.  The constructor returns a manager exactly when the configuration
    has a refresh URL that is not empty and an [extractAccessToken]
    function; without the URL it throws 'Refresh URL is required', whatever
    else is missing.  A manager made without [refreshBuffer] works with a
    buffer of 6000 ms: given a token object, it arms its timer for
    [expiresAt - now - 6000] when that is positive. *)
Theorem constructor_validates (c : JWTManagerConfigArg) :
  let rc := arg_refreshConfig c in
  ((exists config, constructor c = inr config) <->
   exists u extract, arg_url rc = Some u /\ u <> ""
                     /\ arg_extractAccessToken rc = Some extract)
  /\ (arg_url rc = None \/ arg_url rc = Some "" ->
      constructor c = inl (Error "Refresh URL is required"))
  /\ (forall config now t e,
        constructor c = inr config ->
        arg_refreshBuffer c = None ->
        expiresAt t = Num e ->
        let w := exec (setAccessToken config (inr t)) (initial now) in
        accessToken w = Some t
        /\ delays (timers w)
           = if 0 <? e - now - 6000 then [e - now - 6000] else []).
Proof.
  cbv zeta. unfold constructor, validateConfig.
  destruct c as [[u m h x] b]. cbn [arg_refreshConfig arg_url arg_method
    arg_headers arg_extractAccessToken arg_refreshBuffer].
  split; [|split].
  - split.
    + intros [config Hc]. destruct u as [u|]; [|discriminate].
      destruct u as [|a u]; [discriminate|]. destruct x as [x|]; [|discriminate].
      exists (String a u), x. repeat split; congruence.
    + intros (u' & x' & -> & Hu & ->). destruct u'; [congruence|].
      eexists. reflexivity.
  - intros [->| ->]; reflexivity.
  - intros config now t e Hc -> He.
    destruct u as [u|]; [|discriminate].
    destruct (negb (truthy (VStr u))); [discriminate|].
    destruct x as [x|]; [|discriminate]. injection Hc as <-.
    match goal with |- context [setAccessToken ?c] => set (cfg := c) end.
    unfold exec. rewrite setAccessToken_unfold. cbv zeta. cbn [snd].
    assert (Hok : timers_ok (set_accessToken (Some t) (initial now)))
      by now left.
    destruct (scheduleTokenRefresh_spec cfg _ Hok) as (-> & _ & -> & _).
    split; [reflexivity|]. unfold scheduled, delays.
    cbn [initial set_accessToken accessToken clock refreshBuffer next_id
         default from_option id].
    rewrite He. subst cfg. cbn [refreshBuffer].
    now destruct (0 <? e - now - 6000).
Qed.

End Construction.

(** ** What goes to the network *)

Section Calls.
Context `{JSRuntime} (config : JWTManagerConfig).

(** X24.  The call that a refresh makes.  It goes to the refresh URL with
    the method of the configuration, 'POST' when there is none, with
    credentials included and without a body.  Its headers are those of the
    configuration, each with its value, and 'Content-Type', which is
    'application/json' unless the configuration says otherwise; there is no
    other header, so the access token is not sent along. *)
Theorem refresh_call_shape (w : World) :
  refreshPromise w = None ->
  let rc := refreshConfig config in
  let configured k := refresh_headers rc ≫= fun hs => hs !! k in
  exists call,
    fetched (exec (refreshAccessToken config) w) = fetched w ++ [call]
    /\ call_url call = refresh_url rc
    /\ init_method (call_init call)
       = match refresh_method rc with
         | Some POST | None => "POST"
         | Some PUT => "PUT"
         | Some PATCH => "PATCH"
         end
    /\ init_credentials (call_init call) = "include"
    /\ init_body (call_init call) = None
    /\ init_headers (call_init call) !! "Content-Type"
       = Some (default "application/json" (configured "Content-Type"))
    /\ forall k, k <> "Content-Type" ->
         init_headers (call_init call) !! k = configured k.
Proof.
  intros Hnone. cbv zeta. unfold exec. rewrite (refresh_first config w Hnone).
  destruct w as [tok rp tid clk tms fts tks stl nts nid]. cbn [snd]. fields.
  eexists. split; [reflexivity|]. unfold refresh_call, refresh_init.
  cbn [call_url call_init init_method init_credentials init_body init_headers].
  split; [reflexivity|]. split.
  { destruct (refresh_method (refreshConfig config)) as [[]|]; reflexivity. }
  split; [reflexivity|]. split; [reflexivity|].
  destruct (refresh_headers (refreshConfig config)) as [hs|];
    cbn [default from_option id mbind option_bind].
  - split.
    + rewrite lookup_union, lookup_singleton_eq.
      now destruct (hs !! "Content-Type").
    + intros k Hk. rewrite lookup_union, lookup_singleton_ne by congruence.
      now destruct (hs !! k).
  - split.
    + now rewrite lookup_union, lookup_empty, lookup_singleton_eq.
    + intros k Hk.
      now rewrite lookup_union, lookup_empty, lookup_singleton_ne by congruence.
Qed.

(** X25.  The call that [request] makes with the current token.  It goes to
    the URL of the request.  Without [options], its method is the one given,
    'GET' when none or an empty one is given; credentials are included; and
    it has a body, [JSON.stringify] of the one given, only when the body
    given is truthy: [undefined], [null], [false], [0] and the empty string
    are not sent.  A key of [options] takes the place of what [request]
    computes for it. *)
Theorem request_call_shape (w : World) (t : JWTToken) (rq : RequestConfig) :
  accessToken w = Some t ->
  isTokenExpired (clock w) t (refreshBuffer config) = false ->
  exists call,
    fetched (exec (request config rq) w) = fetched w ++ [call]
    /\ call_url call = url rq
    /\ (options rq = no_options ->
        init_method (call_init call)
        = match method rq with
          | Some "" | None => "GET"
          | Some m => m
          end
        /\ init_credentials (call_init call) = "include"
        /\ init_body (call_init call)
           = match body rq with
             | VUndefined | VNull | VBool false | VNum (Num 0) | VNum NaN
             | VStr "" => None
             | b => Some (JSON_stringify b)
             end)
    /\ (forall m, opt_method (options rq) = Some m ->
                  init_method (call_init call) = m)
    /\ (forall c, opt_credentials (options rq) = Some c ->
                  init_credentials (call_init call) = c)
    /\ (forall b, opt_body (options rq) = Some b ->
                  init_body (call_init call) = b)
    /\ (forall hs, opt_headers (options rq) = Some hs ->
                   init_headers (call_init call) = hs).
Proof.
  destruct w as [tok rp tid clk tms fts tks stl nts nid].
  cbn [accessToken clock]. intros -> Hexp.
  apply wp_exec. wp_all. eexists. split; [reflexivity|].
  cbn [call_url call_init]. split; [reflexivity|].
  unfold request_init, spread_options.
  cbn [init_method init_credentials init_body init_headers].
  split; [|repeat split; intros ? ->; reflexivity].
  intros ->. cbn [no_options opt_method opt_credentials opt_body default
                  from_option id].
  split; [|split; [reflexivity|]].
  - destruct (method rq) as [[|c m]|]; reflexivity.
  - destruct (body rq) as [| |[]|[[]|]|[]| |]; reflexivity.
Qed.

End Calls.

(** ** The claims of the specification that the code does not meet, at
       concrete inputs *)

(** C1 as stated fails: [destroy] is called while the call of a first
    [refreshAccessToken] is outstanding, and a second [refreshAccessToken],
    made before that call is answered, returns another promise and calls
    the refresh endpoint a second time; the two promises resolve each with
    the token of its own call.  The answer to the first call also empties
    the slot under the second refresh: a third [refreshAccessToken], made
    while the call of the second, which came after [destroy], is
    outstanding, calls the endpoint a third time. *)
Lemma refresh_after_destroy_fetches_again :
  let first := inr (demo_response 200 "a.b.c") in
  let second := inr (demo_response 200 "d.e.f") in
  let w1 := demo_run [CallRefreshAccessToken; CallDestroy] (initial 0) in
  let w2 := demo_run [CallRefreshAccessToken] w1 in
  let w3 := demo_run [FetchSettles 2%positive first; BodySettles 2%positive;
                      FetchSettles 4%positive second; BodySettles 4%positive]
              w2 in
  let w4 := demo_run [FetchSettles 2%positive first; BodySettles 2%positive]
              w2 in
  let w5 := demo_run [CallRefreshAccessToken] w4 in
  (refreshAccessToken demo_config (initial 0)).1 = 1%positive
  /\ tasks w1 = [AwaitRefreshFetch 1 2]
  /\ outcome 1%positive w1 = None
  /\ (refreshAccessToken demo_config w1).1 = 3%positive
  /\ 3%positive <> 1%positive
  /\ fetched w2 = [refresh_call demo_config 2; refresh_call demo_config 4]
  /\ length (fetched w2) <> 1%nat
  /\ outcome 1%positive w3
     = Some (Resolved (RToken {| token := "a.b.c"; expiresAt := Num 5000000 |}))
  /\ outcome 3%positive w3
     = Some (Resolved (RToken {| token := "d.e.f"; expiresAt := Num 5000000 |}))
  /\ outcome 1%positive w3 <> outcome 3%positive w3
  /\ tasks w4 = [AwaitRefreshFetch 3 4]
  /\ outcome 3%positive w4 = None
  /\ (refreshAccessToken demo_config w4).1 = 6%positive
  /\ 6%positive <> 3%positive
  /\ fetched w5
     = [refresh_call demo_config 2; refresh_call demo_config 4;
        refresh_call demo_config 7].
Proof. repeat split; vm_compute; (reflexivity || discriminate). Qed.

(** C2.  The code at an input where it departs from the claim: the caller
    supplies an 'Authorization' header, and the request goes out with it
    instead of the bearer header of the current token.  On the retry after a
    401 the same function does put the bearer header in its place. *)
Lemma caller_authorization_replaces_bearer :
  let rq := {| url := "https://api.example.com/data"; method := None;
               headers := Some {[ "Authorization" := "Basic dXNlcg==" ]};
               body := VUndefined; options := no_options |} in
  let sent (w : World) :=
    (fun c => (call_url c, init_headers (call_init c) !! "Authorization"))
      <$> fetched w in
  let w := demo_run [CallRequest rq] signed_in in
  let w' := demo_run [FetchSettles 3 (inr (demo_response 401 ""));
                      FetchSettles 5 (inr (demo_response 200 "d.e.f"));
                      BodySettles 5] w in
  (token <$> accessToken signed_in) = Some "h.exp2000.s"
  /\ sent w = [("https://api.example.com/data", Some "Basic dXNlcg==")]
  /\ Some "Basic dXNlcg==" <> Some (bearer "h.exp2000.s")
  /\ sent w'
     = [("https://api.example.com/data", Some "Basic dXNlcg==");
        ("https://api.example.com/auth/refresh", None);
        ("https://api.example.com/data", Some (bearer "d.e.f"))].
Proof. repeat split; vm_compute; (reflexivity || discriminate). Qed.

(** C3 as stated fails: the request gets 401, the refresh endpoint answers
    401 too, and [onAuthFailure] is invoked twice. *)
Lemma refresh_unauthorized_notifies_twice :
  let w := demo_run [FetchSettles 3%positive (inr (demo_response 401 ""));
                     FetchSettles 5%positive (inr (demo_response 401 ""))] requesting in
  auth_failures requesting = 0%nat
  /\ auth_failures w = 2%nat
  /\ auth_failures w <> S (auth_failures requesting)
  /\ accessToken w = None
  /\ outcome 2%positive w
     = Some (Rejected (NoValidTokenError "Authentication required")).
Proof. repeat split; vm_compute; (reflexivity || discriminate). Qed.

(** C4.  The code at an input where it departs from the claim, and from
    what is written of [destroy]: a refresh is in flight when [destroy] is
    called; when its call is answered the refresh stores the token and arms
    a timer, which fires a refresh of its own. *)
Lemma refresh_in_flight_outlives_destroy :
  let w := demo_run [CallRefreshAccessToken; CallDestroy;
                     FetchSettles 2%positive (inr (demo_response 200 "a.b.c"));
                     BodySettles 2%positive] (initial 0) in
  let w' := demo_run [Tick 4994000; TimerFires 3%positive] w in
  accessToken w = Some {| token := "a.b.c"; expiresAt := Num 5000000 |}
  /\ accessToken w <> None
  /\ timers w = [(3%positive, 4994000)]
  /\ timers w <> []
  /\ call_url <$> fetched w = ["https://api.example.com/auth/refresh"]
  /\ call_url <$> fetched w'
     = ["https://api.example.com/auth/refresh";
        "https://api.example.com/auth/refresh"].
Proof. repeat split; vm_compute; (reflexivity || discriminate). Qed.

(** C5 as stated fails: called without a current token, a request whose
    first response is 401 and whose refresh then succeeds makes four calls,
    two of them to the refresh endpoint. *)
Lemma request_without_token_makes_four_calls :
  let w := demo_run [CallRequest demo_request;
                     FetchSettles 3%positive (inr (demo_response 200 "a.b.c"));
                     BodySettles 3%positive;
                     FetchSettles 5%positive (inr (demo_response 401 ""));
                     FetchSettles 7%positive (inr (demo_response 200 "d.e.f"));
                     BodySettles 7%positive;
                     FetchSettles 9%positive (inr (demo_response 200 "data"));
                     BodySettles 9%positive] (initial 0) in
  call_url <$> fetched w
  = ["https://api.example.com/auth/refresh"; "https://api.example.com/data";
     "https://api.example.com/auth/refresh"; "https://api.example.com/data"]
  /\ length (fetched w) <> 3%nat
  /\ outcome 1%positive w
     = Some (Resolved (RResponse
               (authenticated (demo_response 200 "data") (VStr "data")))).
Proof. repeat split; vm_compute; (reflexivity || discriminate). Qed.

(** C6 as stated fails: [setAccessToken] with a token object stores a token
    whose string does not pass [isValidJWTFormat]. *)
Lemma token_object_stored_unchecked :
  let t := {| token := "invalid-token"; expiresAt := Num 0 |} in
  let w := demo_run [CallSetAccessToken (inr t)] (initial 0) in
  accessToken w = Some t /\ ~ token_ok w.
Proof. split; [reflexivity|]. vm_compute. discriminate. Qed.


(** ** The theorems at concrete inputs *)

Lemma isValidJWTFormat_three_segments_witness :
  isValidJWTFormat (VStr "header.payload.signature") = true
  /\ isValidJWTFormat (VStr "header.payload") = false
  /\ isValidJWTFormat (VStr "header..signature") = false.
Proof.
  destruct isValidJWTFormat_three_segments as (Hiff & Hcount & _).
  split; [|split].
  - apply Hiff. exists "header", "payload", "signature".
    repeat split; try discriminate; vm_compute; intros [=].
  - apply Hcount. vm_compute. discriminate.
  - reflexivity.
Defined.

Lemma refresh_coalesces_witness :
  let o : error + Response := inr (demo_response 200 "a.b.c") in
  let evs := [CallRefreshAccessToken; CallRefreshAccessToken] in
  let w := @run demo_runtime demo_config [] (initial 0) in
  let p := next_id w in
  let f := Pos.succ p in
  let w1 := @run demo_runtime demo_config [CallRefreshAccessToken] w in
  let w2 := @run demo_runtime demo_config evs w1 in
  let w3 := @run demo_runtime demo_config [FetchSettles f o; BodySettles f] w2 in
  Forall (fun e => e <> CallDestroy
                   /\ forall o', e <> FetchSettles f o') evs
  /\ (refreshAccessToken demo_config w).1 = p
  /\ refreshAccessToken demo_config w2 = (p, w2)
  /\ outcome p w3
     = Some (Resolved (RToken {| token := "a.b.c"; expiresAt := Num 5000000 |}))
  /\ refreshPromise w3 = None
  /\ fetched w3 = fetched w ++ [refresh_call demo_config f].
Proof.
  cbv zeta.
  assert (Hevs0 : Forall (fun e => e <> CallDestroy) []) by constructor.
  assert (Hevs : Forall
            (fun e => e <> CallDestroy
               /\ forall o', e <> FetchSettles
                    (Pos.succ (next_id (@run demo_runtime demo_config []
                                          (initial 0)))) o')
            [CallRefreshAccessToken; CallRefreshAccessToken]).
  { repeat constructor; (discriminate || (intros o'; discriminate)). }
  assert (Hcalls : Forall (fun e => e = CallRefreshAccessToken)
                     [CallRefreshAccessToken; CallRefreshAccessToken]).
  { repeat constructor. }
  split; [exact Hevs|].
  pose proof (@refresh_coalesces demo_runtime demo_config 0 []
                [CallRefreshAccessToken; CallRefreshAccessToken]
                (inr (demo_response 200 "a.b.c")) Hevs0 eq_refl Hevs) as Hthm.
  cbv zeta in Hthm.
  destruct Hthm as (H1 & _ & H3 & H4 & H5 & _ & H7 & _).
  split; [exact H1|].
  split; [exact (proj1 (H3 _ [] (eq_sym (app_nil_r _))))|].
  split; [etransitivity; [exact H4 | vm_compute; reflexivity]|].
  split; [exact H5|]. exact (H7 Hcalls).
Defined.

Lemma request_refresh_failure_witness :
  let hdrs := request_headers demo_request "h.exp2000.s" in
  let w' := demo_run [FetchSettles 3 (inr (demo_response 401 ""));
                      FetchSettles 5 offline; BodySettles 5] requesting in
  well_formed requesting = true
  /\ refreshPromise requesting = None
  /\ List.filter (awaits_fetch 3) (tasks requesting)
     = [AwaitRequestFetch 2 3 demo_request hdrs]
  /\ accessToken w' = None
  /\ outcome 2 w'
     = Some (Rejected (NoValidTokenError "Authentication required"))
  /\ auth_failures w' = (auth_failures requesting + 1)%nat.
Proof.
  cbv zeta.
  split; [reflexivity|]. split; [reflexivity|]. split; [reflexivity|].
  apply (@request_refresh_failure demo_runtime demo_config requesting 2 3
           demo_request (request_headers demo_request "h.exp2000.s")
           (demo_response 401 "") offline);
    try reflexivity.
  eexists. reflexivity.
Defined.

Lemma request_refresh_retry_witness :
  let hdrs := request_headers demo_request "h.exp2000.s" in
  let t := {| token := "d.e.f"; expiresAt := Num 5000000 |} in
  let r2 := demo_response 401 "" in
  let w1 := @run demo_runtime demo_config
              [FetchSettles 3 (inr (demo_response 401 ""));
               FetchSettles (Pos.succ (next_id requesting))
                 (inr (demo_response 200 "d.e.f"));
               BodySettles (Pos.succ (next_id requesting))] requesting in
  well_formed requesting = true
  /\ refreshPromise requesting = None
  /\ List.filter (awaits_fetch 3) (tasks requesting)
     = [AwaitRequestFetch 2 3 demo_request hdrs]
  /\ read_body r2 = inr (VStr "")
  /\ exists f2,
       fetched w1
       = fetched requesting
         ++ [refresh_call demo_config (Pos.succ (next_id requesting));
             @retry_call demo_runtime f2 demo_request hdrs t]
       /\ let w2 := @run demo_runtime demo_config
                      [FetchSettles f2 (inr r2); BodySettles f2] w1 in
          outcome 2 w2
          = Some (Resolved (RResponse (authenticated r2 (VStr ""))))
          /\ fetched w2 = fetched w1.
Proof.
  cbv zeta.
  split; [reflexivity|]. split; [reflexivity|]. split; [reflexivity|].
  assert (Hbody : read_body (demo_response 401 "") = inr (VStr ""))
    by reflexivity.
  split; [exact Hbody|].
  destruct (@request_refresh_retry demo_runtime demo_config requesting 2 3
              demo_request (request_headers demo_request "h.exp2000.s")
              (demo_response 401 "") (inr (demo_response 200 "d.e.f"))
              {| token := "d.e.f"; expiresAt := Num 5000000 |}
              eq_refl eq_refl eq_refl eq_refl eq_refl)
    as (f2 & Hcalls & _ & Hretry).
  exists f2. split; [exact Hcalls|].
  exact (Hretry (demo_response 401 "") (VStr "") Hbody).
Defined.

Lemma at_most_one_timer_witness :
  let e := TokenRefreshError "Failed to refresh access token"
             (Error "Failed to fetch") in
  let w' := demo_run [TimerFires 1; FetchSettles 3 offline; BodySettles 3]
              timer_armed in
  timers_ok timer_armed
  /\ existsb (is_armed 1) (timers timer_armed) = true
  /\ (length (timers (demo_run [CallClearAccessToken] timer_armed)) <= 1)%nat
  /\ outcome 2 w' = Some (Rejected e)
  /\ outcome 4 w' = Some (Resolved RUndefined)
  /\ last (notices w') = Some (console_warn e).
Proof.
  cbv zeta.
  assert (Hok : timers_ok timer_armed).
  { right. exists 1%positive, 4000. split; reflexivity. }
  split; [exact Hok|]. split; [reflexivity|].
  destruct (@at_most_one_timer demo_runtime demo_config timer_armed
              [CallClearAccessToken] Hok) as (Hone & _ & _ & Hfires).
  split; [exact Hone|].
  destruct (Hfires 1%positive offline _ eq_refl eq_refl eq_refl eq_refl)
    as (_ & Hp & Hc & Hwarn & _).
  repeat split; assumption.
Defined.

Lemma destroy_cancels_timer_only_witness :
  let t := {| token := "a.b.c"; expiresAt := Num 5000000 |} in
  let w1 := demo_run [CallRefreshAccessToken; CallDestroy] signed_in in
  let w2 := demo_run [FetchSettles 3 (inr (demo_response 200 "a.b.c"));
                      BodySettles 3] w1 in
  timers_ok signed_in
  /\ timers signed_in = [(1%positive, 1994000)]
  /\ timers (exec destroy signed_in) = []
  /\ accessToken w1 = None
  /\ accessToken w2 = Some t.
Proof.
  cbv zeta.
  assert (Hok : timers_ok signed_in).
  { right. exists 1%positive, 1994000. split; reflexivity. }
  split; [exact Hok|]. split; [reflexivity|].
  destruct (@destroy_cancels_timer_only demo_runtime demo_config signed_in Hok)
    as ((_ & _ & _ & Hnone & _) & Hflight).
  split; [exact Hnone|].
  destruct (Hflight (inr (demo_response 200 "a.b.c"))
              {| token := "a.b.c"; expiresAt := Num 5000000 |}
              eq_refl eq_refl eq_refl)
    as (_ & H1 & _ & H2 & _).
  split; assumption.
Defined.

Lemma current_token_format_witness :
  let evs := [CallSetAccessToken (inl "h.exp2000.s");
              CallSetAccessToken (inr {| token := "a.b.c"; expiresAt := Num 1 |});
              CallClearAccessToken] in
  token_ok (initial 0)
  /\ Forall event_ok evs
  /\ token_ok (demo_run evs (initial 0)).
Proof.
  cbv zeta.
  assert (Hevs : Forall event_ok
                   [CallSetAccessToken (inl "h.exp2000.s");
                    CallSetAccessToken
                      (inr {| token := "a.b.c"; expiresAt := Num 1 |});
                    CallClearAccessToken]).
  { repeat constructor. }
  split; [exact I|]. split; [exact Hevs|].
  exact (proj2 (@current_token_format demo_runtime demo_config 0 (initial 0) _
                  I Hevs)).
Defined.

Lemma decodeJWT_reads_payload_only_witness :
  @decodeJWT demo_runtime "h.exp2000.s" = @decodeJWT demo_runtime "x.exp2000.y"
  /\ @decodeJWT demo_runtime "h.exp2000.s"
     = inr (VObj [("sub", VStr "user123"); ("exp", VNum (Num 2000))]).
Proof.
  split; [|reflexivity].
  apply (@decodeJWT_reads_payload_only demo_runtime "h" "exp2000" "s" "x" "y");
    cbn; repeat split; discriminate.
Defined.

Lemma decodeJWT_url_safe_alphabet_witness :
  @decodeJWT demo_runtime "h.a-b_c.s" = @decodeJWT demo_runtime "h.a+b/c.s".
Proof.
  apply (@decodeJWT_url_safe_alphabet demo_runtime "h" "a-b_c" "s");
    cbn; repeat split; discriminate.
Defined.

Lemma decodeJWT_errors_witness :
  @decodeJWT demo_runtime "invalid.token" = inl (Error "Invalid JWT token format")
  /\ @decodeJWT demo_runtime ".." = inl (Error "Failed to decode JWT token").
Proof.
  split.
  - apply (proj1 (@decodeJWT_errors demo_runtime "invalid.token")).
    vm_compute. discriminate.
  - destruct (@decodeJWT demo_runtime "..") as [e|v] eqn:Hd; [|discriminate].
    f_equal.
    apply (proj2 (proj2 (@decodeJWT_errors demo_runtime ".."))) with (e := e).
    + reflexivity.
    + discriminate.
    + intros d e'. cbn.
      destruct (String.eqb d "exp2000"); [discriminate|].
      destruct (String.eqb d "exp0"); [discriminate|].
      destruct (String.eqb d "noexp"); [discriminate|].
      intros [= <-]. discriminate.
    + exact Hd.
Defined.

Lemma isTokenExpired_monotone_witness :
  let t := {| token := "a.b.c"; expiresAt := Num 10000 |} in
  isTokenExpired 4000 t 6000 = true
  /\ isTokenExpired 5000 t 6000 = true
  /\ (isTokenExpired 3999 t 6000 = true <-> 10000 - 6000 <= 3999).
Proof.
  cbv zeta.
  pose proof (isTokenExpired_monotone 4000 5000 6000 6000
                {| token := "a.b.c"; expiresAt := Num 10000 |}) as (Hm & _).
  pose proof (isTokenExpired_monotone 3999 0 6000 0
                {| token := "a.b.c"; expiresAt := Num 10000 |}) as (_ & Hp & _).
  split; [reflexivity|]. split.
  - apply Hm; [lia | lia | reflexivity].
  - apply Hp. reflexivity.
Defined.

Lemma setAccessToken_throws_unchanged_witness :
  (@setAccessToken demo_runtime demo_config (inl "invalid-token") signed_in).1
  = inl (Error "Invalid JWT token format")
  /\ (@setAccessToken demo_runtime demo_config (inl "invalid-token") signed_in).2
     = signed_in.
Proof.
  split; [reflexivity|].
  apply (@setAccessToken_throws_unchanged demo_runtime demo_config
           (inl "invalid-token") (Error "Invalid JWT token format") signed_in).
  reflexivity.
Defined.

Lemma setAccessToken_stores_witness :
  let w' := (@setAccessToken demo_runtime demo_config (inl "h.exp2000.s")
               (initial 0)).2 in
  timers_ok (initial 0)
  /\ exists t, getCurrentAccessToken w' = (Some t, w')
               /\ token t = "h.exp2000.s"
               /\ timers w' = scheduled demo_config
                                (set_accessToken (Some t) (initial 0)).
Proof.
  cbv zeta.
  assert (Hok : timers_ok (initial 0)) by now left.
  split; [exact Hok|].
  destruct (@setAccessToken_stores demo_runtime demo_config (inl "h.exp2000.s")
              (initial 0) Hok eq_refl)
    as (t & Hget & [_ Htok] & Htimers & _).
  exists t. repeat split; assumption.
Defined.

Lemma clearAccessToken_clears_witness :
  timers signed_in = [(1%positive, 1994000)]
  /\ accessToken (exec clearAccessToken signed_in) = None
  /\ timers (exec clearAccessToken signed_in) = [].
Proof.
  assert (Hok : timers_ok signed_in).
  { right. exists 1%positive, 1994000. split; reflexivity. }
  destruct (@clearAccessToken_clears demo_runtime demo_config signed_in Hok)
    as (Htok & _ & Htimers & _).
  split; [reflexivity|]. split; assumption.
Defined.

Lemma hasValidAccessToken_getAccessToken_witness :
  (getAccessToken_begin demo_config signed_in).1
  = inl "h.exp2000.s"
  /\ (hasValidAccessToken signed_in).1 = true
  /\ (hasValidAccessToken (demo_run [Tick 1995000] signed_in)).1 = true
  /\ exists p m,
       (getAccessToken_begin demo_config
          (demo_run [Tick 1995000] signed_in)).1 = inr (p, m).
Proof.
  split; [reflexivity|]. split.
  - apply (proj1 (proj2 (proj2
             (hasValidAccessToken_getAccessToken demo_config
                signed_in))))
      with (s := "h.exp2000.s"); [cbn; lia | reflexivity].
  - apply (proj2 (proj2 (proj2
             (hasValidAccessToken_getAccessToken demo_config
                (demo_run [Tick 1995000] signed_in)))))
      with (t := {| token := "h.exp2000.s"; expiresAt := Num 2000000 |})
           (e := 2000000);
      [reflexivity | reflexivity |].
    change (clock (demo_run [Tick 1995000] signed_in)) with 1995000.
    change (refreshBuffer demo_config) with 6000. lia.
Defined.

Lemma getAccessToken_current_witness :
  let w' := exec (getAccessToken demo_config) signed_in in
  isTokenExpired (clock signed_in)
    {| token := "h.exp2000.s"; expiresAt := Num 2000000 |} 6000 = false
  /\ outcome 2 w' = Some (Resolved (RString "h.exp2000.s"))
  /\ fetched w' = fetched signed_in.
Proof.
  cbv zeta. split; [reflexivity|].
  destruct (getAccessToken_current demo_config signed_in
              {| token := "h.exp2000.s"; expiresAt := Num 2000000 |}
              eq_refl eq_refl) as (Hout & Hfetched & _).
  split; assumption.
Defined.

Lemma getAccessToken_refreshes_witness :
  let w1 := demo_run [CallGetAccessToken] (initial 0) in
  let w2 := demo_run [FetchSettles 3 offline; BodySettles 3] w1 in
  fetched w1 = [refresh_call demo_config 3]
  /\ outcome 1 w2
     = Some (Rejected (NoValidTokenError
                         "No access token available and refresh failed")).
Proof.
  cbv zeta.
  destruct (@getAccessToken_refreshes demo_runtime demo_config (initial 0)
              offline eq_refl eq_refl ltac:(discriminate))
    as (Hcall & _ & _ & Hout).
  split; assumption.
Defined.

Lemma getAccessToken_shares_refresh_witness :
  let w := initial 0 in
  let g1 := next_id w in
  let f := Pos.succ (Pos.succ g1) in
  let g2 := Pos.succ f in
  let w1 := @run demo_runtime demo_config
              [CallGetAccessToken; CallGetAccessToken] w in
  let w2 := @run demo_runtime demo_config
              [FetchSettles f (inr (demo_response 200 "a.b.c")); BodySettles f]
              w1 in
  let w2' := @run demo_runtime demo_config
               [FetchSettles f offline; BodySettles f] w1 in
  let failed :=
    Rejected (NoValidTokenError "No access token available and refresh failed") in
  fetched w1 = fetched w ++ [refresh_call demo_config f]
  /\ outcome g1 w2 = Some (Resolved (RString "a.b.c"))
  /\ outcome g2 w2 = Some (Resolved (RString "a.b.c"))
  /\ outcome g1 w2' = Some failed
  /\ outcome g2 w2' = Some failed.
Proof.
  cbv zeta.
  assert (Hexp : forall t, accessToken (initial 0) = Some t ->
                   isTokenExpired (clock (initial 0)) t
                     (refreshBuffer demo_config) = true)
    by discriminate.
  pose proof (@getAccessToken_shares_refresh demo_runtime demo_config
                (initial 0) (inr (demo_response 200 "a.b.c"))
                eq_refl eq_refl Hexp) as Hok.
  pose proof (@getAccessToken_shares_refresh demo_runtime demo_config
                (initial 0) offline eq_refl eq_refl Hexp) as Hfailed.
  cbv zeta in Hok, Hfailed.
  destruct Hok as (Hcall & _ & _ & _ & H1 & H2).
  destruct Hfailed as (_ & _ & _ & _ & H3 & H4).
  split; [exact Hcall|].
  split; [etransitivity; [exact H1 | vm_compute; reflexivity]|].
  split; [etransitivity; [exact H2 | vm_compute; reflexivity]|].
  split; [etransitivity; [exact H3 | vm_compute; reflexivity]|].
  etransitivity; [exact H4 | vm_compute; reflexivity].
Defined.

Lemma request_resolves_with_response_witness :
  let r := demo_response 500 "oops" in
  let w2 := demo_run [CallRequest demo_request; FetchSettles 3 (inr r);
                      BodySettles 3] signed_in in
  status r <> 401
  /\ outcome 2 w2 = Some (Resolved (RResponse (authenticated r (VStr "oops"))))
  /\ accessToken w2 = accessToken signed_in
  /\ notices w2 = [].
Proof.
  cbv zeta. split; [discriminate|].
  destruct (@request_resolves_with_response demo_runtime demo_config signed_in
              {| token := "h.exp2000.s"; expiresAt := Num 2000000 |}
              demo_request (inr (demo_response 500 "oops"))
              eq_refl eq_refl eq_refl)
    as (_ & _ & Hout & Htok & _ & _ & Hnotices).
  - intros r [= <-]. discriminate.
  - repeat split; assumption.
Defined.



Lemma refresh_success_stores_witness :
  let t := {| token := "a.b.c"; expiresAt := Num 5000000 |} in
  let w' := demo_run [CallRefreshAccessToken;
                      FetchSettles 3 (inr (demo_response 200 "a.b.c"));
                      BodySettles 3] signed_in in
  timers_ok signed_in
  /\ accessToken w' = Some t
  /\ delays (timers w') = [4994000]
  /\ notices w' = [onTokenRefresh t].
Proof.
  cbv zeta.
  assert (Hok : timers_ok signed_in).
  { right. exists 1%positive, 1994000. split; reflexivity. }
  split; [exact Hok|].
  destruct (@refresh_success_stores demo_runtime demo_config signed_in
              (inr (demo_response 200 "a.b.c"))
              {| token := "a.b.c"; expiresAt := Num 5000000 |}
              eq_refl Hok eq_refl eq_refl)
    as (Htok & Hdelays & _ & Hnotices & _).
  repeat split; assumption.
Defined.

Lemma refresh_failure_notifies_witness :
  let e := TokenRefreshError "Failed to refresh access token"
             (Error "HTTP 401: ") in
  let w' := demo_run [CallRefreshAccessToken;
                      FetchSettles 3 (inr (demo_response 401 ""));
                      BodySettles 3] signed_in in
  let w'' := demo_run [CallRefreshAccessToken; FetchSettles 3 offline;
                       BodySettles 3] signed_in in
  timers_ok signed_in
  /\ notices w' = [onAuthFailure; onTokenRefreshError e]
  /\ accessToken w' = None
  /\ accessToken w'' = accessToken signed_in
  /\ timers w'' = timers signed_in.
Proof.
  cbv zeta.
  assert (Hok : timers_ok signed_in).
  { right. exists 1%positive, 1994000. split; reflexivity. }
  split; [exact Hok|].
  destruct (@refresh_failure_notifies demo_runtime demo_config signed_in
              (inr (demo_response 401 "")) _ eq_refl Hok eq_refl eq_refl)
    as (_ & _ & Hnotices & [Htok _] & _).
  destruct (@refresh_failure_notifies demo_runtime demo_config signed_in
              offline _ eq_refl Hok eq_refl eq_refl)
    as (_ & _ & _ & [Hkept Htimers] & _).
  repeat split; assumption.
Defined.

Lemma timer_refresh_reschedules_witness :
  let t := {| token := "a.b.c"; expiresAt := Num 5000000 |} in
  let o : error + Response := inr (demo_response 200 "a.b.c") in
  let w := timer_armed in
  let f := Pos.succ (next_id w) in
  let w1 := @run demo_runtime demo_config [TimerFires 1] w in
  let w2 := @run demo_runtime demo_config [FetchSettles f o; BodySettles f] w1 in
  let v := @run demo_runtime demo_config [CallRefreshAccessToken] timer_armed in
  let v1 := @run demo_runtime demo_config [TimerFires 1] v in
  timers_ok w
  /\ existsb (is_armed 1) (timers w) = true
  /\ timers w1 = []
  /\ fetched w1 = fetched w ++ [refresh_call demo_config f]
  /\ accessToken w2 = Some t
  /\ delays (timers w2) = [4989000]
  /\ timers_ok v
  /\ refreshPromise v = Some 2%positive
  /\ timers v1 = []
  /\ fetched v1 = fetched v.
Proof.
  cbv zeta.
  assert (Hok : timers_ok timer_armed).
  { right. exists 1%positive, 4000. split; reflexivity. }
  assert (Hok' : timers_ok (@run demo_runtime demo_config
                              [CallRefreshAccessToken] timer_armed)).
  { right. exists 1%positive, 4000. split; reflexivity. }
  split; [exact Hok|]. split; [reflexivity|].
  pose proof (@timer_refresh_reschedules demo_runtime demo_config timer_armed 1
                (inr (demo_response 200 "a.b.c"))
                {| token := "a.b.c"; expiresAt := Num 5000000 |}
                eq_refl Hok eq_refl) as Hthm.
  pose proof (@timer_refresh_reschedules demo_runtime demo_config
                (@run demo_runtime demo_config [CallRefreshAccessToken]
                   timer_armed) 1
                (inr (demo_response 200 "a.b.c"))
                {| token := "a.b.c"; expiresAt := Num 5000000 |}
                eq_refl Hok' eq_refl) as Hpending.
  cbv zeta in Hthm, Hpending.
  destruct Hthm as (Hfired & _ & Hidle).
  destruct (Hidle eq_refl) as (Hcall & Hanswered).
  destruct (Hanswered eq_refl) as (Htok & Hdelays & _).
  destruct Hpending as (Hfired' & Hp & _).
  destruct (Hp 2%positive eq_refl) as (Hsame & _).
  split; [exact Hfired|]. split; [exact Hcall|]. split; [exact Htok|].
  split; [etransitivity; [exact Hdelays | vm_compute; reflexivity]|].
  split; [exact Hok'|]. split; [reflexivity|].
  split; [exact Hfired'|]. exact Hsame.
Defined.

Lemma clearAccessToken_keeps_refresh_in_flight_witness :
  let t := {| token := "a.b.c"; expiresAt := Num 5000000 |} in
  let w1 := demo_run [CallRefreshAccessToken; CallClearAccessToken] signed_in in
  let w2 := demo_run [FetchSettles 3 (inr (demo_response 200 "a.b.c"));
                      BodySettles 3] w1 in
  timers_ok signed_in
  /\ accessToken w1 = None
  /\ accessToken w2 = Some t.
Proof.
  cbv zeta.
  assert (Hok : timers_ok signed_in).
  { right. exists 1%positive, 1994000. split; reflexivity. }
  split; [exact Hok|].
  destruct (@clearAccessToken_keeps_refresh_in_flight demo_runtime demo_config
              signed_in (inr (demo_response 200 "a.b.c"))
              {| token := "a.b.c"; expiresAt := Num 5000000 |}
              eq_refl Hok eq_refl eq_refl)
    as (Hnone & _ & _ & Htok & _).
  split; assumption.
Defined.

Lemma timer_only_with_token_witness :
  let w' := demo_run [CallSetAccessToken (inl "h.exp2000.s"); Tick 1000]
              (initial 0) in
  timer_for_token (initial 0)
  /\ In (1%positive, 1994000) (timers w')
  /\ timers w' = [(1%positive, 1994000)]
  /\ exists t, accessToken w' = Some t.
Proof.
  cbv zeta.
  assert (Hw : timer_for_token (initial 0)).
  { split; [now left|]. split; [easy|constructor]. }
  split; [exact Hw|].
  destruct (@timer_only_with_token demo_runtime demo_config 0 (initial 0)
              [CallSetAccessToken (inl "h.exp2000.s"); Tick 1000] Hw)
    as (_ & Htok & Hone).
  assert (Hin : In (1%positive, 1994000)
                  (timers (demo_run [CallSetAccessToken (inl "h.exp2000.s");
                                     Tick 1000] (initial 0))))
    by (left; reflexivity).
  split; [exact Hin|].
  split; [apply (Hone _ _ Hin)|]. apply Htok. discriminate.
Defined.

Lemma one_refresh_at_a_time_witness :
  let evs := [CallGetAccessToken; CallRequest demo_request;
              CallRefreshAccessToken] in
  let w' := demo_run evs (initial 0) in
  Forall (fun e => e <> CallDestroy) evs
  /\ in_flight (tasks w') = [2%positive]
  /\ refreshAccessToken demo_config w' = (2%positive, w').
Proof.
  cbv zeta.
  assert (Hevs : Forall (fun e => e <> CallDestroy)
                   [CallGetAccessToken; CallRequest demo_request;
                    CallRefreshAccessToken])
    by (repeat constructor; discriminate).
  split; [exact Hevs|]. split; [reflexivity|].
  destruct (@one_refresh_at_a_time demo_runtime demo_config 0 (initial 0) _
              eq_refl Hevs) as (_ & _ & _ & _ & Hjoin).
  apply Hjoin. left. reflexivity.
Defined.

Lemma pending_refresh_in_flight_witness :
  let w' := demo_run [CallRefreshAccessToken; CallDestroy;
                      CallRefreshAccessToken] (initial 0) in
  refreshPromise w' = Some 3%positive
  /\ exists f, In (AwaitRefreshFetch 3 f) (tasks w')
               \/ exists r, In (AwaitRefreshJson 3 f r) (tasks w').
Proof.
  cbv zeta. split; [reflexivity|].
  apply (proj2 (@pending_refresh_in_flight demo_runtime demo_config 0
                  (initial 0)
                  [CallRefreshAccessToken; CallDestroy; CallRefreshAccessToken]
                  ltac:(discriminate))).
  reflexivity.
Defined.

Lemma constructor_validates_witness :
  let rc := {| arg_url := Some "https://api.example.com/auth/refresh";
               arg_method := None; arg_headers := None;
               arg_extractAccessToken :=
                 Some (extractAccessToken (refreshConfig demo_config)) |} in
  let c := {| arg_refreshConfig := rc; arg_refreshBuffer := None |} in
  let t := {| token := "a.b.c"; expiresAt := Num 120000 |} in
  constructor c = inr demo_config
  /\ delays (timers (exec (@setAccessToken demo_runtime demo_config (inr t))
                       (initial 0))) = [114000]
  /\ constructor {| arg_refreshConfig :=
                      {| arg_url := None; arg_method := None;
                         arg_headers := None;
                         arg_extractAccessToken := None |};
                    arg_refreshBuffer := None |}
     = inl (Error "Refresh URL is required").
Proof.
  cbv zeta. split; [reflexivity|]. split.
  - apply (proj2 (proj2
             (@constructor_validates demo_runtime
                {| arg_refreshConfig :=
                     {| arg_url := Some "https://api.example.com/auth/refresh";
                        arg_method := None; arg_headers := None;
                        arg_extractAccessToken :=
                          Some (extractAccessToken (refreshConfig demo_config)) |};
                   arg_refreshBuffer := None |}))
             demo_config 0 {| token := "a.b.c"; expiresAt := Num 120000 |}
             120000 eq_refl eq_refl eq_refl).
  - apply (proj1 (proj2 (@constructor_validates demo_runtime _))).
    left. reflexivity.
Defined.

Lemma request_headers_precedence_witness :
  let rq := {| url := "https://api.example.com/data"; method := None;
               headers := Some {[ "Authorization" := "Basic dXNlcg==" ]};
               body := VUndefined; options := no_options |} in
  accessToken signed_in
  = Some {| token := "h.exp2000.s"; expiresAt := Num 2000000 |}
  /\ exec (@request demo_runtime demo_config rq) signed_in
     = exec (@request_send demo_runtime 2 rq "h.exp2000.s")
         (set_next_id 3 signed_in)
  /\ request_headers rq "h.exp2000.s" !! "Authorization"
     = Some "Basic dXNlcg==".
Proof.
  cbv zeta. split; [reflexivity|].
  destruct (@request_headers_precedence demo_runtime demo_config signed_in 2
              {| url := "https://api.example.com/data"; method := None;
                 headers := Some {[ "Authorization" := "Basic dXNlcg==" ]};
                 body := VUndefined; options := no_options |}
              "h.exp2000.s") as (Hsend & _ & _ & _ & Hcaller).
  split.
  - apply (Hsend {| token := "h.exp2000.s"; expiresAt := Num 2000000 |});
      reflexivity.
  - apply Hcaller. vm_compute. reflexivity.
Defined.

Lemma refresh_call_shape_witness :
  exists call,
    fetched (exec (refreshAccessToken demo_config) signed_in) = [call]
    /\ call_url call = "https://api.example.com/auth/refresh"
    /\ init_method (call_init call) = "POST"
    /\ init_headers (call_init call) !! "Authorization" = None.
Proof.
  destruct (@refresh_call_shape demo_config signed_in eq_refl)
    as (call & Hcall & Hurl & Hmethod & _ & _ & _ & Hother).
  exists call. split; [exact Hcall|]. split; [exact Hurl|].
  split; [exact Hmethod|]. apply Hother. discriminate.
Defined.

Lemma request_call_shape_witness :
  let rq := {| url := "https://api.example.com/data"; method := Some "POST";
               headers := None; body := VNum (Num 0); options := no_options |} in
  exists call,
    fetched (exec (@request demo_runtime demo_config rq) signed_in) = [call]
    /\ init_method (call_init call) = "POST"
    /\ init_body (call_init call) = None.
Proof.
  cbv zeta.
  destruct (@request_call_shape demo_runtime demo_config signed_in
              {| token := "h.exp2000.s"; expiresAt := Num 2000000 |}
              {| url := "https://api.example.com/data"; method := Some "POST";
                 headers := None; body := VNum (Num 0); options := no_options |}
              eq_refl eq_refl)
    as (call & Hcall & _ & Hplain & _).
  destruct (Hplain eq_refl) as (Hmethod & _ & Hbody).
  exists call. split; [exact Hcall|]. split; assumption.
Defined.
